(** * scrap-articles: extraction, normalisation, summary post-processing

    A shallow embedding of the Python sources

      - [app/processing/preprocessor.py]   (module [Preprocessor])
      - [app/processing/postprocessor.py]  (module [Postprocessor])
      - [app/scrapping/scraper.py]         (modules [Soup], [Scraper])
      - [app/gemini/client.py]             (modules [Gemini], [GeminiModule])
      - [app/api/routes.py]                (module [Routes]: the handler
                                            [scrape_and_summarize])

    together with the Python primitives they rest on: [str] methods
    ([PyStr]), the [int * float] product and the mixed comparison
    ([PyFloat]), and the backtracking matcher behind [re.sub] and
    [re.split] ([Re]).  The modules [TextSpec], [ScraperSpec],
    [GenericSpec], [TreeSpec], [GatewaySpec], [LimitLengthSpec],
    [HelperSpec] and [Passes] hold the vocabulary in which the properties
    are stated, [Fixtures] and [Pages] the pages and texts of the
    examples; the properties follow.

    Characters are 8-bit code points.  On that range (U+0000 .. U+00FF) the
    predicates [str.isspace], [str.isupper], [\w], [\d] and the mapping
    [str.lower] are tabulated exactly as CPython defines them; code points
    above U+00FF are outside the model. *)

From Stdlib Require Import Ascii String.
From Stdlib Require Import List ZArith Lia Bool Arith PeanoNat.
From Stdlib Require Import Floats.SpecFloat.
Import ListNotations.

Set Warnings "-register-all".


(** ** Python exceptions and the result of a call that may raise *)

Inductive exn : Type := Exception (kind : list ascii) (message : list ascii).

Inductive py (A : Type) : Type :=
  | Return (a : A)
  | Raise (e : exn).

Arguments Return {A} a.
Arguments Raise {A} e.

Definition bind {A B : Type} (m : py A) (f : A -> py B) : py B :=
  match m with
  | Return a => f a
  | Raise e => Raise e
  end.

(** [try: body  except Exception as e: handler e] *)
Definition try_except {A : Type} (body : py A) (handler : exn -> py A) : py A :=
  match body with
  | Return a => Return a
  | Raise e => handler e
  end.

Declare Scope py_scope.
Delimit Scope py_scope with py.
Notation "x <- m ;; k" := (bind m (fun x => k))
  (at level 61, m at next level, right associativity) : py_scope.

(** ** [str] *)

Module PyStr.

Definition str := list ascii.

(** A string literal of the source. *)
Definition lit (s : String.string) : str := String.list_ascii_of_string s.
Arguments lit s%_string.

(** [len(x)], for strings and lists alike. *)
Definition len {A : Type} (s : list A) : Z := Z.of_nat (length s).

(** [sys.maxsize]: no CPython sequence is longer. *)
Definition PY_SSIZE_T_MAX : Z := 2 ^ 63 - 1.

Definition between (lo hi c : ascii) : bool :=
  (Ascii.leb lo c && Ascii.leb c hi)%bool.

Definition one_of (cs : String.string) (c : ascii) : bool :=
  existsb (Ascii.eqb c) (String.list_ascii_of_string cs).
Arguments one_of cs%_string c%_char.

(** [c.isspace()], which is also [\s]: TAB..CR, FS..US, SPACE, NEL, NBSP. *)
Definition isspace (c : ascii) : bool :=
  (between "009" "013" c || between "028" "032" c
   || Ascii.eqb c "133" || Ascii.eqb c "160")%bool.

(** [\d] *)
Definition isdigit (c : ascii) : bool := between "0" "9" c.

(** [c.isupper()]: A-Z, and in the Latin-1 block U+00C0..U+00DE except
    the multiplication sign U+00D7. *)
Definition isupper (c : ascii) : bool :=
  (between "A" "Z" c
   || (between "192" "222" c && negb (Ascii.eqb c "215")))%bool.

(** [\w]: [c.isalnum() or c == '_']. *)
Definition isword (c : ascii) : bool :=
  (between "a" "z" c || between "A" "Z" c || between "0" "9" c
   || Ascii.eqb c "_"
   || Ascii.eqb c "170" || Ascii.eqb c "178" || Ascii.eqb c "179"
   || Ascii.eqb c "181" || Ascii.eqb c "185" || Ascii.eqb c "186"
   || between "188" "190" c
   || (between "192" "255" c
       && negb (Ascii.eqb c "215") && negb (Ascii.eqb c "247")))%bool.

(** [c.lower()]: every upper-case character is 32 below its lower-case
    form. *)
Definition lower_char (c : ascii) : ascii :=
  if isupper c then ascii_of_nat (nat_of_ascii c + 32) else c.

Definition lower (s : str) : str := map lower_char s.

Fixpoint dropwhile (p : ascii -> bool) (s : str) : str :=
  match s with
  | [] => []
  | c :: rest => if p c then dropwhile p rest else s
  end.

Definition lstrip (s : str) : str := dropwhile isspace s.
Definition rstrip (s : str) : str := rev (dropwhile isspace (rev s)).
Definition strip (s : str) : str := rstrip (lstrip s).

(** [s[:n]], for strings and lists alike: a negative bound counts from
    the end. *)
Definition slice_to {A : Type} (s : list A) (n : Z) : list A :=
  if (n <? 0)%Z then firstn (Z.to_nat (len s + n)) s
  else firstn (Z.to_nat n) s.

(** [s.rfind(c)] for a one-character needle: the highest index holding
    [c], or [-1]. *)
Fixpoint rfind_from (c : ascii) (s : str) (i : Z) (found : Z) : Z :=
  match s with
  | [] => found
  | x :: rest => rfind_from c rest (i + 1) (if Ascii.eqb x c then i else found)
  end.

Definition rfind (s : str) (c : ascii) : Z := rfind_from c s 0 (-1).

Fixpoint startswith (s prefix : str) : bool :=
  match prefix, s with
  | [], _ => true
  | p :: prefix', c :: s' => (Ascii.eqb c p && startswith s' prefix')%bool
  | _ :: _, [] => false
  end.

Definition endswith (s suffix : str) : bool :=
  startswith (rev s) (rev suffix).

(** [s == t] *)
Definition eqb (s t : str) : bool :=
  if list_eq_dec ascii_dec s t then true else false.

(** [needle in s] *)
Fixpoint contains (needle s : str) : bool :=
  (startswith s needle
   || match s with
      | [] => false
      | _ :: rest => contains needle rest
      end)%bool.

(** [sep.join(parts)] *)
Fixpoint join (sep : str) (parts : list str) : str :=
  match parts with
  | [] => []
  | [p] => p
  | p :: rest => p ++ sep ++ join sep rest
  end.

(** [s.split()]: the maximal runs of non-whitespace characters. *)
Fixpoint split_ws_from (word : str) (s : str) : list str :=
  match s with
  | [] => match word with [] => [] | _ => [rev word] end
  | c :: rest =>
      if isspace c
      then match word with
           | [] => split_ws_from [] rest
           | _ => rev word :: split_ws_from [] rest
           end
      else split_ws_from (c :: word) rest
  end.

Definition split_ws (s : str) : list str := split_ws_from [] s.

Definition newline : str := ["010"%char].

(** [str(n)] for a natural number. *)
Definition digit_char (d : nat) : ascii := ascii_of_nat (48 + d).

Fixpoint decimal_from (fuel n : nat) (acc : str) : str :=
  match fuel with
  | O => acc
  | S fuel' =>
      let acc' := digit_char (n mod 10) :: acc in
      if n <? 10 then acc' else decimal_from fuel' (n / 10) acc'
  end.

Definition str_of_nat (n : nat) : str := decimal_from (S n) n [].

(** [str(n)] for an int. *)
Definition str_of_int (n : Z) : str :=
  if (n <? 0)%Z then "-"%char :: str_of_nat (Z.to_nat (- n))
  else str_of_nat (Z.to_nat n).

End PyStr.

Import PyStr.

(** [str(e)] *)
Definition str_of_exn (e : exn) : str :=
  match e with Exception _ message => message end.

(** Raised by [x.get_text()] when [x] is [None]. *)
Definition AttributeError : exn :=
  Exception (lit "AttributeError") (lit "'NoneType' object has no attribute 'get_text'").

(** Raised by [float(n)] for an int out of range. *)
Definition OverflowError : exn :=
  Exception (lit "OverflowError") (lit "int too large to convert to float").

(** ** [float]: IEEE 754 binary64 *)

Module PyFloat.

Definition prec : Z := 53.
Definition emax : Z := 1024.

(** The literal [0.7]: the double nearest to 7/10. *)
Definition f0_7 : spec_float := S754_finite false 6305039478318694 (-53).

(** [float(n)]: correctly rounded, [OverflowError] when out of range. *)
Definition float_of_int (n : Z) : py spec_float :=
  match binary_normalize prec emax n 0 false with
  | S754_infinity _ => Raise OverflowError
  | f => Return f
  end.

(** [n * f] for an int [n] and a float [f]: the int is converted first. *)
Definition int_mul_float (n : Z) (f : spec_float) : py spec_float :=
  (x <- float_of_int n ;; Return (SFmul prec emax x f))%py.

(** A float whose sign bit is clear, or NaN. *)
Definition nonneg_float (f : spec_float) : Prop :=
  match f with
  | S754_zero s | S754_infinity s | S754_finite s _ _ => s = false
  | S754_nan => True
  end.

(** [n > f] for an int [n] and a float [f]: CPython compares the exact
    values, without converting the int. *)
Definition int_gt_float (n : Z) (f : spec_float) : bool :=
  match f with
  | S754_nan => false
  | S754_zero _ => (0 <? n)%Z
  | S754_infinity s => s
  | S754_finite s m e =>
      let v := if s then Z.neg m else Z.pos m in
      if (0 <=? e)%Z then (v * 2 ^ e <? n)%Z else (v <? n * 2 ^ (- e))%Z
  end.

End PyFloat.

(** ** [re]: the backtracking matcher

    Only the constructs that occur in the patterns of the sources. *)

Module Re.

Inductive regex : Type :=
  | Eps
  | Chars (p : ascii -> bool)      (* one character of a class *)
  | Cat (r1 r2 : regex)
  | Alt (r1 r2 : regex)            (* r1|r2, r1 preferred *)
  | Opt (r : regex)                (* r?,  greedy *)
  | Plus (r : regex)               (* r+,  greedy *)
  | LazyStar (r : regex)           (* r*?, non-greedy *)
  | Group (r : regex)              (* (r), the capture group 1 *)
  | Bol                            (* ^ under re.MULTILINE *)
  | Behind (p : ascii -> bool)     (* (?<=[...]) *)
  | Ahead (p : ascii -> bool).     (* (?=[...]) *)

(** A position in the subject: the characters before it (nearest first)
    and the characters from it on. *)
Record cursor : Type := { behind : str; ahead : str }.

Definition advance (k : cursor) (c : ascii) (rest : str) : cursor :=
  {| behind := c :: behind k; ahead := rest |}.

(** What the matcher consumed between two positions. *)
Definition consumed (k k' : cursor) : str :=
  firstn (length (ahead k) - length (ahead k')) (ahead k).

(** A state of the matcher: where it stands and what group 1 holds. *)
Definition mstate : Type := (cursor * option str)%type.

(** Repetition of one matching step.  A further round is tried only after
    a round that consumed a character, so the fuel [S (length (ahead k))]
    is never exhausted. *)
Section Repetition.

Variable step : cursor -> option str -> list mstate.

(** One or more rounds, the longest first. *)
Fixpoint greedy_more (fuel : nat) (k : cursor) (g : option str) : list mstate :=
  match fuel with
  | O => []
  | S fuel' =>
      flat_map
        (fun st : mstate =>
           (if length (ahead (fst st)) <? length (ahead k)
            then greedy_more fuel' (fst st) (snd st) else [])
           ++ [st])
        (step k g)
  end.

(** Zero or more rounds, the shortest first. *)
Fixpoint lazy_more (fuel : nat) (k : cursor) (g : option str) : list mstate :=
  (k, g) ::
  match fuel with
  | O => []
  | S fuel' =>
      flat_map
        (fun st : mstate =>
           if length (ahead (fst st)) <? length (ahead k)
           then lazy_more fuel' (fst st) (snd st) else [])
        (step k g)
  end.

End Repetition.

(** [run r k g]: every way [r] matches at [k], in the order in which the
    matcher tries them. *)
Fixpoint run (r : regex) (k : cursor) (g : option str) : list mstate :=
  match r with
  | Eps => [(k, g)]
  | Chars p =>
      match ahead k with
      | c :: rest => if p c then [(advance k c rest, g)] else []
      | [] => []
      end
  | Cat r1 r2 => flat_map (fun st : mstate => run r2 (fst st) (snd st)) (run r1 k g)
  | Alt r1 r2 => run r1 k g ++ run r2 k g
  | Opt r1 => run r1 k g ++ [(k, g)]
  | Plus r1 => greedy_more (run r1) (S (length (ahead k))) k g
  | LazyStar r1 => lazy_more (run r1) (S (length (ahead k))) k g
  | Group r1 =>
      map (fun st : mstate => (fst st, Some (consumed k (fst st)))) (run r1 k g)
  | Bol =>
      match behind k with
      | [] => [(k, g)]
      | c :: _ => if Ascii.eqb c "010" then [(k, g)] else []
      end
  | Behind p =>
      match behind k with
      | c :: _ => if p c then [(k, g)] else []
      | [] => []
      end
  | Ahead p =>
      match ahead k with
      | c :: _ => if p c then [(k, g)] else []
      | [] => []
      end
  end.

(** The match the engine reports at a position: the first success, as
    the number of characters it spans and the text of group 1. *)
Definition match_here (r : regex) (k : cursor) : option (nat * option str) :=
  match run r k None with
  | [] => None
  | (k', g) :: _ => Some (length (ahead k) - length (ahead k'), g)
  end.

(** A replacement template: literal text and [\1]. *)
Inductive piece : Type := Text (s : str) | Group1.

Definition expand (repl : list piece) (g : option str) : str :=
  flat_map (fun p => match p with
                     | Text s => s
                     | Group1 => match g with Some x => x | None => [] end
                     end) repl.

(** [re.sub(r, repl, s)].  [skip] counts the characters of the current
    match still to be passed over.  No pattern of the sources matches
    the empty string; an empty match is treated as no match. *)
Fixpoint sub_from (r : regex) (repl : list piece)
         (before : str) (s : str) (skip : nat) : str :=
  match s with
  | [] => []
  | c :: rest =>
      match skip with
      | S n => sub_from r repl (c :: before) rest n
      | O =>
          match match_here r {| behind := before; ahead := s |} with
          | Some (S n, g) => expand repl g ++ sub_from r repl (c :: before) rest n
          | _ => c :: sub_from r repl (c :: before) rest 0
          end
      end
  end.

Definition sub (r : regex) (repl : list piece) (s : str) : str :=
  sub_from r repl [] s 0.

(** [re.split(r, s)] for a pattern without groups.  [cur] is the piece
    being collected, last character first. *)
Fixpoint split_from (r : regex) (before : str) (s : str) (skip : nat)
         (cur : str) : list str :=
  match s with
  | [] => [rev cur]
  | c :: rest =>
      match skip with
      | S n => split_from r (c :: before) rest n cur
      | O =>
          match match_here r {| behind := before; ahead := s |} with
          | Some (S n, _) => rev cur :: split_from r (c :: before) rest n []
          | _ => split_from r (c :: before) rest 0 (c :: cur)
          end
      end
  end.

Definition split (r : regex) (s : str) : list str := split_from r [] s 0 [].

(** Pattern syntax. *)
Definition Chr (c : ascii) : regex := Chars (Ascii.eqb c).

Fixpoint Lit (s : str) : regex :=
  match s with
  | [] => Eps
  | [c] => Chr c
  | c :: rest => Cat (Chr c) (Lit rest)
  end.

(** [.] without re.DOTALL *)
Definition dot (c : ascii) : bool := negb (Ascii.eqb c "010").

(** [\S] *)
Definition nonspace (c : ascii) : bool := negb (isspace c).

(** The length of the leading run of characters of a class. *)
Fixpoint run_length (p : ascii -> bool) (s : str) : nat :=
  match s with
  | c :: rest => if p c then S (run_length p rest) else 0
  | [] => 0
  end.

(** The position [n] characters further on. *)
Fixpoint jump (k : cursor) (n : nat) : cursor :=
  match n, ahead k with
  | S n', c :: rest => jump (advance k c rest) n'
  | _, _ => k
  end.

End Re.

Import Re.

(** ** app/processing/preprocessor.py *)

Module Preprocessor.

Definition STOPWORDS : list str :=
  map lit
    ["a"; "an"; "and"; "are"; "as"; "at"; "be"; "by"; "for"; "from";
     "has"; "he"; "in"; "is"; "it"; "its"; "of"; "on"; "that"; "the";
     "to"; "was"; "will"; "with"; "this"; "but"; "they"; "have"; "had";
     "what"; "said"; "each"; "which"; "their"; "time"; "if"; "up"; "out";
     "many"; "then"; "them"; "these"; "so"; "some"; "her"; "would";
     "make"; "like"; "into"; "him"; "has"; "two"; "more"; "go"; "no";
     "way"; "could"; "my"; "than"; "first"; "been"; "call"; "who";
     "oil"; "its"; "now"; "find"; "long"; "down"; "day"; "did"; "get";
     "come"; "made"; "may"; "part"]%string.

(** [word in STOPWORDS] *)
Definition is_stopword (word : str) : bool :=
  existsb (PyStr.eqb word) STOPWORDS.

(** [<[^>]+>] *)
Definition html_tag : regex :=
  Cat (Chr "<") (Cat (Plus (Chars (fun c => negb (Ascii.eqb c ">")))) (Chr ">")).

Definition hexdigit (c : ascii) : bool :=
  (between "0" "9" c || between "a" "f" c || between "A" "F" c)%bool.

(** [http[s]?://(?:[a-zA-Z]|[0-9]|[$-_@.&+]|[!*\\(\\),]|(?:%[0-9a-fA-F][0-9a-fA-F]))+] *)
Definition url : regex :=
  Cat (Lit (lit "http"))
    (Cat (Opt (Chars (one_of "s")))
       (Cat (Lit (lit "://"))
          (Plus
             (Alt (Chars (fun c => (between "a" "z" c || between "A" "Z" c)%bool))
                (Alt (Chars (between "0" "9"))
                   (Alt (Chars (fun c => (between "$" "_" c || one_of "@.&+" c)%bool))
                      (Alt (Chars (one_of "!*\(),"))
                         (Cat (Chr "%") (Cat (Chars hexdigit) (Chars hexdigit)))))))))).

(** [\S+@\S+] *)
Definition email : regex :=
  Cat (Plus (Chars nonspace)) (Cat (Chr "@") (Plus (Chars nonspace))).

(** [\s+] *)
Definition whitespace : regex := Plus (Chars isspace).

(** The characters that the last substitution keeps: word characters,
    whitespace, and the punctuation . , ! ? ; : - ' ( ) and the double
    quote (U+0022). *)
Definition kept (c : ascii) : bool :=
  (isword c || isspace c || one_of ".,!?;:-'()" c || Ascii.eqb c "034")%bool.

(** The negated class over [kept]. *)
Definition special : regex := Chars (fun c => negb (kept c)).

(** [preprocess_text(text, remove_stopwords=False)].  [None] stands for a
    missing text.  No step of the [try] block raises on a [str], so the
    [except] branch is not represented. *)
Definition preprocess_text (text : option str) (remove_stopwords : bool) : str :=
  match text with
  | None => []
  | Some [] => []
  | Some text =>
      let text := sub html_tag [] text in
      let text := sub url [] text in
      let text := sub email [] text in
      let text := sub whitespace [Text (lit " ")] text in
      let text := sub special [] text in
      let text := lower text in
      let text :=
        if remove_stopwords
        then join (lit " ")
               (filter (fun word => negb (is_stopword (lower word))) (split_ws text))
        else text in
      strip (sub whitespace [Text (lit " ")] text)
  end.

(** [clean_html(text)] *)
Definition clean_html (text : str) : str := sub html_tag [] text.

(** [normalize_whitespace(text)] *)
Definition normalize_whitespace (text : str) : str :=
  strip (sub whitespace [Text (lit " ")] text).

(** The negated class of [[^\w\s]]. *)
Definition not_word_or_space : regex :=
  Chars (fun c => negb (isword c || isspace c)%bool).

(** [remove_special_characters(text, keep_basic_punctuation=True)] *)
Definition remove_special_characters (text : str) (keep_basic_punctuation : bool)
  : str :=
  if keep_basic_punctuation then sub special [] text
  else sub not_word_or_space [] text.

End Preprocessor.

(** ** app/processing/postprocessor.py *)

Module Postprocessor.

(** [\s+] *)
Definition whitespace : regex := Plus (Chars isspace).

(** [\*\*(.*?)\*\*], [\*(.*?)\*] and [`(.*?)`] *)
Definition bold : regex :=
  Cat (Lit (lit "**")) (Cat (Group (LazyStar (Chars dot))) (Lit (lit "**"))).
Definition italic : regex :=
  Cat (Chr "*") (Cat (Group (LazyStar (Chars dot))) (Chr "*")).
Definition code : regex :=
  Cat (Chr "`") (Cat (Group (LazyStar (Chars dot))) (Chr "`")).

(** The class of the bullet pattern as the source file spells it:
    U+002D, U+00E2, U+20AC, U+00A2, U+002A.  U+20AC is not an 8-bit code
    point and cannot occur in a subject. *)
Definition bullet_char (c : ascii) : bool :=
  (one_of "-*" c || Ascii.eqb c "226" || Ascii.eqb c "162")%bool.

(** [^[...]\s+] and [^\d+\.\s+], both under re.MULTILINE *)
Definition bullet : regex := Cat Bol (Cat (Chars bullet_char) whitespace).
Definition numbered : regex :=
  Cat Bol (Cat (Plus (Chars isdigit)) (Cat (Chr ".") whitespace)).

(** [(?<=[.!?])\s+(?=[A-Z])] *)
Definition boundary : regex :=
  Cat (Behind (one_of ".!?")) (Cat whitespace (Ahead (between "A" "Z"))).

(** [split_sentences(text)] *)
Definition split_sentences (text : str) : list str :=
  let sentences := split boundary text in
  fold_right
    (fun sentence cleaned_sentences =>
       let sentence := strip sentence in
       match sentence with
       | [] => cleaned_sentences
       | _ => if (len sentence >? 5)%Z
              then sentence :: cleaned_sentences
              else cleaned_sentences
       end)
    [] sentences.

(** [postprocess_summary(summary, max_sentences=5)].  No step of the
    [try] block raises on a [str]. *)
Definition postprocess_summary (summary : str) (max_sentences : Z) : str :=
  match summary with
  | [] => []
  | _ =>
      let summary := strip (sub whitespace [Text (lit " ")] summary) in
      let summary := sub bold [Group1] summary in
      let summary := sub italic [Group1] summary in
      let summary := sub code [Group1] summary in
      let summary := sub bullet [] summary in
      let summary := sub numbered [] summary in
      let sentences := split_sentences summary in
      let sentences :=
        if (len sentences >? max_sentences)%Z
        then slice_to sentences max_sentences else sentences in
      let processed_summary := strip (join (lit " ") sentences) in
      match processed_summary with
      | [] => processed_summary
      | _ => if negb (endswith processed_summary (lit "."))
             then processed_summary ++ lit "."
             else processed_summary
      end
  end.

(** [limit_length(text, max_chars=500)] *)
Definition limit_length (text : str) (max_chars : Z) : py str :=
  if (len text <=? max_chars)%Z then Return text
  else
    let truncated := slice_to text max_chars in
    let last_sentence_end :=
      Z.max (Z.max (rfind truncated ".") (rfind truncated "!"))
            (rfind truncated "?") in
    (threshold <- PyFloat.int_mul_float max_chars PyFloat.f0_7 ;;
     if PyFloat.int_gt_float last_sentence_end threshold
     then Return (slice_to text (last_sentence_end + 1))
     else Return (truncated ++ lit "..."))%py.

(** [[a-zA-Z]] *)
Definition letter (c : ascii) : bool :=
  (between "a" "z" c || between "A" "Z" c)%bool.

(** [&[a-zA-Z]+;] *)
Definition entity : regex :=
  Cat (Chr "&") (Cat (Plus (Chars letter)) (Chr ";")).

(** [[c]{2,}]: one [c], then one or more, as many as there are. *)
Definition repeated (c : ascii) : regex := Cat (Chr c) (Plus (Chr c)).

(** [clean_formatting(text)] *)
Definition clean_formatting (text : str) : str :=
  let text := sub bold [Group1] text in
  let text := sub italic [Group1] text in
  let text := sub code [Group1] text in
  let text := sub entity [] text in
  let text := sub (repeated ".") [Text (lit ".")] text in
  let text := sub (repeated "!") [Text (lit "!")] text in
  let text := sub (repeated "?") [Text (lit "?")] text in
  strip text.


End Postprocessor.

(** ** The parse tree of BeautifulSoup

    [BeautifulSoup(markup, 'html.parser')] is taken as given: a document
    is the tree it builds.  The loop of [_scrape_generic] calls
    [extract()] on elements of the tree it is still reading, so elements
    are referred to by their position in the one shared tree: [extract()]
    clears the [attached] mark of an element, and every traversal passes
    over the children that are no longer attached. *)

Module Soup.

Inductive node : Type :=
  | NavigableString (s : str)
  | Tag (attached : bool) (name : str) (attrs : list (str * str))
      (contents : list node).

(** A reference to an element: the child indices from the root. *)
Definition path : Type := list nat.


Definition is_attached (n : node) : bool :=
  match n with
  | NavigableString _ => true
  | Tag a _ _ _ => a
  end.

Fixpoint subtree (root : node) (p : path) : option node :=
  match p with
  | [] => Some root
  | i :: p' =>
      match root with
      | Tag _ _ _ cs =>
          match nth_error cs i with
          | Some c => subtree c p'
          | None => None
          end
      | NavigableString _ => None
      end
  end.

(** The element a reference stands for.  References are only ever made
    by [find_all] and [find], and [extract] keeps every position in
    place, so the default is never used. *)
Definition element (root : node) (p : path) : node :=
  match subtree root p with
  | Some n => n
  | None => NavigableString []
  end.

(** The descendants of a node in document order, each with its position
    relative to the node. *)
Fixpoint walk (n : node) : list (path * node) :=
  match n with
  | NavigableString _ => []
  | Tag _ _ _ cs =>
      (fix children (i : nat) (l : list node) : list (path * node) :=
         match l with
         | [] => []
         | c :: rest =>
             (if is_attached c
              then ([i], c) :: map (fun d => (i :: fst d, snd d)) (walk c)
              else [])
             ++ children (S i) rest
         end) 0 cs
  end.



(** [tag.get_text()] *)
Fixpoint get_text (n : node) : str :=
  match n with
  | NavigableString s => s
  | Tag _ _ _ cs =>
      (fix children (l : list node) : str :=
         match l with
         | [] => []
         | c :: rest =>
             (if is_attached c then get_text c else []) ++ children rest
         end) cs
  end.

(** [tag.get(key)] *)
Definition attr (key : str) (n : node) : option str :=
  match n with
  | NavigableString _ => None
  | Tag _ _ attrs _ =>
      match List.find (fun kv => PyStr.eqb (fst kv) key) attrs with
      | Some kv => Some (snd kv)
      | None => None
      end
  end.

(** The value of the multi-valued attribute [class]: its
    whitespace-separated tokens. *)
Definition classes (n : node) : option (list str) :=
  match attr (lit "class") n with
  | Some v => Some (split_ws v)
  | None => None
  end.

(** The filter [class_=f]: [f] is tried on each token and then on the
    tokens joined by spaces.  An element without the attribute hands
    [None] to [f]; the filters of the sources are falsy on [None]. *)
Definition class_matches (f : str -> bool) (n : node) : bool :=
  match classes n with
  | Some tokens => (existsb f tokens || f (join (lit " ") tokens))%bool
  | None => false
  end.

(** The filter on the tag name. *)
Definition named (names : list str) (n : node) : bool :=
  match n with
  | NavigableString _ => false
  | Tag _ name _ _ => existsb (PyStr.eqb name) names
  end.

(** [root.at(p).find_all(...)]: the references to the descendants of the
    element at [p] that pass the filter, in document order. *)
Definition find_all (filter_ : node -> bool) (root : node) (p : path) : list path :=
  map (fun d => p ++ fst d)
      (filter (fun d => filter_ (snd d)) (walk (element root p))).

(** [find(...)]: the first of them, or [None]. *)
Definition find (filter_ : node -> bool) (root : node) (p : path) : option path :=
  hd_error (find_all filter_ root p).

(** [tag.find_next_sibling(name)] *)
Definition find_next_sibling (name : str) (root : node) (p : path) : option path :=
  match rev p with
  | [] => None
  | i :: rparent =>
      let parent := rev rparent in
      match element root parent with
      | NavigableString _ => None
      | Tag _ _ _ cs =>
          (fix next (j : nat) (l : list node) : option path :=
             match l with
             | [] => None
             | c :: rest =>
                 if (is_attached c && named [name] c)%bool
                 then Some (parent ++ [j])
                 else next (S j) rest
             end) (S i) (skipn (S i) cs)
      end
  end.

Definition set_attached (a : bool) (n : node) : node :=
  match n with
  | NavigableString s => NavigableString s
  | Tag _ name attrs cs => Tag a name attrs cs
  end.

Fixpoint update_nth {A : Type} (i : nat) (f : A -> A) (l : list A) : list A :=
  match l, i with
  | [], _ => []
  | x :: rest, O => f x :: rest
  | x :: rest, S i' => x :: update_nth i' f rest
  end.

(** [root.at(p).extract()], as it changes the tree. *)
Fixpoint extract (root : node) (p : path) : node :=
  match p with
  | [] => set_attached false root
  | i :: p' =>
      match root with
      | Tag a name attrs cs => Tag a name attrs (update_nth i (fun c => extract c p') cs)
      | NavigableString s => NavigableString s
      end
  end.

End Soup.

(** ** app/scrapping/scraper.py *)

Module Scraper.
Import Soup.

(** The dictionaries that the scraper builds. *)
Record article : Type :=
  { title : str; author : str; content : str; source_url : str }.

Section WithSession.

(** [session.get(url)], [raise_for_status()] and the parse: the
    document, or the exception of a failed request. *)
Variable fetch : str -> py node.

(** [x.get_text()] where [x] is the result of a [find]. *)
Definition get_text_of (soup : node) (x : option path) : py str :=
  match x with
  | Some p => Return (get_text (element soup p))
  | None => Raise AttributeError
  end.

(** The filter [(name, class_=c)]. *)
Definition tag_with_class (name c : str) (n : node) : bool :=
  (named [name] n && class_matches (PyStr.eqb c) n)%bool.

(** The loop of [_scrape_quotes_to_scrape]. *)
Fixpoint quotes_loop (soup : node) (url : str) (quotes : list path)
       (articles : list article) : py (list article) :=
  match quotes with
  | [] => Return articles
  | quote :: rest =>
    (text <- get_text_of soup (find (tag_with_class (lit "span") (lit "text")) soup quote) ;;
     author <- get_text_of soup (find (tag_with_class (lit "small") (lit "author")) soup quote) ;;
     let tags := map (fun tag => get_text (element soup tag))
                     (find_all (tag_with_class (lit "a") (lit "tag")) soup quote) in
     quotes_loop soup url rest
       (articles ++
        [{| title := lit "Quote by " ++ author;
            author := author;
            content := text ++ newline ++ newline ++ lit "Tags: "
                       ++ join (lit ", ") tags;
            source_url := url |}]))%py
  end.

Definition _scrape_quotes_to_scrape (url : str) (limit : Z) : py (list article) :=
  (soup <- fetch url ;;
   let quotes :=
     slice_to (find_all (tag_with_class (lit "div") (lit "quote")) soup []) limit in
   quotes_loop soup url quotes [])%py.

(** The loop of [_scrape_hacker_news]. *)
Fixpoint hacker_news_loop (soup : node) (url : str) (rows : list path)
       (articles : list article) : list article :=
  match rows with
  | [] => articles
  | row :: rest =>
    match find (tag_with_class (lit "span") (lit "titleline")) soup row with
    | Some title_element =>
        match find (named [lit "a"]) soup title_element with
        | Some title_link =>
            let title := strip (get_text (element soup title_link)) in
            let link := match attr (lit "href") (element soup title_link) with
                        | Some v => v
                        | None => []
                        end in
            let author :=
              match find_next_sibling (lit "tr") soup row with
              | Some next_row =>
                  match find (tag_with_class (lit "a") (lit "hnuser")) soup next_row with
                  | Some author_element => get_text (element soup author_element)
                  | None => lit "Unknown"
                  end
              | None => lit "Unknown"
              end in
            hacker_news_loop soup url rest
              (articles ++
               [{| title := title;
                   author := author;
                   content := lit "Title: " ++ title ++ newline
                              ++ lit "Link: " ++ link;
                   source_url := url |}])
        | None => hacker_news_loop soup url rest articles
        end
    | None => hacker_news_loop soup url rest articles
    end
  end.

Definition _scrape_hacker_news (url : str) (limit : Z) : py (list article) :=
  (soup <- fetch url ;;
   let rows :=
     slice_to (find_all (tag_with_class (lit "tr") (lit "athing")) soup []) limit in
   Return (hacker_news_loop soup url rows []))%py.

(** [lambda x: x and 'post' in x.lower()] and its twin, on a string. *)
Definition mentions (word : str) (x : str) : bool :=
  match x with
  | [] => false
  | _ => contains word (lower x)
  end.

(** [a or b] on the results of [find]: a tag is always truthy. *)
Definition or_else (a b : option path) : option path :=
  match a with
  | Some _ => a
  | None => b
  end.

(** One turn of the loop of [_scrape_generic]: the record, and the
    tree after the script and style elements of the candidate were
    extracted. *)
Definition generic_step (soup : node) (url : str) (i : nat) (candidate : path)
  : article * node :=
  let title_element :=
    or_else (find (named [lit "h1"]) soup candidate)
      (or_else (find (named [lit "h2"]) soup candidate)
         (or_else (find (named [lit "h3"]) soup candidate)
            (find (named [lit "title"]) soup candidate))) in
  let title :=
    match title_element with
    | Some e => strip (get_text (element soup e))
    | None => lit "Article " ++ str_of_nat (i + 1)
    end in
  let soup' :=
    fold_left extract
      (find_all (named [lit "script"; lit "style"]) soup candidate) soup in
  let content := slice_to (strip (get_text (element soup' candidate))) 2000 in
  ({| title := title; author := lit "Unknown";
      content := content; source_url := url |}, soup').

Fixpoint generic_loop (soup : node) (url : str) (i : nat)
       (potential_articles : list path) (articles : list article)
  : list article :=
  match potential_articles with
  | [] => articles
  | candidate :: rest =>
    let (record, soup') := generic_step soup url i candidate in
    generic_loop soup' url (S i) rest (articles ++ [record])
  end.

(** The candidates of [_scrape_generic], before the cut at [limit]. *)
Definition potential_articles (soup : node) : list path :=
  find_all (named [lit "article"]) soup []
  ++ find_all (fun n => (named [lit "div"] n
                       && class_matches (mentions (lit "post")) n)%bool) soup []
  ++ find_all (fun n => (named [lit "div"] n
                       && class_matches (mentions (lit "article")) n)%bool) soup [].

(** [_scrape_generic]: a failed request is caught inside. *)
Definition _scrape_generic (url : str) (limit : Z) : py (list article) :=
  try_except
    (soup <- fetch url ;;
     Return (generic_loop soup url 0
               (slice_to (potential_articles soup) limit) []))%py
    (fun _ => Return []).

(** [WebScraper.scrape_articles] *)
Definition scrape_articles (url : str) (limit : Z) : py (list article) :=
  try_except
    (if contains (lit "quotes.toscrape.com") url
     then _scrape_quotes_to_scrape url limit
     else if contains (lit "news.ycombinator.com") url
          then _scrape_hacker_news url limit
          else _scrape_generic url limit)
    (fun _ => Return []).

End WithSession.

End Scraper.

(** ** app/gemini/client.py

    The clock, [time.sleep] and the completion service are outside the
    program.  Every call to them is recorded in a log, and what they
    answer is a function of the log so far. *)

Module Gemini.

Inductive effect : Type :=
  | TimeTime                          (* time.time() *)
  | TimeSleep (secs : spec_float)     (* time.sleep(secs) *)
  | GenerateContent (prompt : str).   (* self.model.generate_content(prompt) *)

(** The fields of [GeminiClient] that change or are read after
    [__init__].  Both start as ints ([1] and [0]); they are only used in
    float arithmetic, where [1] is [1.0] and [0] is [0.0]. *)
Record GeminiClient : Type :=
  { rate_limit_delay : spec_float; last_request_time : spec_float }.

Definition f1_0 : spec_float := S754_finite false 4503599627370496 (-52).

Definition new_client : GeminiClient :=
  {| rate_limit_delay := f1_0; last_request_time := S754_zero false |}.

Record state : Type := { self : GeminiClient; log : list effect }.

(** A computation that reads and changes the state and may raise; what
    was changed before an exception stays changed. *)
Definition M (A : Type) : Type := state -> py A * state.

Definition ret {A : Type} (a : A) : M A := fun s => (Return a, s).

Definition mbind {A B : Type} (m : M A) (f : A -> M B) : M B :=
  fun s => match m s with
           | (Return a, s') => f a s'
           | (Raise e, s') => (Raise e, s')
           end.

Definition mtry {A : Type} (body : M A) (handler : exn -> M A) : M A :=
  fun s => match body s with
           | (Return a, s') => (Return a, s')
           | (Raise e, s') => handler e s'
           end.

Declare Scope gemini_scope.
Delimit Scope gemini_scope with gemini.
Notation "x <- m ;; k" := (mbind m (fun x => k))
  (at level 61, m at next level, right associativity) : gemini_scope.
Notation "m ;; k" := (mbind m (fun _ => k))
  (at level 61, right associativity) : gemini_scope.

Section WithWorld.

(** What [time.time()] reads, what [time.sleep] does, and what the
    service answers: [response.text], or [None] for a response that is
    itself falsy. *)
Variable clock : list effect -> spec_float.
Variable sleep : list effect -> spec_float -> py unit.
Variable service : list effect -> str -> py (option str).

Definition time_time : M spec_float :=
  fun s => (Return (clock (log s)), {| self := self s; log := log s ++ [TimeTime] |}).

Definition time_sleep (secs : spec_float) : M unit :=
  fun s => (sleep (log s) secs, {| self := self s; log := log s ++ [TimeSleep secs] |}).

Definition generate_content (prompt : str) : M (option str) :=
  fun s => (service (log s) prompt,
          {| self := self s; log := log s ++ [GenerateContent prompt] |}).

Definition get_self : M GeminiClient := fun s => (Return (self s), s).

Definition set_last_request_time (t : spec_float) : M unit :=
  fun s => (Return tt,
          {| self := {| rate_limit_delay := rate_limit_delay (self s);
                        last_request_time := t |};
             log := log s |}).

(** [_apply_rate_limit] *)
Definition _apply_rate_limit : M unit :=
  (current_time <- time_time ;;
   this <- get_self ;;
   let time_since_last_request :=
     SFsub PyFloat.prec PyFloat.emax current_time (last_request_time this) in
   (if SFltb time_since_last_request (rate_limit_delay this)
    then time_sleep (SFsub PyFloat.prec PyFloat.emax
                       (rate_limit_delay this) time_since_last_request)
    else ret tt) ;;
   now <- time_time ;;
   set_last_request_time now)%gemini.

(** [not text or len(text.strip()) == 0] *)
Definition nothing_to_summarize (text : option str) : bool :=
  match text with
  | None => true
  | Some [] => true
  | Some t => (len (strip t) =? 0)%Z
  end.

Definition indent : str := lit "            ".

Definition text_prompt (text : str) (max_sentences : Z) : str :=
  newline ++
  indent ++ lit "Please provide a concise summary of the following text in "
  ++ str_of_int max_sentences ++ lit " sentences or less. " ++ newline ++
  indent ++ lit "Focus on the main points and key information:" ++ newline ++
  newline ++
  indent ++ lit "Text to summarize:" ++ newline ++
  indent ++ text ++ newline ++
  newline ++
  indent ++ lit "Summary:" ++ newline ++
  indent.

(** [summarize_text(text, max_sentences=3)] *)
Definition summarize_text (text : option str) (max_sentences : Z) : M str :=
  if nothing_to_summarize text then ret (lit "No content to summarize.")
  else
    mtry
      (_apply_rate_limit ;;
       let prompt :=
         text_prompt (match text with Some t => t | None => [] end) max_sentences in
       response <- generate_content prompt ;;
       match response with
       | Some (c :: t) => ret (strip (c :: t))
       | _ => ret (lit "Unable to generate summary.")
       end)%gemini
      (fun e => ret (lit "Error generating summary: " ++ str_of_exn e)).

Definition article_prompt (title content author_text : str) : str :=
  newline ++
  indent ++ lit "Please provide a concise 3-sentence summary of this article:" ++ newline ++
  newline ++
  indent ++ lit "Title: " ++ title ++ author_text ++ newline ++
  indent ++ lit "Content: " ++ content ++ newline ++
  newline ++
  indent ++ lit "Focus on the main message, key points, and important details. "
  ++ lit "Make the summary informative and well-structured." ++ newline ++
  newline ++
  indent ++ lit "Summary:" ++ newline ++
  indent.

(** [summarize_article(title, content, author=None)] *)
Definition summarize_article (title : str) (content : option str)
           (author : option str) : M str :=
  if nothing_to_summarize content then ret (lit "No content to summarize.")
  else
    mtry
      (_apply_rate_limit ;;
       let author_text :=
         match author with
         | Some (c :: a) => lit " by " ++ c :: a
         | _ => []
         end in
       let prompt :=
         article_prompt title (match content with Some t => t | None => [] end)
                        author_text in
       response <- generate_content prompt ;;
       match response with
       | Some (c :: t) => ret (strip (c :: t))
       | _ => ret (lit "Unable to generate article summary.")
       end)%gemini
      (fun e => ret (lit "Error generating article summary: " ++ str_of_exn e)).

End WithWorld.

End Gemini.

(** ** app/gemini/client.py: the module global and the module function

    [_gemini_client] holds the one client object of the process; every
    caller reaches the client through it, so the fields of the client
    live in the global. *)

Module GeminiModule.
Import Gemini.

(** Raised by [GeminiClient()] when the key is missing or empty. *)
Definition ValueError : exn :=
  Exception (lit "ValueError") (lit "GEMINI_API_KEY environment variable is required").

Record module_state : Type :=
  { _gemini_client : option GeminiClient; effects : list effect }.

Section WithEnvironment.

(** [os.getenv] *)
Variable getenv : str -> option str.
Variable clock : list effect -> spec_float.
Variable sleep : list effect -> spec_float -> py unit.
Variable service : list effect -> str -> py (option str).

(** [GeminiClient.__init__]: [genai.configure] and the making of the
    model handle store what they are given. *)
Definition __init__ : py GeminiClient :=
  match getenv (lit "GEMINI_API_KEY") with
  | Some (_ :: _) => Return new_client
  | _ => Raise ValueError
  end.

(** [get_gemini_client()] *)
Definition get_gemini_client (g : module_state) : py GeminiClient * module_state :=
  match _gemini_client g with
  | Some client => (Return client, g)
  | None =>
      match __init__ with
      | Return client =>
          (Return client, {| _gemini_client := Some client; effects := effects g |})
      | Raise e => (Raise e, g)
      end
  end.

(** A method call on the client that [get_gemini_client] returned: it
    runs on the fields that the global holds and leaves them there. *)
Definition on_client {A : Type} (client : GeminiClient) (method : M A)
           (g : module_state) : py A * module_state :=
  let (r, s') := method {| self := client; log := effects g |} in
  (r, {| _gemini_client := Some (self s'); effects := log s' |}).

(** The module function [summarize_text(text)] *)
Definition summarize_text (text : option str) (g : module_state)
  : py str * module_state :=
  match get_gemini_client g with
  | (Return client, g') =>
      on_client client (Gemini.summarize_text clock sleep service text 3) g'
  | (Raise e, g') => (Raise e, g')
  end.

End WithEnvironment.

End GeminiModule.

(** ** app/api/routes.py: [scrape_and_summarize]

    The database session is outside the program: what [db.add],
    [db.commit] and [db.refresh] do for an article is recorded in a log
    of its own, and the id that the stored article gets, or the exception
    of the call that failed, is a function of that log. *)

Module Routes.
Import Soup Gemini GeminiModule.

(** The columns of [Article] that the handler sets. *)
Record Article : Type :=
  { title : str; author : str; content : str; summary : str; source_url : str }.

Record ScrapeResponse : Type :=
  { message : str; articles_processed : Z; article_ids : list Z }.

(** What a handler gives back: its return value, or the [HTTPException]
    it raises. *)
Inductive response (A : Type) : Type :=
  | Ok (body : A)
  | HTTPException (status_code : Z) (detail : str).

Arguments Ok {A} body.
Arguments HTTPException {A} status_code detail.

Inductive db_effect : Type :=
  | AddCommitRefresh (article : Article).

Record app_state : Type :=
  { gemini : module_state; db : list db_effect }.

(** The state of the loop: the client with the log of its effects, and
    the log of the session. *)
Definition loop_state : Type := (Gemini.state * list db_effect)%type.

Section WithServices.

Variable fetch : str -> py node.
Variable getenv : str -> option str.
Variable clock : list effect -> spec_float.
Variable sleep : list effect -> spec_float -> py unit.
Variable service : list effect -> str -> py (option str).

(** [db.add(article)], [db.commit()], [db.refresh(article)] and the read
    of [article.id]. *)
Variable add_commit_refresh : list db_effect -> Article -> py Z.

(** The body of the loop, inside its [try]: the id of the stored
    article.  [article_data] has all four keys, so no [get] falls back on
    its default. *)
Definition process (article_data : Scraper.article) (st : loop_state)
  : py Z * loop_state :=
  let preprocessed_content :=
    Preprocessor.preprocess_text (Some (Scraper.content article_data)) false in
  match summarize_article clock sleep service
          (Scraper.title article_data) (Some preprocessed_content)
          (Some (Scraper.author article_data)) (fst st) with
  | (Raise e, api) => (Raise e, (api, snd st))
  | (Return summary, api) =>
      let final_summary := Postprocessor.postprocess_summary summary 5 in
      let article :=
        {| title := Scraper.title article_data;
           author := Scraper.author article_data;
           content := Scraper.content article_data;
           summary := final_summary;
           source_url := Scraper.source_url article_data |} in
      (add_commit_refresh (snd st) article,
       (api, snd st ++ [AddCommitRefresh article]))
  end.

(** The loop: an article whose turn raises is passed over. *)
Fixpoint process_all (scraped_articles : list Scraper.article)
         (processed_article_ids : list Z) (st : loop_state)
  : list Z * loop_state :=
  match scraped_articles with
  | [] => (processed_article_ids, st)
  | article_data :: rest =>
      match process article_data st with
      | (Return id, st') => process_all rest (processed_article_ids ++ [id]) st'
      | (Raise _, st') => process_all rest processed_article_ids st'
      end
  end.

Definition internal_server_error {A : Type} (e : exn) : response A :=
  HTTPException 500 (lit "Internal server error: " ++ str_of_exn e).

(** [scrape_and_summarize(request, db)] with [request.url] and
    [request.limit]. *)
Definition scrape_and_summarize (url : str) (limit : Z) (w : app_state)
  : response ScrapeResponse * app_state :=
  match Scraper.scrape_articles fetch url limit with
  | Raise e => (internal_server_error e, w)
  | Return [] =>
      (HTTPException 404 (lit "No articles found at the provided URL"), w)
  | Return scraped_articles =>
      match get_gemini_client getenv (gemini w) with
      | (Raise e, g) => (internal_server_error e, {| gemini := g; db := db w |})
      | (Return gemini_client, g) =>
          let (processed_article_ids, st) :=
            process_all scraped_articles []
              ({| self := gemini_client; log := effects g |}, db w) in
          (Ok {| message := lit "Successfully processed "
                            ++ str_of_int (len processed_article_ids)
                            ++ lit " articles";
                 articles_processed := len processed_article_ids;
                 article_ids := processed_article_ids |},
           {| gemini := {| _gemini_client := Some (self (fst st));
                           effects := log (fst st) |};
              db := snd st |})
      end
  end.

(** The ids of the articles of [rows] that the session stores, when it
    is asked to store them one after the other. *)
Fixpoint stored_ids (session : list db_effect) (rows : list Article) : list Z :=
  match rows with
  | [] => []
  | article :: rest =>
      match add_commit_refresh session article with
      | Return id => [id]
      | Raise _ => []
      end ++ stored_ids (session ++ [AddCommitRefresh article]) rest
  end.

End WithServices.

(** The scraped record that an article was made from. *)
Definition scraped_from (article : Article) : Scraper.article :=
  {| Scraper.title := title article;
     Scraper.author := author article;
     Scraper.content := content article;
     Scraper.source_url := source_url article |}.

End Routes.

(** ** Vocabulary of the statements about the text pipeline *)

Module TextSpec.



(** Sentence-ending punctuation. *)
Definition sentence_end (c : ascii) : bool := one_of ".!?" c.

(** The class [A-Z] of the boundary pattern. *)
Definition capital (c : ascii) : bool := between "A" "Z" c.

(** Sentence boundaries, for a given reading of what an upper-case letter
    is. *)
Section Boundaries.

Variable upper : ascii -> bool.

(** [s] contains a sentence boundary: a sentence end, then whitespace,
    then an upper-case letter. *)
Definition has_boundary (s : str) : Prop :=
  exists a p ws u b,
    s = a ++ p :: ws ++ u :: b
    /\ sentence_end p = true
    /\ ws <> [] /\ forallb isspace ws = true
    /\ upper u = true.

(** [fragments s l]: [l] lists, in order, what is left of [s] when the
    whitespace of every sentence boundary is cut out. *)
Inductive fragments : str -> list str -> Prop :=
  | fragments_last s :
      ~ has_boundary s -> fragments s [s]
  | fragments_cut f p ws u rest l :
      ~ has_boundary (f ++ [p]) ->
      sentence_end p = true ->
      ws <> [] -> forallb isspace ws = true ->
      upper u = true ->
      fragments (u :: rest) l ->
      fragments ((f ++ [p]) ++ ws ++ u :: rest) ((f ++ [p]) :: l).

End Boundaries.

(** Trim every fragment and drop those shorter than 6 characters. *)
Definition long_enough (l : list str) : list str :=
  filter (fun s => (6 <=? len s)%Z) (map strip l).

End TextSpec.

(** ** Vocabulary of the statements about the scraper *)

Module ScraperSpec.
Import Soup Scraper.

(** The elements that the strategy chosen for [url] looks for in a
    document, before the cut at [limit]. *)
Definition matching_elements (url : str) (soup : node) : list path :=
  if contains (lit "quotes.toscrape.com") url
  then find_all (tag_with_class (lit "div") (lit "quote")) soup []
  else if contains (lit "news.ycombinator.com") url
       then find_all (tag_with_class (lit "tr") (lit "athing")) soup []
       else potential_articles soup.

End ScraperSpec.

(** ** Vocabulary of the statements about the generic strategy *)

Module GenericSpec.
Import Soup Scraper.






End GenericSpec.

(** ** Vocabulary of the statements about [extract] *)

Module TreeSpec.
Import Soup.



End TreeSpec.

(** ** Vocabulary of the statements about the gateway *)

Module GatewaySpec.

(** An absent, empty or whitespace-only body. *)
Definition blank (text : option str) : Prop :=
  match text with
  | None => True
  | Some t => forallb isspace t = true
  end.

Definition sentinel : str := lit "No content to summarize.".

End GatewaySpec.

(** ** Vocabulary of the statements about [limit_length] *)

Module LimitLengthSpec.
Import TextSpec.

(** [e] is the position of the rightmost sentence-ending punctuation
    among the first [n] characters of [text]. *)
Definition rightmost_end (text : str) (n e : Z) : Prop :=
  (0 <= e < n)%Z
  /\ (exists c, nth_error text (Z.to_nat e) = Some c /\ sentence_end c = true)
  /\ (forall j c, (e < j < n)%Z ->
                  nth_error text (Z.to_nat j) = Some c -> sentence_end c = false).

(** No sentence-ending punctuation among the first [n] characters. *)
Definition no_end (text : str) (n : Z) : Prop :=
  forall j c, (0 <= j < n)%Z ->
              nth_error text (Z.to_nat j) = Some c -> sentence_end c = false.

(** The test of the source, [e > max_chars * 0.7], in binary64. *)
Definition past_70_percent (e max_chars : Z) : bool :=
  match PyFloat.int_mul_float max_chars PyFloat.f0_7 with
  | Return threshold => PyFloat.int_gt_float e threshold
  | Raise _ => false
  end.

End LimitLengthSpec.

(** ** Functions and invariants used in the proofs *)

Module Invariants.
Import TextSpec.


(** The first character of a text, if any, is not whitespace. *)
Definition starts_solid (s : str) : Prop :=
  match s with
  | c :: _ => isspace c = false
  | [] => True
  end.


(** All 256 characters. *)
Definition all_chars : list ascii := map ascii_of_nat (seq 0 256).

(** The sentence boundary at a position, if there is one: the length of
    its whitespace.  [before] holds the text before the position, nearest
    character first, [s] the text from the position on. *)
Definition boundary_here (before s : str) : option nat :=
  match before with
  | p :: _ =>
      if sentence_end p
      then match run_length isspace s with
           | O => None
           | S n =>
               match nth_error s (S n) with
               | Some u => if capital u then Some (S n) else None
               | None => None
               end
           end
      else None
  | [] => None
  end.

(** While [split_sentences] collects a fragment ([cur], last character
    first) with [s] still to read: no boundary of the text read so far
    and [s] has its whitespace begin before the place where [s] begins. *)
Definition no_earlier_boundary (cur s : str) : Prop :=
  forall a p ws u b,
    rev cur ++ s = a ++ p :: ws ++ u :: b ->
    sentence_end p = true ->
    ws <> [] -> forallb isspace ws = true ->
    capital u = true ->
    length cur <= S (length a).

(** The rightmost index of [s] whose character satisfies [p]. *)
Fixpoint last_index (p : ascii -> bool) (s : str) : option nat :=
  match s with
  | [] => None
  | c :: rest =>
      match last_index p rest with
      | Some k => Some (S k)
      | None => if p c then Some 0 else None
      end
  end.


(** [rfind] as an optional index. *)
Definition index_or_minus1 (o : option nat) : Z :=
  match o with Some k => Z.of_nat k | None => (-1)%Z end.

End Invariants.

(** ** Documents and inputs used in the examples *)

Module Fixtures.
Import Soup Scraper Gemini.

(** An attached element with the given class attribute. *)
Definition elt (name cls : String.string) (contents : list node) : node :=
  Tag true (lit name) [(lit "class", lit cls)] contents.

(** An attached element without attributes. *)
Definition bare (name : String.string) (contents : list node) : node :=
  Tag true (lit name) [] contents.

Definition text (s : String.string) : node := NavigableString (lit s).

Definition document (contents : list node) : node :=
  Tag true (lit "[document]") [] contents.

(** A session that serves one document for every URL. *)
Definition serving (soup : node) (_ : str) : py node := Return soup.

Definition quotes_url : str := lit "http://quotes.toscrape.com/".
Definition blog_url : str := lit "http://blog.example.org/".

Definition good_quote : node :=
  elt "div" "quote"
    [elt "span" "text" [text "Know thyself."];
     elt "small" "author" [text "Socrates"];
     elt "a" "tag" [text "wisdom"]].

(** A quote container without the quote-text span. *)
Definition quote_without_text : node :=
  elt "div" "quote" [elt "small" "author" [text "Anonymous"]].

Definition good_quote_record : article :=
  {| title := lit "Quote by Socrates";
     author := lit "Socrates";
     content := lit "Know thyself." ++ newline ++ newline ++ lit "Tags: wisdom";
     source_url := quotes_url |}.

(** One container matched by both class searches, followed by a second
    container. *)
Definition double_match : node :=
  elt "div" "post article" [bare "h1" [text "Headline"]; text "Body."].

Definition blog_page : node :=
  document [double_match; elt "div" "article" [text "Second."]].

Definition double_match_record : article :=
  {| title := lit "Headline";
     author := lit "Unknown";
     content := lit "HeadlineBody.";
     source_url := blog_url |}.

(** A page without any article tag or post/article class. *)
Definition plain_page : node :=
  document [bare "p" [text "nothing here"]; elt "div" "sidebar" [text "links"]].

Definition three_quotes : node :=
  document [good_quote; good_quote; good_quote].

(** A sentence that opens with an accented capital, U+00C9. *)
Definition accented_text : str :=
  lit "Voila. " ++ ["201"%char] ++ lit "cole ouverte.".

(** A two-line summary, each line a bullet item. *)
Definition bullet_list : str :=
  lit "- First point is here." ++ newline ++ lit "- Second point is here.".

(** A world for the examples: the clock reads [0.0] at every call,
    [time.sleep] returns, the service fails. *)
Definition frozen_clock (_ : list effect) : spec_float := S754_zero false.
Definition sleep_ok (_ : list effect) (_ : spec_float) : py unit := Return tt.
Definition service_down (_ : list effect) (_ : str) : py (option str) :=
  Raise (Exception (lit "ConnectionError") (lit "unreachable")).

Definition fresh : state := {| self := new_client; log := [] |}.

End Fixtures.

(** ** Vocabulary of the statements about the text helpers *)

Module HelperSpec.

(** [s] holds a tag as [clean_html] looks for it: [<], one or more
    characters other than [>], then [>]. *)
Definition has_markup (s : str) : Prop :=
  exists a b c,
    s = a ++ "<"%char :: b ++ ">"%char :: c
    /\ b <> []
    /\ forallb (fun x => negb (Ascii.eqb x ">")) b = true.

(** A word of a text: not empty, no whitespace in it. *)
Definition solid (c : ascii) : bool := negb (isspace c).

Definition is_word (w : str) : bool :=
  match w with
  | [] => false
  | _ => forallb solid w
  end.

(** [c] occurs twice in a row in [s]. *)
Definition doubled (c : ascii) (s : str) : Prop :=
  exists a b, s = a ++ c :: c :: b.

(** How often [c] occurs in [s]. *)
Definition count (c : ascii) (s : str) : nat := count_occ ascii_dec s c.

End HelperSpec.

(** ** The passes of the text helpers as direct recursions *)

Module Passes.

(** One pass that puts a single space for every run of whitespace;
    [in_run] tells whether the character before was whitespace. *)
Fixpoint collapse (in_run : bool) (s : str) : str :=
  match s with
  | [] => []
  | c :: rest =>
      if isspace c
      then if in_run then collapse true rest else " "%char :: collapse true rest
      else c :: collapse false rest
  end.

(** Where a tag that opens at the head of [s] ends: the number of
    characters up to and including its [>]. *)
Definition tag_here (s : str) : option nat :=
  match s with
  | c :: rest =>
      if Ascii.eqb c "<"
      then match run_length (fun x => negb (Ascii.eqb x ">")) rest with
           | O => None
           | S n =>
               match nth_error rest (S n) with
               | Some _ => Some (S (S (S n)))
               | None => None
               end
           end
      else None
  | [] => None
  end.

(** No tag opens anywhere in [s]. *)
Fixpoint no_tag_opens (s : str) : bool :=
  match s with
  | [] => true
  | _ :: rest =>
      match tag_here s with
      | None => no_tag_opens rest
      | Some _ => false
      end
  end.

(** [c] does not occur in [s]. *)
Definition lacks (c : ascii) (s : str) : bool :=
  forallb (fun x => negb (Ascii.eqb x c)) s.



(** The text as [preprocess_text] has it after [text.lower()], before
    the stop words are looked at. *)
Definition lowered (text : str) : str :=
  lower
    (sub Preprocessor.special []
       (sub Preprocessor.whitespace [Text (lit " ")]
          (sub Preprocessor.email []
             (sub Preprocessor.url [] (sub Preprocessor.html_tag [] text))))).

(** [word not in STOPWORDS] *)
Definition not_stopword (word : str) : bool := negb (Preprocessor.is_stopword word).

(** A state that a match begun at [k] with group [g] has reached: [n]
    characters further on, its group still [g] or a piece of the [n]
    characters passed over. *)
Definition reached (k : cursor) (g : option str) (st : mstate) (n : nat) : Prop :=
  n <= length (ahead k)
  /\ ahead (fst st) = skipn n (ahead k)
  /\ (snd st = g
      \/ exists a b, snd st = Some (firstn a (skipn b (ahead k))) /\ a + b <= n).

(** [c] does not occur twice in a row in [s], as a test. *)
Fixpoint undoubled (c : ascii) (s : str) : bool :=
  match s with
  | x :: (y :: _) as rest =>
      (negb (Ascii.eqb x c && Ascii.eqb y c) && undoubled c rest)%bool
  | _ => true
  end.

(** [s] does not begin with [c]. *)
Definition not_first (c : ascii) (s : str) : Prop :=
  match s with
  | x :: _ => Ascii.eqb x c = false
  | [] => True
  end.

(** Where the pair of delimiters [d] that opens before [s] closes: the
    place of the first [d] in [s], with no newline before it. *)
Fixpoint close_at (d : ascii) (s : str) : option nat :=
  match s with
  | [] => None
  | c :: rest =>
      if Ascii.eqb c d then Some 0
      else if dot c then option_map S (close_at d rest)
           else None
  end.

(** [d(.*?)d] for a delimiter [d]: the patterns [italic] and [code]. *)
Definition delimited (d : ascii) : regex :=
  Cat (Chr d) (Cat (Group (LazyStar (Chars dot))) (Chr d)).

(** A sentence as [postprocess_summary] keeps it: not empty, no
    whitespace at either end, no sentence boundary inside. *)
Definition kept_sentence (s : str) : Prop :=
  s <> [] /\ Invariants.starts_solid s /\ Invariants.starts_solid (rev s)
  /\ ~ TextSpec.has_boundary TextSpec.capital s.

(** Two texts with a space between them meet at a sentence boundary: the
    first ends a sentence and the second opens with a capital letter. *)
Definition joint (x y : str) : bool :=
  match rev x, y with
  | p :: _, u :: _ => (TextSpec.sentence_end p && TextSpec.capital u)%bool
  | _, _ => false
  end.

(** The tokens of [str.split] when the word being read, [word] (last
    character first), is closed before [tokens]. *)
Definition after_word (word : str) (tokens : list str) : list str :=
  match word with
  | [] => tokens
  | _ => rev word :: tokens
  end.

End Passes.

(** ** More documents for the examples *)

Module Pages.
Import Soup Scraper Fixtures.

Definition news_url : str := lit "https://news.ycombinator.com/".

(** A story row of Hacker News and the row under it. *)
Definition story_row (title href : String.string) : node :=
  elt "tr" "athing"
    [bare "td"
       [elt "span" "titleline"
          [Tag true (lit "a") [(lit "href", lit href)] [text title]]]].

Definition subtext_row (user : String.string) : node :=
  bare "tr" [bare "td" [elt "a" "hnuser" [text user]]].

(** A story row without the title span. *)
Definition row_without_title : node :=
  elt "tr" "athing" [bare "td" [text "no title here"]].

Definition news_page : node :=
  document
    [bare "table"
       [row_without_title;
        story_row " A story " "http://a.example/";
        subtext_row "alice"]].

Definition story_record : article :=
  {| title := lit "A story";
     author := lit "alice";
     content := lit "Title: A story" ++ newline ++ lit "Link: http://a.example/";
     source_url := news_url |}.

(** A page with a malformed quote container after a well-formed one. *)
Definition mixed_quotes : node := document [good_quote; quote_without_text].

(** A container with a script and a style element inside. *)
Definition scripted_article : node :=
  bare "article"
    [text " Intro ";
     bare "script" [text "track();"; bare "style" [text "x"]];
     bare "p" [text "Body"];
     bare "style" [text "p {}"]].

Definition scripted_page : node := document [scripted_article].

End Pages.

(** * Properties *)

Import Preprocessor Postprocessor Invariants.

(** ** Lists and strings *)

Section StrFacts.

Lemma len_app {A} (s t : list A) : len (s ++ t) = (len s + len t)%Z.
Proof. unfold len; rewrite length_app; lia. Qed.

Lemma len_firstn {A} (s : list A) (n : nat) : len (firstn n s) = Z.min (Z.of_nat n) (len s).
Proof. unfold len; rewrite length_firstn; lia. Qed.

Lemma slice_to_nonneg {A} (s : list A) (n : Z) :
  (0 <= n)%Z -> slice_to s n = firstn (Z.to_nat n) s.
Proof.
  intros Hn; unfold slice_to.
  destruct (Z.ltb_spec n 0); [lia | reflexivity].
Qed.

End StrFacts.

(** ** Characters *)

Section Characters.
Import TextSpec.

Lemma forall_chars (f : ascii -> bool) :
  forallb f all_chars = true -> forall c, f c = true.
Proof.
  intros H c; rewrite forallb_forall in H; apply H.
  rewrite <- (ascii_nat_embedding c); unfold all_chars.
  apply in_map, in_seq; pose proof (nat_ascii_bounded c); lia.
Qed.


(** Whitespace is neither a sentence end nor a capital letter. *)
Lemma isspace_not_capital (c : ascii) : isspace c = true -> capital c = false.
Proof.
  pose proof (forall_chars
    (fun c => implb (isspace c) (negb (capital c))) ltac:(vm_compute; reflexivity) c) as H.
  cbv beta in H; destruct (isspace c); [intros _|discriminate].
  destruct (capital c); [discriminate | reflexivity].
Qed.

Lemma isspace_not_sentence_end (c : ascii) : isspace c = true -> sentence_end c = false.
Proof.
  pose proof (forall_chars
    (fun c => implb (isspace c) (negb (sentence_end c))) ltac:(vm_compute; reflexivity) c) as H.
  cbv beta in H; destruct (isspace c); [intros _|discriminate].
  destruct (sentence_end c); [discriminate | reflexivity].
Qed.

End Characters.

(** ** [str.rfind] *)

Section Rfind.
Import TextSpec LimitLengthSpec.

Lemma rfind_from_last_index (c : ascii) (s : str) :
  forall i found,
    rfind_from c s i found =
    match last_index (fun x => Ascii.eqb x c) s with
    | Some k => (i + Z.of_nat k)%Z
    | None => found
    end.
Proof.
  induction s as [|x rest IH]; intros i found; simpl; [reflexivity|].
  rewrite IH.
  destruct (last_index _ rest) as [k|].
  - lia.
  - destruct (Ascii.eqb x c); [lia | reflexivity].
Qed.

Lemma rfind_last_index (s : str) (c : ascii) :
  rfind s c = index_or_minus1 (last_index (fun x => Ascii.eqb x c) s).
Proof.
  unfold rfind; rewrite rfind_from_last_index.
  destruct (last_index _ s); reflexivity.
Qed.

Lemma last_index_or (p q : ascii -> bool) (s : str) :
  index_or_minus1 (last_index (fun x => p x || q x)%bool s) =
  Z.max (index_or_minus1 (last_index p s)) (index_or_minus1 (last_index q s)).
Proof.
  induction s as [|x rest IH]; simpl; [reflexivity|].
  destruct (last_index (fun x => p x || q x)%bool rest) as [k|],
           (last_index p rest) as [kp|], (last_index q rest) as [kq|];
    simpl in *; try lia;
    destruct (p x), (q x); simpl; lia.
Qed.

Lemma last_index_ext (p q : ascii -> bool) (s : str) :
  (forall c, p c = q c) -> last_index p s = last_index q s.
Proof.
  intros E; induction s as [|x rest IH]; simpl; [reflexivity|].
  rewrite IH, E; reflexivity.
Qed.

(** The maximum of the three [rfind]s is the last sentence end. *)
Lemma max_rfind_last_end (s : str) :
  Z.max (Z.max (rfind s ".") (rfind s "!")) (rfind s "?") =
  index_or_minus1 (last_index sentence_end s).
Proof.
  rewrite !rfind_last_index, <- !last_index_or.
  f_equal; apply last_index_ext; intros c.
  unfold sentence_end, one_of; simpl.
  rewrite !(Ascii.eqb_sym c), orb_false_r, orb_assoc; reflexivity.
Qed.

Lemma last_index_none (p : ascii -> bool) (s : str) :
  last_index p s = None ->
  forall j c, nth_error s j = Some c -> p c = false.
Proof.
  induction s as [|x rest IH]; simpl; intros E j c Hn.
  - destruct j; discriminate.
  - destruct (last_index p rest); [discriminate|].
    destruct (p x) eqn:Px; [discriminate|].
    destruct j as [|j]; simpl in Hn.
    + injection Hn as <-; exact Px.
    + eapply IH; eauto.
Qed.

Lemma last_index_some (p : ascii -> bool) (s : str) (k : nat) :
  last_index p s = Some k ->
  (exists c, nth_error s k = Some c /\ p c = true)
  /\ (forall j c, k < j -> nth_error s j = Some c -> p c = false).
Proof.
  revert k; induction s as [|x rest IH]; intros k; simpl; [discriminate|].
  destruct (last_index p rest) as [k'|] eqn:E.
  - intros [= <-]; destruct (IH k' eq_refl) as [Hc Hlater]; split.
    + exact Hc.
    + intros [|j] c Hj; [lia|]; simpl; apply Hlater; lia.
  - destruct (p x) eqn:Px; [|discriminate].
    intros [= <-]; split.
    + exists x; auto.
    + intros [|j] c Hj; [lia|]; simpl.
      apply (last_index_none _ _ E).
Qed.

Lemma last_index_lt (p : ascii -> bool) (s : str) (k : nat) :
  last_index p s = Some k -> k < length s.
Proof.
  intros E; destruct (last_index_some _ _ _ E) as [[c [Hc _]] _].
  apply nth_error_Some; congruence.
Qed.

End Rfind.

(** ** binary64: the product [max_chars * 0.7] *)

Section Binary64.
Import PyFloat.

Lemma iter_pos_invariant {A : Type} (f : A -> A) (P : A -> Prop) :
  (forall x, P x -> P (f x)) -> forall n x, P x -> P (iter_pos f n x).
Proof. intros Hf; induction n; simpl; auto. Qed.

Lemma shr_1_bound (mrs : shr_record) (m : Z) :
  (0 <= shr_m mrs <= m)%Z -> (0 <= shr_m (shr_1 mrs) <= m)%Z.
Proof. destruct mrs as [[|[p|p|]|[p|p|]] r s]; simpl; lia. Qed.

Lemma shr_fexp_bound (m e : Z) (l : location) :
  (0 <= m)%Z ->
  (0 <= shr_m (fst (shr_fexp prec emax m e l)) <= m)%Z
  /\ (snd (shr_fexp prec emax m e l) <= Z.max e (fexp prec emax (Zdigits2 m + e)))%Z.
Proof.
  intros Hm; unfold shr_fexp, shr.
  assert (H0 : (0 <= shr_m (shr_record_of_loc m l) <= m)%Z)
    by (destruct l as [|[]]; simpl; lia).
  destruct (fexp prec emax (Zdigits2 m + e) - e)%Z eqn:E; simpl; try (split; [exact H0 | lia]).
  split; [|lia].
  apply iter_pos_invariant with (P := fun r => (0 <= shr_m r <= m)%Z); auto.
  intros x; apply shr_1_bound.
Qed.

Lemma digits2_pos_size (p : positive) : digits2_pos p = Pos.size p.
Proof. induction p; simpl; congruence. Qed.

Lemma Zdigits2_bound (m k : Z) :
  (0 <= k)%Z -> (0 <= m < 2 ^ k)%Z -> (0 <= Zdigits2 m <= k)%Z.
Proof.
  intros Hk [Hm Hlt]; destruct m as [|p|p]; simpl; try lia.
  rewrite digits2_pos_size; split; [lia|].
  destruct (Z.le_gt_cases (Z.pos (Pos.size p)) k) as [|Hgt]; [assumption|exfalso].
  pose proof (Pos.size_le p) as Hs.
  assert (Hs' : (2 ^ Z.pos (Pos.size p) <= 2 * Z.pos p)%Z).
  { change 2%Z with (Z.pos 2); rewrite <- Pos2Z.inj_pow.
    change (Z.pos 2 * Z.pos p)%Z with (Z.pos p~0); apply Pos2Z.pos_le_pos, Hs. }
  assert (Hp : (2 ^ (k + 1) <= 2 ^ Z.pos (Pos.size p))%Z)
    by (apply Z.pow_le_mono_r; lia).
  rewrite Z.pow_add_r in Hp by lia; lia.
Qed.

Lemma binary_round_aux_nonneg (mx ex : Z) (lx : location) :
  nonneg_float (binary_round_aux prec emax false mx ex lx).
Proof.
  unfold binary_round_aux.
  destruct (shr_fexp prec emax mx ex lx) as [mrs' e'].
  destruct (shr_fexp prec emax _ e' loc_Exact) as [mrs'' e''].
  destruct (shr_m mrs''); simpl; auto;
    destruct (_ <=? _)%Z; simpl; auto.
Qed.

Lemma round_nearest_even_bound (m : Z) (l : location) :
  (0 <= m)%Z -> (0 <= round_nearest_even m l <= m + 1)%Z.
Proof.
  intros; unfold round_nearest_even.
  destruct l as [|[]]; try lia. destruct (Z.even m); lia.
Qed.

(** A mantissa below 2^115 with a non-positive exponent rounds to a
    finite double. *)
Lemma binary_round_aux_no_overflow (s : bool) (mx ex : Z) :
  (0 <= mx < 2 ^ 115)%Z -> (ex <= 0)%Z ->
  forall s', binary_round_aux prec emax s mx ex loc_Exact <> S754_infinity s'.
Proof.
  intros Hmx Hex s'; unfold binary_round_aux.
  pose proof (shr_fexp_bound mx ex loc_Exact (proj1 Hmx)) as [Hm1 He1].
  pose proof (Zdigits2_bound mx 115 ltac:(lia) Hmx) as Hd1.
  destruct (shr_fexp prec emax mx ex loc_Exact) as [mrs' e']; simpl in Hm1, He1.
  pose proof (round_nearest_even_bound _ (loc_of_shr_record mrs') (proj1 Hm1)) as Hr.
  set (m1 := round_nearest_even (shr_m mrs') (loc_of_shr_record mrs')) in *.
  pose proof (shr_fexp_bound m1 e' loc_Exact (proj1 Hr)) as [Hm2 He2].
  assert (Hm1' : (0 <= m1 < 2 ^ 116)%Z).
  { change (2 ^ 116)%Z with (2 * 2 ^ 115)%Z; lia. }
  pose proof (Zdigits2_bound m1 116 ltac:(lia) Hm1') as Hd2.
  destruct (shr_fexp prec emax m1 e' loc_Exact) as [mrs'' e'']; simpl in Hm2, He2.
  unfold fexp, emin, prec, emax in *.
  destruct (shr_m mrs''); try discriminate.
  destruct (Z.leb_spec e'' (1024 - 53)); [discriminate | lia].
Qed.

Lemma float_of_int_ok (n : Z) :
  (0 <= n <= PY_SSIZE_T_MAX)%Z ->
  exists f, float_of_int n = Return f /\ nonneg_float f
            /\ forall s, f <> S754_infinity s.
Proof.
  intros [H0 Hmax]; unfold float_of_int, binary_normalize.
  destruct n as [|p|p]; [eexists; repeat split; discriminate | | lia].
  assert (Hfin : forall s, binary_round prec emax false p 0 <> S754_infinity s).
  { intros s; unfold binary_round, shl_align.
    assert (Hp : (0 <= Z.pos p < 2 ^ 63)%Z) by (unfold PY_SSIZE_T_MAX in Hmax; lia).
    pose proof (Zdigits2_bound (Z.pos p) 63 ltac:(lia) Hp) as Hd.
    simpl Zdigits2 in Hd.
    unfold fexp, emin, prec, emax.
    destruct (Z.max (Z.pos (digits2_pos p) + 0 - 53) (3 - 1024 - 53) - 0)%Z
      as [|d|d] eqn:E;
      try (apply binary_round_aux_no_overflow;
           [change (2 ^ 115)%Z with (2 ^ 63 * 2 ^ 52)%Z; lia | lia]).
    apply binary_round_aux_no_overflow; [|lia].
    rewrite (Pos.iter_swap_gen _ _ Z.pos xO (Z.mul 2)) by reflexivity.
    assert (Hd52 : (Z.pos d <= 52)%Z) by lia.
    assert (Hdbl : forall k x, (Pos.iter (Z.mul 2) x k = x * 2 ^ Z.pos k)%Z).
    { intros k x; rewrite <- Z.shiftl_mul_pow2 by lia. reflexivity. }
    rewrite Hdbl; split; [lia|].
    assert ((2 ^ Z.pos d <= 2 ^ 52)%Z) by (apply Z.pow_le_mono_r; lia).
    change (2 ^ 115)%Z with (2 ^ 63 * 2 ^ 52)%Z.
    apply Z.le_lt_trans with (Z.pos p * 2 ^ 52)%Z;
      [apply Z.mul_le_mono_nonneg_l; lia | apply Z.mul_lt_mono_pos_r; lia]. }
  pose proof (binary_round_aux_nonneg) as Hs.
  assert (Hnn : nonneg_float (binary_round prec emax false p 0)).
  { unfold binary_round. destruct (shl_align _ _ _); apply Hs. }
  destruct (binary_round prec emax false p 0) eqn:E;
    try (eexists; split; [reflexivity | split; [exact Hnn | exact Hfin]]).
  exfalso; exact (Hfin s eq_refl).
Qed.

End Binary64.

Section Threshold.
Import PyFloat TextSpec LimitLengthSpec.

Lemma int_mul_float_ok (n : Z) :
  (0 <= n <= PY_SSIZE_T_MAX)%Z ->
  exists t, int_mul_float n f0_7 = Return t /\ nonneg_float t.
Proof.
  intros Hn; destruct (float_of_int_ok n Hn) as [f [Ef [Hf Hinf]]].
  unfold int_mul_float; rewrite Ef; simpl.
  eexists; split; [reflexivity|].
  destruct f as [s|s| |s m e]; simpl in *; subst; simpl; auto.
  apply binary_round_aux_nonneg.
Qed.

Lemma int_gt_nonneg_float (n : Z) (f : spec_float) :
  nonneg_float f -> int_gt_float n f = true -> (0 < n)%Z.
Proof.
  destruct f as [s|s| |s m e]; simpl; intros Hs H; subst; try discriminate.
  - apply Z.ltb_lt in H; exact H.
  - destruct (Z.leb_spec 0 e).
    + apply Z.ltb_lt in H.
      assert (0 < 2 ^ e)%Z by (apply Z.pow_pos_nonneg; lia). nia.
    + apply Z.ltb_lt in H.
      assert (0 < 2 ^ (- e))%Z by (apply Z.pow_pos_nonneg; lia). nia.
Qed.

(** With the default bound the test is [e > 350]. *)
Lemma past_70_percent_500 (e : Z) : past_70_percent e 500 = (350 <? e)%Z.
Proof.
  unfold past_70_percent.
  change (int_mul_float 500 f0_7) with (Return (S754_finite false 6157265115545600 (-44))).
  unfold int_gt_float.
  change (0 <=? -44)%Z with false; cbv iota.
  change (2 ^ (- -44))%Z with 17592186044416%Z.
  destruct (Z.ltb_spec 6157265115545600 (e * 17592186044416)),
           (Z.ltb_spec 350 e); lia.
Qed.

(** Rounding can put the product below the exact 70 percent: position
    63 passes the test for a bound of 90. *)
Example past_70_percent_90 :
  past_70_percent 63 90 = true /\ (10 * 63 = 7 * 90)%Z.
Proof. split; reflexivity. Qed.

Lemma rightmost_end_last_index (text : str) (n e : Z) :
  rightmost_end text n e ->
  last_index sentence_end (firstn (Z.to_nat n) text) = Some (Z.to_nat e).
Proof.
  intros [He [[c [Hc Pc]] Hlater]].
  destruct (last_index sentence_end (firstn (Z.to_nat n) text)) as [k|] eqn:E.
  - destruct (last_index_some _ _ _ E) as [[c' [Hc' Pc']] Hk].
    rewrite nth_error_firstn in Hc'.
    destruct (Nat.ltb_spec k (Z.to_nat n)); [|discriminate].
    destruct (Nat.lt_trichotomy k (Z.to_nat e)) as [Hlt|[->|Hgt]]; [| reflexivity |].
    + specialize (Hk (Z.to_nat e) c Hlt).
      rewrite nth_error_firstn in Hk.
      destruct (Nat.ltb_spec (Z.to_nat e) (Z.to_nat n)); [|lia].
      rewrite (Hk Hc) in Pc; discriminate.
    + specialize (Hlater (Z.of_nat k) c' ltac:(lia)).
      rewrite Nat2Z.id in Hlater.
      rewrite (Hlater Hc') in Pc'; discriminate.
  - pose proof (last_index_none _ _ E (Z.to_nat e) c) as Hn.
    rewrite nth_error_firstn in Hn.
    destruct (Nat.ltb_spec (Z.to_nat e) (Z.to_nat n)); [|lia].
    rewrite (Hn Hc) in Pc; discriminate.
Qed.

Lemma no_end_last_index (text : str) (n : Z) :
  no_end text n ->
  last_index sentence_end (firstn (Z.to_nat n) text) = None.
Proof.
  intros Hno.
  destruct (last_index sentence_end (firstn (Z.to_nat n) text)) as [k|] eqn:E;
    [|reflexivity].
  destruct (last_index_some _ _ _ E) as [[c [Hc Pc]] _].
  rewrite nth_error_firstn in Hc.
  destruct (Nat.ltb_spec k (Z.to_nat n)); [|discriminate].
  specialize (Hno (Z.of_nat k) c ltac:(lia)).
  rewrite Nat2Z.id in Hno. rewrite (Hno Hc) in Pc; discriminate.
Qed.

End Threshold.

(** ** [limit_length] *)

Section LimitLengthFacts.
Import PyFloat TextSpec LimitLengthSpec.

(** C4, as stated, fails for a negative bound: [text[:-1]] drops one
    character, no sentence end is found, and the result ["ab..."] has 5
    characters where the bound plus three is 2. *)
Lemma limit_length_negative_bound :
  ~ (forall (text : str) (max_chars : Z) (r : str),
        (max_chars < len text)%Z ->
        limit_length text max_chars = Return r ->
        (len r <= max_chars + 3)%Z).
Proof.
  intros H.
  specialize (H (lit "abc") (-1)%Z (lit "ab...") ltac:(vm_compute; reflexivity) eq_refl).
  vm_compute in H; apply H; reflexivity.
Qed.

(** C4 (amended).  For a bound [max_chars >= 0] and a text no longer
    than [sys.maxsize], [limit_length] returns; a text that fits is
    returned unchanged; a longer one gives at most [max_chars + 3]
    characters: the prefix ending at the rightmost sentence end of the
    first [max_chars] characters when that position passes the test
    [e > max_chars * 0.7], and otherwise (the test fails, or there is no
    sentence end) the first [max_chars] characters followed by
    three dots. *)
Theorem limit_length_spec (text : str) (max_chars : Z) :
  (0 <= max_chars)%Z ->
  (len text <= PY_SSIZE_T_MAX)%Z ->
  exists r,
    limit_length text max_chars = Return r
    /\ ((len text <= max_chars)%Z -> r = text)
    /\ ((max_chars < len text)%Z ->
        (len r <= max_chars + 3)%Z
        /\ (forall e, rightmost_end text max_chars e ->
                      past_70_percent e max_chars = true ->
                      r = firstn (Z.to_nat (e + 1)) text)
        /\ (forall e, rightmost_end text max_chars e ->
                      past_70_percent e max_chars = false ->
                      r = firstn (Z.to_nat max_chars) text ++ lit "...")
        /\ (no_end text max_chars ->
            r = firstn (Z.to_nat max_chars) text ++ lit "...")).
Proof.
  intros H0 Hmax; unfold limit_length.
  destruct (Z.leb_spec (len text) max_chars) as [Hfit|Hlong].
  { exists text; split; [reflexivity|]; split; [reflexivity | lia]. }
  destruct (int_mul_float_ok max_chars ltac:(lia)) as [t [Et Ht]].
  rewrite Et; simpl bind.
  rewrite slice_to_nonneg by assumption.
  rewrite max_rfind_last_end.
  set (truncated := firstn (Z.to_nat max_chars) text).
  assert (Hpast : forall e, past_70_percent e max_chars = int_gt_float e t)
    by (intros e; unfold past_70_percent; rewrite Et; reflexivity).
  destruct (last_index sentence_end truncated) as [k|] eqn:Ek; simpl index_or_minus1.
  - pose proof (last_index_lt _ _ _ Ek) as Hk.
    assert (Hlen : length truncated = Z.to_nat max_chars).
    { unfold truncated; apply firstn_length_le; unfold len in Hlong; lia. }
    assert (Huniq : forall e, rightmost_end text max_chars e -> e = Z.of_nat k).
    { intros e He; pose proof He as [Hb _].
      apply rightmost_end_last_index in He.
      fold truncated in He; rewrite Ek in He; injection He as He; lia. }
    destruct (int_gt_float (Z.of_nat k) t) eqn:Egt.
    + rewrite slice_to_nonneg by lia.
      eexists; split; [reflexivity|]; split; [lia|]; intros _.
      split; [rewrite len_firstn; lia|]; split; [|split].
      * intros e He _; rewrite (Huniq e He); reflexivity.
      * intros e He Hf; rewrite (Huniq e He), Hpast in Hf; congruence.
      * intros Hno; apply no_end_last_index in Hno.
        fold truncated in Hno; congruence.
    + eexists; split; [reflexivity|]; split; [lia|]; intros _.
      split; [rewrite len_app; unfold len; rewrite Hlen; simpl; lia|].
      split; [|split]; auto.
      intros e He Ht'; rewrite (Huniq e He), Hpast in Ht'; congruence.
  - destruct (int_gt_float (-1) t) eqn:Egt.
    { apply (int_gt_nonneg_float _ _ Ht) in Egt; lia. }
    assert (Hlen : length truncated = Z.to_nat max_chars).
    { unfold truncated; apply firstn_length_le; unfold len in Hlong; lia. }
    eexists; split; [reflexivity|]; split; [lia|]; intros _.
    split; [rewrite len_app; unfold len; rewrite Hlen; simpl; lia|].
    split; [|split]; auto.
    intros e He; apply rightmost_end_last_index in He.
    fold truncated in He; congruence.
Qed.

Lemma limit_length_spec_witness :
  exists r,
    limit_length (lit "One. Two! Three and more") 11 = Return r
    /\ ((len (lit "One. Two! Three and more") <= 11)%Z ->
        r = lit "One. Two! Three and more")
    /\ ((11 < len (lit "One. Two! Three and more"))%Z ->
        (len r <= 11 + 3)%Z
        /\ (forall e, rightmost_end (lit "One. Two! Three and more") 11 e ->
                      past_70_percent e 11 = true ->
                      r = firstn (Z.to_nat (e + 1)) (lit "One. Two! Three and more"))
        /\ (forall e, rightmost_end (lit "One. Two! Three and more") 11 e ->
                      past_70_percent e 11 = false ->
                      r = firstn (Z.to_nat 11) (lit "One. Two! Three and more") ++ lit "...")
        /\ (no_end (lit "One. Two! Three and more") 11 ->
            r = firstn (Z.to_nat 11) (lit "One. Two! Three and more") ++ lit "...")).
Proof.
  apply (limit_length_spec (lit "One. Two! Three and more") 11).
  - lia.
  - vm_compute; discriminate.
Defined.

Example limit_length_cut_at_sentence :
  limit_length (lit "One. Two! Three and more") 11 = Return (lit "One. Two!").
Proof. reflexivity. Qed.

End LimitLengthFacts.

(** ** The summarization gateway *)

Section Gateway.
Import Gemini GatewaySpec.

Variable clock : list effect -> spec_float.
Variable sleep : list effect -> spec_float -> py unit.
Variable service : list effect -> str -> py (option str).

Lemma dropwhile_all (p : ascii -> bool) (s : str) :
  forallb p s = true -> dropwhile p s = [].
Proof.
  induction s as [|c rest IH]; simpl; [reflexivity|].
  destruct (p c); simpl; [exact IH | discriminate].
Qed.

Lemma strip_blank (s : str) : forallb isspace s = true -> strip s = [].
Proof.
  intros H; unfold strip, lstrip, rstrip.
  rewrite (dropwhile_all _ _ H); reflexivity.
Qed.

Lemma blank_nothing_to_summarize (text : option str) :
  blank text -> nothing_to_summarize text = true.
Proof.
  destruct text as [[|c t]|]; simpl; auto.
  intros H; change (forallb isspace (c :: t) = true) in H.
  rewrite (strip_blank _ H); reflexivity.
Qed.

(** A [try] whose handler returns never raises. *)
Lemma mtry_returns {A : Type} (body : M A) (handler : exn -> A) (s : state) :
  exists a s', mtry body (fun e => ret (handler e)) s = (Return a, s').
Proof.
  unfold mtry; destruct (body s) as [[a|e] s']; eauto.
  unfold ret; eauto.
Qed.

Lemma summarize_text_returns (text : option str) (max_sentences : Z) (s : state) :
  exists r s', summarize_text clock sleep service text max_sentences s = (Return r, s').
Proof.
  unfold summarize_text.
  destruct (nothing_to_summarize text); [unfold ret; eauto|].
  apply mtry_returns with
    (handler := fun e => lit "Error generating summary: " ++ str_of_exn e).
Qed.

Lemma summarize_article_returns (title : str) (content author : option str) (s : state) :
  exists r s', summarize_article clock sleep service title content author s = (Return r, s').
Proof.
  unfold summarize_article.
  destruct (nothing_to_summarize content); [unfold ret; eauto|].
  apply mtry_returns with
    (handler := fun e => lit "Error generating article summary: " ++ str_of_exn e).
Qed.

(** The limiter reads the clock, asks for a sleep of what is missing to
    the delay when less than the delay has passed since the stored
    reading, reads the clock again and stores that reading.  All of it
    happens before the request is made, whatever the request then does. *)
Lemma apply_rate_limit_effects (s : state) :
  let elapsed :=
    SFsub PyFloat.prec PyFloat.emax (clock (log s)) (last_request_time (self s)) in
  let pause :=
    SFsub PyFloat.prec PyFloat.emax (rate_limit_delay (self s)) elapsed in
  SFltb elapsed (rate_limit_delay (self s)) = false ->
  _apply_rate_limit clock sleep s
  = (Return tt,
     {| self := {| rate_limit_delay := rate_limit_delay (self s);
                   last_request_time := clock (log s ++ [TimeTime]) |};
        log := log s ++ [TimeTime; TimeTime] |}).
Proof.
  intros elapsed pause Hlate.
  unfold _apply_rate_limit, mbind, time_time, get_self, set_last_request_time, ret.
  cbn [self log]; fold elapsed; rewrite Hlate; cbn [self log].
  rewrite <- app_assoc; reflexivity.
Qed.

Lemma apply_rate_limit_sleeps (s : state) :
  let elapsed :=
    SFsub PyFloat.prec PyFloat.emax (clock (log s)) (last_request_time (self s)) in
  let pause :=
    SFsub PyFloat.prec PyFloat.emax (rate_limit_delay (self s)) elapsed in
  SFltb elapsed (rate_limit_delay (self s)) = true ->
  sleep (log s ++ [TimeTime]) pause = Return tt ->
  _apply_rate_limit clock sleep s
  = (Return tt,
     {| self := {| rate_limit_delay := rate_limit_delay (self s);
                   last_request_time := clock (log s ++ [TimeTime; TimeSleep pause]) |};
        log := log s ++ [TimeTime; TimeSleep pause; TimeTime] |}).
Proof.
  intros elapsed pause Hearly Hsleep.
  unfold _apply_rate_limit, mbind, time_time, time_sleep, get_self,
    set_last_request_time, ret.
  cbn [self log]; fold elapsed; rewrite Hearly; fold pause.
  cbn [self log]; rewrite Hsleep; cbn [self log].
  rewrite <- !app_assoc; reflexivity.
Qed.

(** C9.  On an absent, empty or whitespace-only body both entry points
    return the sentinel and leave the state as it was: nothing is added
    to the log (no clock read, no sleep, no request to the service) and
    [last_request_time] keeps its value.  On every input, whatever the
    clock, [time.sleep] and the service do, both entry points return a
    string and do not raise. *)
Theorem gateway_blank_body
        (title : str) (body author : option str) (max_sentences : Z) (s : state) :
  (blank body ->
   summarize_text clock sleep service body max_sentences s = (Return sentinel, s)
   /\ summarize_article clock sleep service title body author s = (Return sentinel, s))
  /\ (exists r s',
         summarize_text clock sleep service body max_sentences s = (Return r, s'))
  /\ (exists r s',
         summarize_article clock sleep service title body author s = (Return r, s')).
Proof.
  split; [|split].
  - intros Hb; unfold summarize_text, summarize_article.
    rewrite (blank_nothing_to_summarize _ Hb); split; reflexivity.
  - apply summarize_text_returns.
  - apply summarize_article_returns.
Qed.

End Gateway.

Section GatewayExamples.
Import Gemini GatewaySpec Fixtures.

Lemma gateway_blank_body_witness :
  blank (Some (lit "   ")) /\
  summarize_text frozen_clock sleep_ok service_down (Some (lit "   ")) 3 fresh
  = (Return sentinel, fresh).
Proof.
  split; [reflexivity|].
  apply (gateway_blank_body frozen_clock sleep_ok service_down
           (lit "t") (Some (lit "   ")) None 3 fresh).
  reflexivity.
Defined.

(** A failing service is reported in the returned string; the limiter
    ran first: it read the clock, slept one second, read the clock again
    and stored the reading. *)
Example summarize_text_service_down :
  summarize_text frozen_clock sleep_ok service_down (Some (lit "abc")) 3 fresh
  = (Return (lit "Error generating summary: unreachable"),
     {| self := new_client;
        log := [TimeTime; TimeSleep f1_0; TimeTime;
                GenerateContent (text_prompt (lit "abc") 3)] |}).
Proof. reflexivity. Qed.

End GatewayExamples.

(** ** The quote strategy *)

Section QuoteStrategy.
Import Soup Scraper Fixtures.

(** C1 fails on the code.  With one well-formed quote container the
    strategy returns its record; put a container without the quote-text
    span after it and the whole call returns the empty list: the
    [AttributeError] of [None.get_text()] leaves the loop and is caught
    only in [scrape_articles]. *)
Theorem quotes_missing_span_aborts :
  scrape_articles (serving (document [good_quote])) quotes_url 5
  = Return [good_quote_record]
  /\ scrape_articles (serving (document [good_quote; quote_without_text])) quotes_url 5
     = Return []
  /\ _scrape_quotes_to_scrape (serving (document [good_quote; quote_without_text]))
       quotes_url 5
     = Raise AttributeError.
Proof. repeat split; reflexivity. Qed.

End QuoteStrategy.

(** ** Bullet markers in [postprocess_summary] *)

Section BulletMarkers.
Import Fixtures.

(** C3 fails on the code.  The whitespace of the summary is collapsed
    before the markers are looked for, so the text has a single line by
    then and only the marker at its very start is removed: the marker of
    the second line stays in the output. *)
Theorem bullet_on_second_line_survives :
  postprocess_summary bullet_list 5
  = lit "First point is here. - Second point is here.".
Proof. reflexivity. Qed.

(** The marker pattern itself does work on every line. *)
Example bullet_pattern_is_multiline :
  sub bullet [] bullet_list
  = lit "First point is here." ++ newline ++ lit "Second point is here.".
Proof. reflexivity. Qed.

End BulletMarkers.

(** ** Class tokens *)

Section ClassTokens.
Import Soup Scraper.





(** Characters without whitespace join the word being read. *)
Lemma split_ws_from_solid (t : str) :
  forallb (fun c => negb (isspace c)) t = true ->
  forall word rest,
    split_ws_from word (t ++ rest) = split_ws_from (rev t ++ word) rest.
Proof.
  induction t as [|c t IH]; intros H word rest; [reflexivity|].
  cbn [forallb] in H; apply andb_prop in H; destruct H as [Hc Ht].
  cbn [app split_ws_from]; destruct (isspace c); [discriminate|].
  rewrite IH by exact Ht; cbn [rev]; rewrite <- app_assoc; reflexivity.
Qed.



Lemma isspace_lower_char (c : ascii) : isspace (lower_char c) = isspace c.
Proof.
  pose proof (forall_chars
    (fun c => Bool.eqb (isspace (lower_char c)) (isspace c))
    ltac:(vm_compute; reflexivity) c) as H.
  apply Bool.eqb_prop in H; exact H.
Qed.

Lemma split_ws_from_lower (s : str) :
  forall word,
    split_ws_from (lower word) (lower s) = map lower (split_ws_from word s).
Proof.
  unfold lower; induction s as [|c s IH]; intros word; cbn [map split_ws_from].
  - destruct word as [|x word']; [reflexivity|].
    simpl; rewrite map_app, map_rev; reflexivity.
  - rewrite isspace_lower_char; destruct (isspace c).
    + destruct word as [|x word']; [apply (IH [])|].
      simpl; rewrite map_app, map_rev; f_equal; apply (IH []).
    + apply (IH (c :: word)).
Qed.


End ClassTokens.

(** ** The generic strategy: candidates *)

Section Candidates.
Import Soup Scraper Fixtures.






End Candidates.

(** ** [scrape_articles]: the bound and the empty result *)

Section ScrapeBound.
Import Soup Scraper ScraperSpec Fixtures.

Variable fetch : str -> py node.

Lemma len_slice_to {A : Type} (l : list A) (n : Z) :
  (0 <= n)%Z -> (len (slice_to l n) <= n)%Z.
Proof.
  intros Hn; rewrite slice_to_nonneg by assumption.
  rewrite len_firstn; lia.
Qed.

Lemma slice_to_nil {A : Type} (n : Z) : slice_to (@nil A) n = [].
Proof. unfold slice_to; destruct (n <? 0)%Z; apply firstn_nil. Qed.

Lemma quotes_loop_length (soup : node) (url : str) (quotes : list path) :
  forall articles l,
    quotes_loop soup url quotes articles = Return l ->
    length l = length articles + length quotes.
Proof.
  induction quotes as [|q rest IH]; intros articles l; simpl.
  - intros [= <-]; lia.
  - destruct (get_text_of soup (find _ soup q)) as [text|e]; simpl; [|discriminate].
    destruct (get_text_of soup (find _ soup q)) as [author|e]; simpl; [|discriminate].
    intros H; apply IH in H; rewrite length_app in H; simpl in H; lia.
Qed.

Lemma hacker_news_loop_length (soup : node) (url : str) (rows : list path) :
  forall articles,
    length (hacker_news_loop soup url rows articles)
    <= length articles + length rows.
Proof.
  induction rows as [|row rest IH]; intros articles; simpl; [lia|].
  destruct (find _ soup row) as [title_element|]; [|specialize (IH articles); lia].
  destruct (find _ soup title_element) as [title_link|]; [|specialize (IH articles); lia].
  match goal with |- length (hacker_news_loop _ _ _ ?acc) <= _ =>
    specialize (IH acc); rewrite length_app in IH; simpl in IH end.
  lia.
Qed.

Lemma generic_loop_length (url : str) (candidates : list path) :
  forall soup i articles,
    length (generic_loop soup url i candidates articles)
    = length articles + length candidates.
Proof.
  induction candidates as [|c rest IH]; intros soup i articles; simpl; [lia|].
  rewrite IH, length_app; simpl; lia.
Qed.

(** C2, as stated, fails for a negative limit: [found[:-1]] keeps all but
    the last element, so a page with three quotes gives two records. *)
Lemma scrape_articles_negative_limit :
  ~ (forall (fetch : str -> py node) (url : str) (limit : Z) (l : list article),
        scrape_articles fetch url limit = Return l -> (len l <= limit)%Z).
Proof.
  intros H.
  specialize (H (serving three_quotes) quotes_url (-1)%Z
                [good_quote_record; good_quote_record] eq_refl).
  vm_compute in H; apply H; reflexivity.
Qed.

(** C2 (amended).  [scrape_articles] returns a list and does not raise,
    whatever the request does.  For a limit [>= 0] the list has at most
    [limit] records.  It is empty when the request fails, and when the
    document holds no element of the kind the chosen strategy looks for;
    for the generic strategy: no [article] tag and no [div] whose class
    mentions [post] or [article]. *)
Theorem scrape_articles_bounded (url : str) (limit : Z) :
  exists l,
    scrape_articles fetch url limit = Return l
    /\ ((0 <= limit)%Z -> (len l <= limit)%Z)
    /\ (forall e, fetch url = Raise e -> l = [])
    /\ (forall soup, fetch url = Return soup ->
                     matching_elements url soup = [] -> l = []).
Proof.
  unfold scrape_articles, matching_elements.
  destruct (contains (lit "quotes.toscrape.com") url);
    [|destruct (contains (lit "news.ycombinator.com") url)].
  - unfold _scrape_quotes_to_scrape.
    destruct (fetch url) as [soup|e]; cbn [bind try_except].
    + destruct (quotes_loop soup url _ []) as [l|e] eqn:E; cbn [bind try_except].
      * exists l; split; [reflexivity|]; split; [|split].
        -- intros Hl; apply quotes_loop_length in E; cbn [length Nat.add] in E.
           pose proof (len_slice_to
                         (find_all (tag_with_class (lit "div") (lit "quote")) soup [])
                         limit Hl) as Hs.
           unfold len in *; rewrite E; exact Hs.
        -- discriminate.
        -- intros soup' [= <-] Hnone; rewrite Hnone, slice_to_nil in E.
           cbn [quotes_loop] in E; congruence.
      * exists []; split; [reflexivity|]; split; [unfold len; simpl; lia|].
        split; [discriminate | reflexivity].
    + exists []; split; [reflexivity|]; split; [unfold len; simpl; lia|].
      split; [reflexivity | discriminate].
  - unfold _scrape_hacker_news.
    destruct (fetch url) as [soup|e]; cbn [bind try_except].
    + eexists; split; [reflexivity|]; split; [|split].
      * intros Hl.
        pose proof (hacker_news_loop_length soup url
                      (slice_to (find_all (tag_with_class (lit "tr") (lit "athing")) soup [])
                                limit) []) as Hh.
        pose proof (len_slice_to
                      (find_all (tag_with_class (lit "tr") (lit "athing")) soup [])
                      limit Hl) as Hs.
        unfold len in *; cbn [length Nat.add] in Hh; lia.
      * discriminate.
      * intros soup' [= <-] Hnone; rewrite Hnone, slice_to_nil; reflexivity.
    + exists []; split; [reflexivity|]; split; [unfold len; simpl; lia|].
      split; [reflexivity | discriminate].
  - unfold _scrape_generic.
    destruct (fetch url) as [soup|e]; cbn [bind try_except].
    + eexists; split; [reflexivity|]; split; [|split].
      * intros Hl.
        pose proof (len_slice_to (potential_articles soup) limit Hl) as Hs.
        unfold len in *; rewrite generic_loop_length; cbn [length Nat.add]; lia.
      * discriminate.
      * intros soup' [= <-] Hnone; rewrite Hnone, slice_to_nil; reflexivity.
    + exists []; split; [reflexivity|]; split; [unfold len; simpl; lia|].
      split; [reflexivity | discriminate].
Qed.

End ScrapeBound.

Section ScrapeBoundExamples.
Import Soup Scraper ScraperSpec Fixtures.

Lemma scrape_articles_bounded_witness :
  exists l,
    scrape_articles (serving three_quotes) quotes_url 2 = Return l
    /\ (len l <= 2)%Z.
Proof.
  destruct (scrape_articles_bounded (serving three_quotes) quotes_url 2)
    as [l [E [Hlen _]]].
  exists l; split; [exact E | apply Hlen; lia].
Defined.

(** The generic strategy on a page without candidates. *)
Example generic_without_candidates :
  matching_elements blog_url plain_page = []
  /\ scrape_articles (serving plain_page) blog_url 5 = Return [].
Proof. split; reflexivity. Qed.

Example quotes_limit_two :
  scrape_articles (serving three_quotes) quotes_url 2
  = Return [good_quote_record; good_quote_record].
Proof. reflexivity. Qed.

End ScrapeBoundExamples.

(** ** The parse tree *)

Section Tree.
Import Soup.








End Tree.

(** ** The generic strategy: records *)

Section GenericRecords.
Import Soup Scraper GenericSpec.













End GenericRecords.

Section GenericRecordsExamples.
Import Soup Scraper GenericSpec Fixtures.


(** Script and style elements are taken out of the container before its
    text is read; a container without headings gets a numbered title. *)
Example generic_script_removed :
  _scrape_generic
    (serving (document [bare "article"
                          [text " Intro "; bare "script" [text "track();"];
                           bare "p" [text "Body"]; bare "style" [text "p {}"]]]))
    blog_url 5
  = Return [{| title := lit "Article 1"; author := lit "Unknown";
               content := lit "Intro Body"; source_url := blog_url |}].
Proof. reflexivity. Qed.

End GenericRecordsExamples.

(** ** The matcher on a repeated character class *)

Section Matcher.
Import TextSpec.

Lemma ahead_jump (n : nat) : forall k, ahead (jump k n) = skipn n (ahead k).
Proof.
  induction n as [|n IH]; intros [b a]; simpl; [reflexivity|].
  destruct a as [|c rest]; simpl; [reflexivity|].
  rewrite IH; reflexivity.
Qed.

Lemma run_length_le (p : ascii -> bool) (s : str) : run_length p s <= length s.
Proof.
  induction s as [|c rest IH]; simpl; [lia|].
  destruct (p c); lia.
Qed.

Lemma run_length_firstn (p : ascii -> bool) (s : str) :
  forallb p (firstn (run_length p s) s) = true.
Proof.
  induction s as [|c rest IH]; simpl; [reflexivity|].
  destruct (p c) eqn:Pc; simpl; [rewrite Pc; exact IH | reflexivity].
Qed.

Lemma run_length_app (p : ascii -> bool) (ws rest : str) :
  forallb p ws = true ->
  run_length p (ws ++ rest) = length ws + run_length p rest.
Proof.
  induction ws as [|c ws IH]; simpl; [reflexivity|].
  destruct (p c); simpl; [intros H; rewrite IH by exact H; reflexivity | discriminate].
Qed.

(** Every way [p+] matches: the whole leading run first, then one
    character less at a time. *)
Lemma greedy_chars (p : ascii -> bool) :
  forall fuel k g,
    length (ahead k) < fuel ->
    greedy_more (run (Chars p)) fuel k g
    = map (fun j => (jump k j, g)) (rev (seq 1 (run_length p (ahead k)))).
Proof.
  induction fuel as [|fuel IH]; intros [b a] g Hf; [lia|].
  simpl in Hf; destruct a as [|c rest]; [reflexivity|].
  cbn [greedy_more run ahead run_length].
  destruct (p c) eqn:Pc; [|reflexivity].
  cbn [flat_map fst snd advance ahead behind].
  replace (length rest <? length (c :: rest)) with true
    by (symmetry; apply Nat.ltb_lt; simpl; lia).
  rewrite IH by (simpl in *; lia).
  rewrite app_nil_r.
  cbn [seq rev]; rewrite map_app; cbn [map jump ahead advance behind].
  f_equal.
  rewrite <- (seq_shift (run_length p rest) 1), <- map_rev, map_map; reflexivity.
Qed.

Lemma run_plus_chars (p : ascii -> bool) (k : cursor) (g : option str) :
  run (Plus (Chars p)) k g
  = map (fun j => (jump k j, g)) (rev (seq 1 (run_length p (ahead k)))).
Proof. apply greedy_chars; lia. Qed.

Lemma length_ahead_jump (k : cursor) (n : nat) :
  n <= length (ahead k) ->
  length (ahead k) - length (ahead (jump k n)) = n.
Proof. intros H; rewrite ahead_jump, length_skipn; lia. Qed.

Lemma match_here_plus_chars (p : ascii -> bool) (k : cursor) :
  match_here (Plus (Chars p)) k
  = match run_length p (ahead k) with
    | O => None
    | S n => Some (S n, None)
    end.
Proof.
  unfold match_here; rewrite run_plus_chars.
  pose proof (run_length_le p (ahead k)) as Hle.
  destruct (run_length p (ahead k)) as [|n]; [reflexivity|].
  rewrite seq_S, rev_app_distr; cbn [rev app map Nat.add].
  rewrite length_ahead_jump by assumption; reflexivity.
Qed.

Lemma match_here_chars (p : ascii -> bool) (k : cursor) :
  match_here (Chars p) k
  = match ahead k with
    | c :: _ => if p c then Some (1, None) else None
    | [] => None
    end.
Proof.
  unfold match_here; destruct k as [b [|c rest]]; cbn [run ahead]; [reflexivity|].
  destruct (p c); [|reflexivity].
  cbn [advance ahead].
  replace (length (c :: rest) - length rest) with 1 by (cbn [length]; lia).
  reflexivity.
Qed.

End Matcher.

(** ** [re.sub] *)

Section Substitution.
Import TextSpec.

(** Removing a class of characters is filtering. *)
Lemma sub_chars_filter (p : ascii -> bool) (s : str) :
  forall before,
    sub_from (Chars p) [] before s 0 = filter (fun c => negb (p c)) s.
Proof.
  induction s as [|c rest IH]; intros before; [reflexivity|].
  cbn [sub_from filter]; rewrite match_here_chars; cbn [ahead].
  destruct (p c); cbn [negb expand flat_map app]; rewrite IH; reflexivity.
Qed.

(** What holds of every character of the subject and of the replacement
    holds of every character of the result. *)
Lemma sub_from_forallb (Q : ascii -> bool) (r : regex) (repl : list piece) (s : str) :
  (forall g, forallb Q (expand repl g) = true) ->
  forall before skip,
    forallb Q s = true ->
    forallb Q (sub_from r repl before s skip) = true.
Proof.
  intros Hrepl; induction s as [|c rest IH]; intros before skip; [reflexivity|].
  cbn [sub_from forallb]; intros H; apply andb_prop in H; destruct H as [Hc Hrest].
  destruct skip as [|n]; [|apply IH, Hrest].
  destruct (match_here r _) as [[[|n] g]|].
  - cbn [forallb]; rewrite Hc; apply IH, Hrest.
  - rewrite forallb_app, Hrepl; apply IH, Hrest.
  - cbn [forallb]; rewrite Hc; apply IH, Hrest.
Qed.




End Substitution.

(** ** [strip], [split] and [join] *)

Section Trimming.
Import TextSpec.

Lemma dropwhile_suffix (p : ascii -> bool) (s : str) :
  exists a, s = a ++ dropwhile p s.
Proof.
  induction s as [|c rest [a IH]]; simpl; [exists []; reflexivity|].
  destruct (p c).
  - exists (c :: a); simpl; f_equal; exact IH.
  - exists []; reflexivity.
Qed.

(** A stripped text is a piece of the text. *)
Lemma strip_infix (s : str) : exists a b, s = a ++ strip s ++ b.
Proof.
  unfold strip, rstrip, lstrip.
  destruct (dropwhile_suffix isspace s) as [a Ha].
  destruct (dropwhile_suffix isspace (rev (dropwhile isspace s))) as [b Hb].
  exists a, (rev b).
  rewrite <- rev_app_distr, <- Hb, rev_involutive; exact Ha.
Qed.

Lemma strip_forallb (Q : ascii -> bool) (s : str) :
  forallb Q s = true -> forallb Q (strip s) = true.
Proof.
  destruct (strip_infix s) as [a [b E]]; intros H.
  rewrite E, !forallb_app in H.
  apply andb_prop in H; destruct H as [_ H].
  apply andb_prop in H; destruct H as [H _]; exact H.
Qed.


Lemma forallb_rev {A : Type} (Q : A -> bool) (l : list A) :
  forallb Q (rev l) = forallb Q l.
Proof.
  induction l as [|a l IH]; simpl; [reflexivity|].
  rewrite forallb_app, IH; simpl; rewrite andb_true_r; apply andb_comm.
Qed.



Lemma filter_forallb {A : Type} (Q f : A -> bool) (l : list A) :
  forallb Q l = true -> forallb Q (filter f l) = true.
Proof.
  induction l as [|a l IH]; simpl; [reflexivity|].
  intros H; apply andb_prop in H; destruct H as [Ha Hl].
  destruct (f a); simpl; [rewrite Ha|]; apply IH, Hl.
Qed.

End Trimming.

(** ** [preprocess_text] *)

Section Normalisation.
Import TextSpec.


Lemma forallb_filter_same {A : Type} (f : A -> bool) (l : list A) :
  forallb f (filter f l) = true.
Proof.
  induction l as [|a l IH]; simpl; [reflexivity|].
  destruct (f a) eqn:Fa; simpl; [rewrite Fa|]; exact IH.
Qed.






Example preprocess_text_sample :
  preprocess_text
    (Some (lit "<p>Hello   <b>World</b>!</p> Mail me@x.org or see https://ex.com/a NOW"))
    false
  = lit "hello world! mail or see now".
Proof. reflexivity. Qed.

End Normalisation.

(** ** The sentence boundary pattern *)

Section Boundary.
Import TextSpec.

Lemma run_length_nth (p : ascii -> bool) (s : str) (j : nat) :
  j < run_length p s -> exists c, nth_error s j = Some c /\ p c = true.
Proof.
  revert j; induction s as [|x rest IH]; simpl; intros j Hj; [lia|].
  destruct (p x) eqn:Px; [|lia].
  destruct j as [|j]; [exists x; auto|].
  apply IH; lia.
Qed.

Lemma skipn_nth_error {A : Type} (l : list A) (j : nat) (c : A) :
  nth_error l j = Some c -> exists rest, skipn j l = c :: rest.
Proof.
  revert j; induction l as [|x l IH]; intros [|j]; simpl; try discriminate.
  - intros [= ->]; eauto.
  - apply IH.
Qed.

Lemma skipn_nth_error_none {A : Type} (l : list A) (j : nat) :
  nth_error l j = None -> skipn j l = [].
Proof.
  intros H; apply skipn_all2, nth_error_None, H.
Qed.

(** Inside the whitespace run the lookahead for a capital fails. *)
Lemma ahead_capital_in_run (k : cursor) (g : option str) (j : nat) :
  j < run_length isspace (ahead k) ->
  run (Ahead capital) (jump k j) g = [].
Proof.
  intros Hj; destruct (run_length_nth _ _ _ Hj) as [c [Hc Sc]].
  cbn [run]; rewrite ahead_jump.
  destruct (skipn_nth_error _ _ _ Hc) as [rest ->].
  rewrite (isspace_not_capital _ Sc); reflexivity.
Qed.

Lemma flat_map_ahead_in_run (k : cursor) (g : option str) (n : nat) :
  n < run_length isspace (ahead k) ->
  flat_map (fun st : mstate => run (Ahead capital) (fst st) (snd st))
           (map (fun j => (jump k j, g)) (rev (seq 1 n))) = [].
Proof.
  induction n as [|n IH]; intros Hn; [reflexivity|].
  rewrite seq_S, rev_app_distr; cbn [rev app map flat_map fst snd Nat.add].
  rewrite ahead_capital_in_run by lia.
  apply IH; lia.
Qed.

Lemma run_Cat (r1 r2 : regex) (k : cursor) (g : option str) :
  run (Cat r1 r2) k g
  = flat_map (fun st : mstate => run r2 (fst st) (snd st)) (run r1 k g).
Proof. reflexivity. Qed.

Lemma run_Behind (p : ascii -> bool) (k : cursor) (g : option str) :
  run (Behind p) k g
  = match behind k with
    | c :: _ => if p c then [(k, g)] else []
    | [] => []
    end.
Proof. reflexivity. Qed.

Lemma run_Ahead (p : ascii -> bool) (k : cursor) (g : option str) :
  run (Ahead p) k g
  = match ahead k with
    | c :: _ => if p c then [(k, g)] else []
    | [] => []
    end.
Proof. reflexivity. Qed.

(** What the matcher finds for the boundary pattern at a position. *)
Lemma match_here_boundary (k : cursor) :
  match_here boundary k
  = match boundary_here (behind k) (ahead k) with
    | Some n => Some (n, None)
    | None => None
    end.
Proof.
  unfold match_here, boundary, boundary_here, Postprocessor.whitespace.
  rewrite run_Cat, run_Behind.
  change (between "A" "Z") with capital.
  destruct (behind k) as [|p older]; [reflexivity|].
  change (one_of ".!?" p) with (sentence_end p).
  destruct (sentence_end p); [|reflexivity].
  cbn [flat_map fst snd]; rewrite app_nil_r.
  rewrite run_Cat, run_plus_chars.
  pose proof (run_length_le isspace (ahead k)) as Hle.
  destruct (run_length isspace (ahead k)) as [|n] eqn:Em; [reflexivity|].
  rewrite seq_S, rev_app_distr; cbn [rev app map flat_map fst snd Nat.add].
  rewrite flat_map_ahead_in_run by lia.
  rewrite app_nil_r, run_Ahead, ahead_jump.
  destruct (nth_error (ahead k) (S n)) as [u|] eqn:Eu.
  - destruct (skipn_nth_error _ _ _ Eu) as [rest Hrest]; rewrite Hrest.
    destruct (capital u); [|reflexivity].
    rewrite length_ahead_jump by assumption; reflexivity.
  - rewrite (skipn_nth_error_none _ _ Eu); reflexivity.
Qed.

End Boundary.

(** ** [split_sentences] *)

Section Segmentation.
Import TextSpec.

Lemma split_from_skip (r : regex) (n : nat) :
  forall s before cur,
    n <= length s ->
    split_from r before s n cur
    = split_from r (rev (firstn n s) ++ before) (skipn n s) 0 cur.
Proof.
  induction n as [|n IH]; intros s before cur Hn; [reflexivity|].
  destruct s as [|c rest]; [simpl in Hn; lia|].
  cbn [split_from firstn skipn rev].
  rewrite IH by (simpl in Hn; lia).
  rewrite <- app_assoc; reflexivity.
Qed.

Lemma app_eq_length {A : Type} (l1 l2 l3 l4 : list A) :
  l1 ++ l2 = l3 ++ l4 -> length l1 = length l3 -> l1 = l3 /\ l2 = l4.
Proof.
  revert l3; induction l1 as [|x l1 IH]; intros [|y l3]; simpl;
    try discriminate; auto.
  intros [= -> E] [= L]; destruct (IH _ E L) as [-> ->]; auto.
Qed.

Lemma capital_not_isspace (u : ascii) : capital u = true -> isspace u = false.
Proof.
  intros Hu; destruct (isspace u) eqn:Su; [|reflexivity].
  rewrite (isspace_not_capital _ Su) in Hu; discriminate.
Qed.

Lemma boundary_here_some (before s : str) (n : nat) :
  boundary_here before s = Some n ->
  exists p older ws u rest,
    before = p :: older /\ sentence_end p = true
    /\ s = ws ++ u :: rest /\ length ws = n /\ n <> 0
    /\ forallb isspace ws = true /\ capital u = true.
Proof.
  unfold boundary_here; destruct before as [|p older]; [discriminate|].
  destruct (sentence_end p) eqn:Ep; [|discriminate].
  pose proof (run_length_firstn isspace s) as Hws.
  pose proof (run_length_le isspace s) as Hle.
  destruct (run_length isspace s) as [|m]; [discriminate|].
  destruct (nth_error s (S m)) as [u|] eqn:Eu; [|discriminate].
  destruct (capital u) eqn:Cu; [|discriminate].
  intros [= <-].
  destruct (skipn_nth_error _ _ _ Eu) as [rest Hrest].
  exists p, older, (firstn (S m) s), u, rest.
  repeat split; auto.
  - rewrite <- Hrest; symmetry; apply firstn_skipn.
  - apply firstn_length_le, Hle.
Qed.

Lemma boundary_here_found (p : ascii) (older ws : str) (u : ascii) (b : str) :
  sentence_end p = true -> ws <> [] -> forallb isspace ws = true ->
  capital u = true ->
  boundary_here (p :: older) (ws ++ u :: b) = Some (length ws).
Proof.
  intros Ep Hne Hws Cu; unfold boundary_here; rewrite Ep.
  rewrite run_length_app by assumption.
  cbn [run_length]; rewrite (capital_not_isspace _ Cu), Nat.add_0_r.
  destruct ws as [|w ws']; [congruence|]; cbn [length].
  change (S (length ws')) with (length (w :: ws')).
  rewrite nth_error_app2, Nat.sub_diag by lia.
  cbn [nth_error]; rewrite Cu; reflexivity.
Qed.

Lemma no_earlier_closed (cur s : str) :
  no_earlier_boundary cur s -> ~ has_boundary capital (rev cur).
Proof.
  intros HB [a [p [ws [u [b [E [Ep [Hne [Hws Cu]]]]]]]]].
  specialize (HB a p ws u (b ++ s)).
  rewrite E in HB; repeat (rewrite <- app_assoc in HB; cbn [app] in HB).
  specialize (HB eq_refl Ep Hne Hws Cu).
  apply (f_equal (@length ascii)) in E.
  rewrite length_rev, length_app in E; cbn [length] in E.
  rewrite length_app in E; cbn [length] in E.
  destruct ws; [congruence|]; cbn [length] in E; lia.
Qed.

Lemma hd_rev_app_isspace (ws : str) (c : ascii) (before : str) :
  forallb isspace (c :: ws) = true ->
  match rev ws ++ c :: before with
  | x :: _ => sentence_end x = false
  | [] => True
  end.
Proof.
  intros H; rewrite forallb_forall in H.
  destruct (rev ws) as [|x r] eqn:E; cbn [app].
  - apply isspace_not_sentence_end, H; left; reflexivity.
  - apply isspace_not_sentence_end, H; right.
    apply in_rev; rewrite E; left; reflexivity.
Qed.

(** The loop of [re.split] on the boundary pattern cuts the text at its
    sentence boundaries. *)
Lemma split_from_fragments (m : nat) :
  forall s before cur,
    length s <= m ->
    (cur = [] -> match before with
                 | p :: _ => sentence_end p = false
                 | [] => True
                 end) ->
    (cur <> [] -> hd_error before = hd_error cur) ->
    no_earlier_boundary cur s ->
    fragments capital (rev cur ++ s) (split_from boundary before s 0 cur).
Proof.
  induction m as [|m IH]; intros s before cur Hm HA1 HA2 HB.
  - destruct s; [|simpl in Hm; lia].
    rewrite app_nil_r; apply fragments_last, (no_earlier_closed _ _ HB).
  - destruct s as [|c rest].
    { rewrite app_nil_r; apply fragments_last, (no_earlier_closed _ _ HB). }
    cbn [split_from]; rewrite match_here_boundary; cbn [behind ahead].
    destruct (boundary_here before (c :: rest)) as [n|] eqn:Eb.
    + destruct (boundary_here_some _ _ _ Eb)
        as [p [older [ws [u [rest' [-> [Ep [Es [Hlen [Hn0 [Hws Cu]]]]]]]]]]].
      destruct n as [|n]; [congruence|].
      destruct ws as [|w ws']; [discriminate|].
      injection Es as <- ->; injection Hlen as Hlen.
      destruct cur as [|p' cur'].
      { specialize (HA1 eq_refl); change (sentence_end p = false) in HA1; congruence. }
      specialize (HA2 ltac:(discriminate)); injection HA2 as <-.
      rewrite split_from_skip by (rewrite length_app; lia).
      rewrite <- Hlen, firstn_app, Nat.sub_diag, firstn_all, skipn_app,
        Nat.sub_diag, skipn_all; cbn [firstn skipn app]; rewrite app_nil_r.
      change (rev (p :: cur')) with (rev cur' ++ [p]).
      apply (fragments_cut capital (rev cur') p (c :: ws') u rest'); auto.
      * apply (no_earlier_closed (p :: cur') _ HB).
      * discriminate.
      * apply (IH (u :: rest') (rev ws' ++ c :: p :: older) []).
        -- simpl in Hm; rewrite length_app in Hm; simpl in Hm |- *; lia.
        -- intros _; apply hd_rev_app_isspace, Hws.
        -- congruence.
        -- intros a q ws0 u0 b0 _ _ _ _ _; cbn [length]; lia.
    + assert (Hsame : rev (c :: cur) ++ rest = rev cur ++ c :: rest)
        by (cbn [rev]; rewrite <- app_assoc; reflexivity).
      assert (Hgoal : fragments capital (rev (c :: cur) ++ rest)
                        (split_from boundary (c :: before) rest 0 (c :: cur))).
      { apply IH.
        - simpl in Hm; lia.
        - discriminate.
        - reflexivity.
        - intros a p ws u b E Ep Hne Hws Cu; rewrite Hsame in E.
          pose proof (HB a p ws u b E Ep Hne Hws Cu) as Hle.
          destruct (Nat.eq_dec (length cur) (S (length a))) as [Heq|];
            [exfalso | cbn [length]; lia].
          assert (E' : rev cur ++ c :: rest = (a ++ [p]) ++ ws ++ u :: b)
            by (rewrite E, <- app_assoc; reflexivity).
          apply app_eq_length in E';
            [|rewrite length_rev, length_app; cbn [length]; lia].
          destruct E' as [Ecur Es].
          assert (Hcur : cur = p :: rev a).
          { rewrite <- (rev_involutive cur), Ecur, rev_app_distr; reflexivity. }
          subst cur.
          specialize (HA2 ltac:(discriminate)); cbn [hd_error] in HA2.
          destruct before as [|p0 older]; [discriminate|].
          injection HA2 as ->.
          rewrite Es, (boundary_here_found p older ws u b Ep Hne Hws Cu) in Eb.
          discriminate. }
      rewrite Hsame in Hgoal; exact Hgoal.
Qed.

(** The cut is determined by the text. *)
Lemma gap_unique (ws1 ws2 : str) (u1 u2 : ascii) (r1 r2 : str) :
  ws1 ++ u1 :: r1 = ws2 ++ u2 :: r2 ->
  forallb isspace ws1 = true -> forallb isspace ws2 = true ->
  capital u1 = true -> capital u2 = true ->
  ws1 = ws2 /\ u1 :: r1 = u2 :: r2.
Proof.
  revert ws2; induction ws1 as [|w1 ws1 IH]; intros [|w2 ws2] E H1 H2 C1 C2;
    cbn [app forallb] in *.
  - auto.
  - injection E as -> _; apply andb_prop in H2; destruct H2 as [H2 _].
    rewrite (isspace_not_capital _ H2) in C1; discriminate.
  - injection E as <- _; apply andb_prop in H1; destruct H1 as [H1 _].
    rewrite (isspace_not_capital _ H1) in C2; discriminate.
  - injection E as -> E.
    apply andb_prop in H1; destruct H1 as [_ H1].
    apply andb_prop in H2; destruct H2 as [_ H2].
    destruct (IH _ E H1 H2 C1 C2) as [-> ->]; auto.
Qed.

Lemma first_cut_not_later (f1 f2 : str) (p1 p2 : ascii) (l y1 ws2 : str)
      (u2 : ascii) (r2 : str) :
  f1 ++ [p1] = (f2 ++ [p2]) ++ l ->
  ws2 ++ u2 :: r2 = l ++ y1 ->
  sentence_end p1 = true -> sentence_end p2 = true ->
  forallb isspace ws2 = true -> capital u2 = true ->
  ~ has_boundary capital (f1 ++ [p1]) ->
  ws2 <> [] ->
  l = [].
Proof.
  intros E1 E2 Ep1 Ep2 Hws Cu Hno Hne.
  destruct l as [|c l']; [reflexivity | exfalso].
  destruct (@exists_last _ (c :: l') ltac:(discriminate)) as [l0 [z El]].
  rewrite El in E1, E2.
  rewrite app_assoc in E1; apply app_inj_tail in E1; destruct E1 as [Ef <-].
  assert (Hsolid : forallb isspace (l0 ++ [p1]) = false).
  { rewrite forallb_app; cbn [forallb].
    destruct (isspace p1) eqn:Sp; [|rewrite andb_false_r; reflexivity].
    rewrite (isspace_not_sentence_end _ Sp) in Ep1; discriminate. }
  destruct (app_eq_app _ _ _ _ E2) as [m [[Ews Ey]|[El0 Eu]]].
  - rewrite Ews, forallb_app, Hsolid in Hws; discriminate.
  - destruct m as [|u m'].
    + rewrite app_nil_r in El0; rewrite El0, Hws in Hsolid; discriminate.
    + cbn [app] in Eu; injection Eu as <- _.
      apply Hno; exists f2, p2, ws2, u2, m'.
      repeat split; auto.
      rewrite Ef, <- !app_assoc; cbn [app]; rewrite El0; reflexivity.
Qed.

Lemma fragments_unique (s : str) (l1 : list str) :
  fragments capital s l1 -> forall l2, fragments capital s l2 -> l1 = l2.
Proof.
  induction 1 as [s Hno|f1 p1 ws1 u1 r1 l1 Hno1 Ep1 Hne1 Hws1 Cu1 Hrest1 IH];
    intros l2 H2.
  - inversion H2 as [s' Hno'|f2 p2 ws2 u2 r2 l2' Hno2 Ep2 Hne2 Hws2 Cu2 Hrest2 Es];
      subst; [reflexivity|].
    exfalso; apply Hno; exists f2, p2, ws2, u2, r2.
    rewrite <- app_assoc; repeat split; auto.
  - inversion H2 as [s' Hno'|f2 p2 ws2 u2 r2 l2' Hno2 Ep2 Hne2 Hws2 Cu2 Hrest2 Es];
      subst.
    + exfalso; apply Hno'; exists f1, p1, ws1, u1, r1.
      rewrite <- app_assoc; repeat split; auto.
    + destruct (app_eq_app _ _ _ _ Es) as [m [[Ex Ey]|[Ex Ey]]].
      * assert (m = []) as ->
            by (eapply (first_cut_not_later f2 f1 p2 p1 m _ ws1 u1 r1); eauto).
        rewrite app_nil_r in Ex; cbn [app] in Ey.
        destruct (gap_unique _ _ _ _ _ _ Ey Hws1 Hws2 Cu1 Cu2) as [_ Er].
        rewrite Ex; f_equal; apply IH; rewrite Er; exact Hrest2.
      * assert (m = []) as ->
            by (eapply (first_cut_not_later f1 f2 p1 p2 m _ ws2 u2 r2); eauto).
        rewrite app_nil_r in Ex; cbn [app] in Ey.
        destruct (gap_unique _ _ _ _ _ _ Ey Hws2 Hws1 Cu2 Cu1) as [_ Er].
        rewrite Ex; f_equal; apply IH; rewrite <- Er; exact Hrest2.
Qed.

Lemma split_fragments (text : str) : fragments capital text (split boundary text).
Proof.
  apply (split_from_fragments (length text) text [] []);
    [lia | intros _; exact I | reflexivity |].
  intros a p ws u b _ _ _ _ _; cbn [length]; lia.
Qed.

Lemma split_sentences_long_enough (text : str) :
  split_sentences text = long_enough (split boundary text).
Proof.
  unfold split_sentences, long_enough.
  induction (split boundary text) as [|x l IH]; [reflexivity|].
  cbn [fold_right map filter]; rewrite IH.
  destruct (strip x) as [|c s] eqn:E; [reflexivity|].
  rewrite Z.gtb_ltb.
  destruct (Z.ltb_spec 5 (len (c :: s))), (Z.leb_spec 6 (len (c :: s)));
    try reflexivity; lia.
Qed.

(** C7, as stated, fails when upper-case letter is read as
    [str.isupper]: the pattern looks ahead for [A-Z] only, so a sentence
    that opens with an accented capital is not cut off. *)
Lemma split_sentences_accented_capital :
  ~ (forall text, fragments isupper text (split boundary text)).
Proof.
  intros H; specialize (H Fixtures.accented_text).
  assert (E : split boundary Fixtures.accented_text = [Fixtures.accented_text])
    by reflexivity.
  rewrite E in H; clear E.
  inversion H as [s Hno|f p ws u rest l Hno Hp Hne Hws Hu Hrest].
  - apply Hno.
    exists (lit "Voila"), "."%char, (lit " "), "201"%char, (lit "cole ouverte.").
    repeat split; try reflexivity; discriminate.
  - inversion Hrest.
Qed.

Example split_sentences_accented :
  split_sentences Fixtures.accented_text = [Fixtures.accented_text]
  /\ isupper "201" = true.
Proof. split; reflexivity. Qed.

(** C7 (amended).  [split_sentences] cuts the text at its sentence
    boundaries - a sentence end [.], [!] or [?], then whitespace, then a
    capital letter [A-Z]: the whitespace is taken out, the capital letter
    opens the next fragment, and no fragment contains a boundary; there is
    only one such list of fragments.  It keeps the fragments in order,
    trims each, and drops those of fewer than 6 characters; what it
    returns is non-empty and at least 6 characters long. *)
Theorem split_sentences_spec (text : str) :
  exists l,
    fragments capital text l
    /\ (forall l', fragments capital text l' -> l' = l)
    /\ split_sentences text = long_enough l
    /\ Forall (fun x => x <> [] /\ (6 <= len x)%Z) (split_sentences text).
Proof.
  exists (split boundary text); split; [apply split_fragments|].
  split; [intros l' Hl'; apply (fragments_unique text l' Hl'), split_fragments|].
  split; [apply split_sentences_long_enough|].
  rewrite split_sentences_long_enough; unfold long_enough.
  apply Forall_forall; intros x Hx; apply filter_In in Hx.
  destruct Hx as [_ Hx]; apply Z.leb_le in Hx.
  split; [|exact Hx].
  intros ->; unfold len in Hx; simpl in Hx; lia.
Qed.

Example split_sentences_two :
  split_sentences (lit "Hello world. This Is Two.")
  = [lit "Hello world."; lit "This Is Two."].
Proof. reflexivity. Qed.

(** No cut before a lower-case letter, a cut after an abbreviation. *)
Example split_sentences_heuristic :
  split_sentences (lit "It rained. then it stopped. Dr. Smith left.")
  = [lit "It rained. then it stopped."; lit "Smith left."].
Proof. reflexivity. Qed.

Lemma split_sentences_spec_witness :
  exists l,
    fragments capital (lit "Hello world. This Is Two.") l
    /\ (forall l', fragments capital (lit "Hello world. This Is Two.") l' -> l' = l)
    /\ split_sentences (lit "Hello world. This Is Two.") = long_enough l
    /\ Forall (fun x => x <> [] /\ (6 <= len x)%Z)
              (split_sentences (lit "Hello world. This Is Two.")).
Proof. exact (split_sentences_spec (lit "Hello world. This Is Two.")). Defined.

End Segmentation.

(** * Further properties of the text helpers, the strategies and the callers *)

(** ** [strip] *)

Section StripFacts.
Import HelperSpec.

Lemma dropwhile_app (p : ascii -> bool) (a b : str) :
  dropwhile p (a ++ b)
  = match dropwhile p a with
    | [] => dropwhile p b
    | d => d ++ b
    end.
Proof.
  induction a as [|c a IH]; cbn [app dropwhile].
  - destruct (dropwhile p b); reflexivity.
  - destruct (p c); [exact IH | reflexivity].
Qed.

Lemma rstrip_app (a b : str) :
  rstrip (a ++ b)
  = match rstrip b with
    | [] => rstrip a
    | r => a ++ r
    end.
Proof.
  unfold rstrip; rewrite rev_app_distr, dropwhile_app.
  destruct (dropwhile isspace (rev b)) as [|d ds] eqn:E; [reflexivity|].
  rewrite rev_app_distr, rev_involutive.
  destruct (rev (d :: ds)) eqn:E'; [|reflexivity].
  cbn [rev] in E'; destruct (rev ds); discriminate.
Qed.

Lemma rstrip_nil : rstrip [] = [].
Proof. reflexivity. Qed.

Lemma rstrip_solid_cons (c : ascii) (s : str) :
  isspace c = false -> rstrip (c :: s) = c :: rstrip s.
Proof.
  intros Hc; change (c :: s) with ([c] ++ s); rewrite rstrip_app.
  destruct (rstrip s); [|reflexivity].
  unfold rstrip; cbn [rev app dropwhile]; rewrite Hc; reflexivity.
Qed.

Lemma rstrip_space_end (s : str) (c : ascii) :
  isspace c = true -> rstrip (s ++ [c]) = rstrip s.
Proof.
  intros Hc; rewrite rstrip_app.
  unfold rstrip at 1; cbn [rev app dropwhile]; rewrite Hc; reflexivity.
Qed.

Lemma lstrip_solid (s : str) : starts_solid s -> lstrip s = s.
Proof.
  destruct s as [|c s]; [reflexivity|].
  cbn [starts_solid]; unfold lstrip; cbn [dropwhile]; intros ->; reflexivity.
Qed.

Lemma lstrip_space_cons (c : ascii) (s : str) :
  isspace c = true -> lstrip (c :: s) = lstrip s.
Proof. intros Hc; unfold lstrip; cbn [dropwhile]; rewrite Hc; reflexivity. Qed.

Lemma strip_solid (s : str) : starts_solid s -> strip s = rstrip s.
Proof. intros H; unfold strip; rewrite lstrip_solid by exact H; reflexivity. Qed.

Lemma strip_space_cons (c : ascii) (s : str) :
  isspace c = true -> strip (c :: s) = strip s.
Proof. intros Hc; unfold strip; rewrite lstrip_space_cons by exact Hc; reflexivity. Qed.

Lemma starts_solid_dropwhile (s : str) : starts_solid (dropwhile isspace s).
Proof.
  induction s as [|c s IH]; [exact I|].
  cbn [dropwhile]; destruct (isspace c) eqn:Sc; [exact IH | exact Sc].
Qed.

(** A text that neither starts nor ends with whitespace. *)
Lemma rstrip_rev_solid (word : str) :
  starts_solid word -> rstrip (rev word) = rev word.
Proof.
  intros H; unfold rstrip; rewrite rev_involutive.
  fold (lstrip word); rewrite lstrip_solid by exact H; reflexivity.
Qed.

Lemma starts_solid_rev_word (word : str) (y : str) :
  word <> [] -> forallb solid word = true -> starts_solid (rev word ++ y).
Proof.
  intros Hne Hw.
  destruct (rev word) as [|x r] eqn:E.
  - destruct word; [congruence|]; cbn [rev] in E; destruct (rev word); discriminate.
  - cbn [app starts_solid].
    rewrite forallb_forall in Hw.
    assert (Hx : In x word) by (apply in_rev; rewrite E; left; reflexivity).
    specialize (Hw _ Hx); unfold solid in Hw.
    destruct (isspace x); [discriminate | reflexivity].
Qed.

Lemma starts_solid_word (word : str) :
  forallb solid word = true -> starts_solid word.
Proof.
  destruct word as [|c w]; [intros _; exact I|].
  cbn [forallb starts_solid]; unfold solid at 1.
  destruct (isspace c); [discriminate | reflexivity].
Qed.

(** What [strip] returns neither starts nor ends with whitespace. *)
Lemma strip_starts_solid (s : str) : starts_solid (strip s).
Proof.
  unfold strip, lstrip.
  pose proof (starts_solid_dropwhile s) as H.
  destruct (dropwhile isspace s) as [|c t]; [exact I|].
  cbn [starts_solid] in H; rewrite rstrip_solid_cons by exact H; exact H.
Qed.

Lemma rstrip_idempotent (s : str) : rstrip (rstrip s) = rstrip s.
Proof.
  unfold rstrip; rewrite rev_involutive.
  pose proof (starts_solid_dropwhile (rev s)) as H.
  fold (lstrip (dropwhile isspace (rev s))).
  rewrite lstrip_solid by exact H; reflexivity.
Qed.

Lemma strip_idempotent (s : str) : strip (strip s) = strip s.
Proof.
  rewrite (strip_solid (strip s)) by apply strip_starts_solid.
  unfold strip; apply rstrip_idempotent.
Qed.

Lemma rstrip_ends_solid (s : str) (c : ascii) (t : str) :
  rstrip s = t ++ [c] -> isspace c = false.
Proof.
  unfold rstrip; intros E.
  pose proof (starts_solid_dropwhile (rev s)) as H.
  apply (f_equal (@rev ascii)) in E.
  rewrite rev_involutive, rev_app_distr in E; cbn [rev app] in E.
  rewrite E in H; exact H.
Qed.

Lemma strip_ends_solid (s : str) (c : ascii) (t : str) :
  strip s = t ++ [c] -> isspace c = false.
Proof. unfold strip; apply rstrip_ends_solid. Qed.

(** A text that ends with a character other than whitespace is left as
    it is by [rstrip]. *)
Lemma rstrip_solid_end (s : str) (c : ascii) :
  isspace c = false -> rstrip (s ++ [c]) = s ++ [c].
Proof.
  intros Hc; unfold rstrip; rewrite rev_app_distr; cbn [rev app dropwhile].
  rewrite Hc; cbn [rev]; rewrite rev_involutive; reflexivity.
Qed.

End StripFacts.

(** ** Collapsing whitespace *)

Section Collapsing.
Import HelperSpec Passes.

Lemma match_here_whitespace (k : cursor) :
  match_here Preprocessor.whitespace k
  = match run_length isspace (ahead k) with
    | O => None
    | S n => Some (S n, None)
    end.
Proof. apply match_here_plus_chars. Qed.

(** [re.sub(r'\s+', ' ', s)] is one pass over [s]; while a run is being
    passed over, [skip] is what is left of it. *)
Lemma sub_whitespace_collapse (s : str) :
  forall before,
    sub_from Preprocessor.whitespace [Text (lit " ")] before s 0 = collapse false s
    /\ sub_from Preprocessor.whitespace [Text (lit " ")] before s
         (run_length isspace s) = collapse true s.
Proof.
  induction s as [|c rest IH]; intros before; [split; reflexivity|].
  destruct (IH (c :: before)) as [IH0 IH1].
  assert (H0 : sub_from Preprocessor.whitespace [Text (lit " ")] before (c :: rest) 0
               = collapse false (c :: rest)).
  { cbn [sub_from collapse]; rewrite match_here_whitespace; cbn [ahead run_length].
    destruct (isspace c).
    - exact (f_equal (cons " "%char) IH1).
    - rewrite IH0; reflexivity. }
  split; [exact H0|].
  cbn [run_length]; destruct (isspace c) eqn:Sc.
  - cbn [sub_from collapse]; rewrite Sc; exact IH1.
  - rewrite H0; cbn [collapse]; rewrite Sc; reflexivity.
Qed.

Lemma sub_whitespace_is_collapse (s : str) :
  sub Preprocessor.whitespace [Text (lit " ")] s = collapse false s.
Proof. unfold sub; apply sub_whitespace_collapse. Qed.

Lemma join_cons_nonempty (sep p : str) (rest : list str) :
  rest <> [] -> join sep (p :: rest) = p ++ sep ++ join sep rest.
Proof. destruct rest; [congruence | reflexivity]. Qed.

Lemma join_nil_inv (sep : str) (parts : list str) :
  join sep parts = [] -> sep <> [] -> parts = [] \/ parts = [[]].
Proof.
  destruct parts as [|p [|q rest]]; cbn [join]; auto.
  - intros ->; auto.
  - intros E Hs; apply app_eq_nil in E; destruct E as [_ E].
    apply app_eq_nil in E; destruct E as [E _]; congruence.
Qed.

(** Trimming the collapsed text gives the tokens of [str.split] joined
    by single spaces; [word] is the token being read, last character
    first. *)
Lemma strip_collapse_join (s : str) :
  forall word,
    forallb solid word = true ->
    strip (rev word ++ collapse false s) = join (lit " ") (split_ws_from word s)
    /\ strip (rev word ++ " "%char :: collapse true s)
       = join (lit " ") (after_word word (split_ws_from [] s)).
Proof.
  induction s as [|c rest IH]; intros word Hw.
  - cbn [collapse split_ws_from after_word]; rewrite app_nil_r.
    destruct word as [|x word'].
    + split; reflexivity.
    + assert (Hsolid : forall y, starts_solid (rev (x :: word') ++ y))
        by (intros y; apply starts_solid_rev_word; [discriminate | exact Hw]).
      assert (Hr : rstrip (rev (x :: word')) = rev (x :: word'))
        by (apply rstrip_rev_solid, starts_solid_word, Hw).
      split.
      * rewrite strip_solid; [exact Hr|].
        rewrite <- (app_nil_r (rev (x :: word'))); apply Hsolid.
      * cbn [join]; rewrite strip_solid by apply Hsolid.
        rewrite rstrip_space_end by reflexivity; exact Hr.
  - destruct (isspace c) eqn:Sc.
    + destruct (IH word Hw) as [_ IH2].
      cbn [collapse split_ws_from]; rewrite Sc; split.
      * rewrite IH2; destruct word; reflexivity.
      * exact IH2.
    + assert (Hcw : forallb solid (c :: word) = true)
        by (cbn [forallb]; unfold solid at 1; rewrite Sc, Hw; reflexivity).
      destruct (IH (c :: word) Hcw) as [IH1 _].
      cbn [rev] in IH1; rewrite <- app_assoc in IH1; cbn [app] in IH1.
      cbn [collapse split_ws_from]; rewrite Sc; split; [exact IH1|].
      destruct (IH [c] ltac:(cbn [forallb]; unfold solid; rewrite Sc; reflexivity))
        as [IHc _].
      cbn [rev app] in IHc.
      set (X := c :: collapse false rest) in *.
      assert (HX : strip X = rstrip X) by (apply strip_solid; exact Sc).
      assert (HXne : rstrip X <> [])
        by (unfold X; rewrite rstrip_solid_cons by exact Sc; discriminate).
      destruct word as [|x word']; cbn [after_word].
      * cbn [rev app]; rewrite strip_space_cons by reflexivity; exact IHc.
      * rewrite join_cons_nonempty.
        2:{ intros E; rewrite E in IHc; cbn [join] in IHc; congruence. }
        rewrite <- IHc, HX.
        rewrite strip_solid
          by (apply starts_solid_rev_word; [discriminate | exact Hw]).
        change (rev (x :: word') ++ " "%char :: X)
          with (rev (x :: word') ++ lit " " ++ X).
        rewrite app_assoc, rstrip_app.
        destruct (rstrip X); [congruence|].
        rewrite <- app_assoc; reflexivity.
Qed.

(** Every token of [str.split] is a word. *)
Lemma split_ws_from_words (s : str) :
  forall word,
    forallb solid word = true ->
    forallb is_word (split_ws_from word s) = true.
Proof.
  assert (Hrev : forall x word', forallb solid (x :: word') = true ->
                                 is_word (rev (x :: word')) = true).
  { intros x word' Hw; unfold is_word.
    destruct (rev (x :: word')) eqn:E;
      [cbn [rev] in E; destruct (rev word'); discriminate|].
    rewrite <- E, forallb_rev; exact Hw. }
  induction s as [|c rest IH]; intros word Hw; cbn [split_ws_from].
  - destruct word as [|x word']; [reflexivity|].
    cbn [forallb]; rewrite Hrev by exact Hw; reflexivity.
  - destruct (isspace c) eqn:Sc.
    + destruct word as [|x word']; [apply IH; reflexivity|].
      cbn [forallb]; rewrite Hrev by exact Hw; apply IH; reflexivity.
    + apply IH; cbn [forallb]; unfold solid at 1; rewrite Sc; exact Hw.
Qed.

Lemma is_word_solid (w : str) : is_word w = true -> forallb solid w = true.
Proof. destruct w; [discriminate | auto]. Qed.

(** Joining words by single spaces and splitting again gives the words
    back. *)
Lemma split_ws_join (ws : list str) :
  forallb is_word ws = true ->
  split_ws (join (lit " ") ws) = ws.
Proof.
  unfold split_ws; induction ws as [|w rest IH]; [reflexivity|].
  cbn [forallb]; intros H; apply andb_prop in H; destruct H as [Hw Hrest].
  pose proof (is_word_solid _ Hw) as Hs.
  assert (Hrev : exists x r, rev w = x :: r).
  { destruct (rev w) as [|x r] eqn:E; [|eauto].
    apply (f_equal (@rev ascii)) in E; rewrite rev_involutive in E.
    subst w; discriminate. }
  destruct Hrev as [x [r Hrev]].
  destruct rest as [|q rest'].
  - cbn [join]; rewrite <- (app_nil_r w) at 1.
    rewrite split_ws_from_solid by exact Hs.
    cbn [split_ws_from]; rewrite app_nil_r, Hrev, <- Hrev, rev_involutive.
    reflexivity.
  - rewrite join_cons_nonempty by discriminate.
    rewrite split_ws_from_solid by exact Hs.
    rewrite app_nil_r, Hrev.
    cbn [app lit String.list_ascii_of_string split_ws_from].
    change (isspace " ") with true; cbn iota.
    rewrite <- Hrev, rev_involutive.
    f_equal; apply (IH Hrest).
Qed.

Lemma normalize_whitespace_join (text : str) :
  Preprocessor.normalize_whitespace text = join (lit " ") (split_ws text).
Proof.
  unfold Preprocessor.normalize_whitespace; rewrite sub_whitespace_is_collapse.
  apply (strip_collapse_join text []); reflexivity.
Qed.

Lemma split_ws_normalize (text : str) :
  split_ws (Preprocessor.normalize_whitespace text) = split_ws text.
Proof.
  rewrite normalize_whitespace_join.
  apply split_ws_join, split_ws_from_words; reflexivity.
Qed.

(** X2.  [normalize_whitespace(text)] is [' '.join(text.split())]: the
    words of the text, in order, with one space between two of them.  It
    keeps the words as they are, and applying it twice changes nothing
    more. *)
Theorem normalize_whitespace_words (text : str) :
  Preprocessor.normalize_whitespace text = join (lit " ") (split_ws text)
  /\ split_ws (Preprocessor.normalize_whitespace text) = split_ws text
  /\ Preprocessor.normalize_whitespace (Preprocessor.normalize_whitespace text)
     = Preprocessor.normalize_whitespace text.
Proof.
  split; [apply normalize_whitespace_join|].
  split; [apply split_ws_normalize|].
  rewrite (normalize_whitespace_join (Preprocessor.normalize_whitespace text)).
  rewrite split_ws_normalize; symmetry; apply normalize_whitespace_join.
Qed.

End Collapsing.

(** ** Patterns that end a run of one class with a character outside it *)

Section RunThenChar.

Lemma run_Chars (p : ascii -> bool) (k : cursor) (g : option str) :
  run (Chars p) k g
  = match ahead k with
    | c :: rest => if p c then [(advance k c rest, g)] else []
    | [] => []
    end.
Proof. reflexivity. Qed.

Lemma chars_in_run (p q : ascii -> bool) (k : cursor) (g : option str) (j : nat) :
  (forall c, p c = true -> q c = false) ->
  j < run_length p (ahead k) ->
  run (Chars q) (jump k j) g = [].
Proof.
  intros Hpq Hj; destruct (run_length_nth _ _ _ Hj) as [c [Hc Pc]].
  rewrite run_Chars, ahead_jump.
  destruct (skipn_nth_error _ _ _ Hc) as [rest ->].
  rewrite (Hpq _ Pc); reflexivity.
Qed.

Lemma flat_map_chars_in_run (p q : ascii -> bool) (k : cursor) (g : option str)
      (n : nat) :
  (forall c, p c = true -> q c = false) ->
  n < run_length p (ahead k) ->
  flat_map (fun st : mstate => run (Chars q) (fst st) (snd st))
           (map (fun j => (jump k j, g)) (rev (seq 1 n))) = [].
Proof.
  intros Hpq; induction n as [|n IH]; intros Hn; [reflexivity|].
  rewrite seq_S, rev_app_distr; cbn [rev app map flat_map fst snd Nat.add].
  rewrite (chars_in_run p q) by (auto; lia).
  apply IH; lia.
Qed.

(** [[p]+[q]] with [q] outside [p]: the whole run of [p], then [q]; no
    shorter run is followed by [q]. *)
Lemma run_plus_then_chars (p q : ascii -> bool) (k : cursor) (g : option str) :
  (forall c, p c = true -> q c = false) ->
  run (Cat (Plus (Chars p)) (Chars q)) k g
  = match run_length p (ahead k) with
    | O => []
    | S n =>
        match skipn (S n) (ahead k) with
        | c :: rest => if q c then [(advance (jump k (S n)) c rest, g)] else []
        | [] => []
        end
    end.
Proof.
  intros Hpq; rewrite run_Cat, run_plus_chars.
  destruct (run_length p (ahead k)) as [|n] eqn:En; [reflexivity|].
  rewrite seq_S, rev_app_distr; cbn [rev app map flat_map fst snd Nat.add].
  rewrite (flat_map_chars_in_run p q) by (auto; lia).
  rewrite app_nil_r, run_Chars, ahead_jump; reflexivity.
Qed.

Lemma run_length_all (p : ascii -> bool) (s : str) :
  forallb p s = true -> run_length p s = length s.
Proof.
  induction s as [|c s IH]; cbn [forallb run_length length]; [reflexivity|].
  destruct (p c); [intros H; rewrite IH by exact H; reflexivity | discriminate].
Qed.

Lemma run_length_stop (p : ascii -> bool) (s : str) (c : ascii) :
  nth_error s (run_length p s) = Some c -> p c = false.
Proof.
  induction s as [|x s IH]; cbn [run_length]; [discriminate|].
  destruct (p x) eqn:Px; cbn [nth_error]; [exact IH|].
  intros [= <-]; exact Px.
Qed.

(** A substitution leaves alone a text in which the pattern matches
    nowhere. *)
Lemma sub_from_unmatched (r : regex) (repl : list piece) (P : str -> Prop) :
  (forall c s, P (c :: s) -> P s) ->
  (forall k, P (ahead k) -> match_here r k = None) ->
  forall s before, P s -> sub_from r repl before s 0 = s.
Proof.
  intros Htail Hnone; induction s as [|c rest IH]; intros before HP; [reflexivity|].
  cbn [sub_from]; rewrite Hnone by exact HP.
  rewrite IH by (eapply Htail; exact HP); reflexivity.
Qed.

End RunThenChar.

(** ** [clean_html] *)

Section CleanHtml.
Import HelperSpec Passes.

Lemma match_here_html_tag (k : cursor) :
  match_here html_tag k
  = match tag_here (ahead k) with
    | Some n => Some (n, None)
    | None => None
    end.
Proof.
  unfold match_here, html_tag, tag_here, Chr.
  rewrite run_Cat, run_Chars.
  destruct k as [b [|c rest]]; cbn [ahead]; [reflexivity|].
  rewrite (Ascii.eqb_sym c "<").
  destruct (Ascii.eqb "<" c); [|reflexivity].
  cbn [flat_map fst snd]; rewrite app_nil_r.
  rewrite run_plus_then_chars
    by (intros x Hx; rewrite Ascii.eqb_sym; destruct (Ascii.eqb x ">");
        [discriminate | reflexivity]).
  cbn [advance ahead].
  pose proof (run_length_le (fun x => negb (Ascii.eqb x ">")) rest) as Hle.
  destruct (run_length (fun x => negb (Ascii.eqb x ">")) rest) as [|n] eqn:En;
    [reflexivity|].
  destruct (nth_error rest (S n)) as [x|] eqn:Ex.
  - destruct (skipn_nth_error _ _ _ Ex) as [rest' Hrest']; rewrite Hrest'.
    rewrite <- En in Ex; apply run_length_stop in Ex.
    rewrite Ascii.eqb_sym; destruct (Ascii.eqb x ">"); [|discriminate].
    cbn [advance ahead length].
    apply (f_equal (@length ascii)) in Hrest'.
    rewrite length_skipn in Hrest'; cbn [length] in Hrest'.
    repeat f_equal; lia.
  - rewrite (skipn_nth_error_none _ _ Ex); reflexivity.
Qed.

Lemma tag_here_markup (b c : str) :
  b <> [] -> forallb (fun x => negb (Ascii.eqb x ">")) b = true ->
  tag_here ("<"%char :: b ++ ">"%char :: c) = Some (S (S (length b))).
Proof.
  intros Hne Hb; unfold tag_here; cbn [Ascii.eqb Bool.eqb]; cbn iota.
  rewrite run_length_app by exact Hb; cbn [run_length Ascii.eqb Bool.eqb negb].
  rewrite Nat.add_0_r.
  destruct b as [|x b']; [congruence|]; cbn [length].
  change (S (length b')) with (length (x :: b')).
  rewrite nth_error_app2, Nat.sub_diag by lia; reflexivity.
Qed.

Lemma no_tag_opens_sound (s : str) : no_tag_opens s = true -> ~ has_markup s.
Proof.
  intros H [a [b [c [-> [Hne Hb]]]]].
  induction a as [|x a IH].
  - cbn [app no_tag_opens] in H.
    rewrite tag_here_markup in H by assumption; discriminate.
  - apply IH; cbn [app no_tag_opens] in H.
    destruct (tag_here _); [discriminate | exact H].
Qed.

Lemma no_tag_opens_tail (c : ascii) (s : str) :
  no_tag_opens (c :: s) = true -> no_tag_opens s = true.
Proof. cbn [no_tag_opens]; destruct (tag_here _); [discriminate | auto]. Qed.

Lemma no_tag_opens_here (s : str) : no_tag_opens s = true -> tag_here s = None.
Proof.
  destruct s as [|c s]; [reflexivity|].
  cbn [no_tag_opens]; destruct (tag_here _); [discriminate | reflexivity].
Qed.

(** Removing the tags leaves no place where a tag opens. *)
Lemma sub_html_tag_no_tag (s : str) :
  forall before skip, no_tag_opens (sub_from html_tag [] before s skip) = true.
Proof.
  induction s as [|c rest IH]; intros before skip; [reflexivity|].
  cbn [sub_from]; destruct skip as [|n]; [|apply IH].
  rewrite match_here_html_tag; cbn [ahead].
  destruct (tag_here (c :: rest)) as [[|n]|] eqn:Et.
  - unfold tag_here in Et; destruct (Ascii.eqb c "<"); [|discriminate].
    destruct (run_length _ rest); [discriminate|].
    destruct (nth_error rest _); discriminate.
  - cbn [expand flat_map app]; apply IH.
  - cbn [no_tag_opens]; rewrite IH.
    replace (tag_here (c :: sub_from html_tag [] (c :: before) rest 0)) with (@None nat);
      [reflexivity|].
    symmetry; unfold tag_here in Et |- *.
    destruct (Ascii.eqb c "<"); [|reflexivity].
    destruct rest as [|x rest']; [reflexivity|].
    cbn [run_length] in Et.
    destruct (negb (Ascii.eqb x ">")) eqn:Ex.
    + (* no [>] at all in what follows *)
      pose proof (run_length_le (fun y => negb (Ascii.eqb y ">")) rest') as Hle.
      destruct (nth_error (x :: rest') _) eqn:En in Et; [discriminate|].
      apply nth_error_None in En; cbn [length] in En.
      assert (Hall : forallb (fun y => negb (Ascii.eqb y ">")) (x :: rest') = true).
      { cbn [forallb]; rewrite Ex; cbn [andb].
        rewrite <- (firstn_all rest').
        replace (length rest') with (run_length (fun y => negb (Ascii.eqb y ">")) rest')
          by lia.
        apply run_length_firstn. }
      pose proof (sub_from_forallb (fun y => negb (Ascii.eqb y ">")) html_tag []
                    (x :: rest') ltac:(intros g; reflexivity) (c :: before) 0 Hall)
        as Hout.
      rewrite (run_length_all _ _ Hout).
      destruct (length (sub_from html_tag [] (c :: before) (x :: rest') 0)) eqn:El;
        [reflexivity|].
      rewrite <- El.
      rewrite (proj2 (nth_error_None _ _) (le_n _)); reflexivity.
    + (* the next character is [>] and stays *)
      cbn [sub_from]; rewrite match_here_html_tag; cbn [ahead tag_here].
      destruct (Ascii.eqb x ">") eqn:Eg; [|discriminate].
      apply Ascii.eqb_eq in Eg; subst x.
      cbn [Ascii.eqb Bool.eqb run_length negb]; reflexivity.
Qed.

Lemma clean_html_unchanged (s : str) :
  no_tag_opens s = true -> clean_html s = s.
Proof.
  intros H; unfold clean_html, sub.
  apply (sub_from_unmatched html_tag [] (fun s => no_tag_opens s = true));
    [apply no_tag_opens_tail | | exact H].
  intros k Hk; rewrite match_here_html_tag, (no_tag_opens_here _ Hk); reflexivity.
Qed.

(** X1.  What [clean_html] returns holds no tag any more: no [<] followed
    by one or more characters other than [>] and then [>].  Cleaning a
    second time therefore changes nothing. *)
Theorem clean_html_no_markup (text : str) :
  ~ has_markup (clean_html text)
  /\ clean_html (clean_html text) = clean_html text.
Proof.
  pose proof (sub_html_tag_no_tag text [] 0) as H.
  split; [apply no_tag_opens_sound, H | apply clean_html_unchanged, H].
Qed.

End CleanHtml.

(** ** Patterns that need a character the text does not have *)

Section Requires.
Import Passes.

Lemma skipn_skipn {A : Type} (n m : nat) (l : list A) :
  skipn n (skipn m l) = skipn (m + n) l.
Proof.
  revert l; induction m as [|m IH]; intros l; [reflexivity|].
  destruct l as [|x l]; cbn [skipn Nat.add]; [destruct n; reflexivity | apply IH].
Qed.




Lemma lacks_skipn (c : ascii) (n : nat) (s : str) :
  lacks c s = true -> lacks c (skipn n s) = true.
Proof.
  unfold lacks; revert s; induction n as [|n IH]; intros s; [auto|].
  destruct s as [|x s]; cbn [skipn forallb]; [auto|].
  intros H; apply andb_prop in H; destruct H as [_ H]; apply IH, H.
Qed.



Lemma lacks_tail (c x : ascii) (s : str) : lacks c (x :: s) = true -> lacks c s = true.
Proof.
  unfold lacks; cbn [forallb]; intros H; apply andb_prop in H; tauto.
Qed.


End Requires.

(** ** [remove_special_characters] and [preprocess_text] *)

Section PreprocessFacts.
Import HelperSpec Passes.

Lemma filter_weaker {A : Type} (p q : A -> bool) (l : list A) :
  (forall a, q a = true -> p a = true) -> filter q (filter p l) = filter q l.
Proof.
  intros Hqp; induction l as [|a l IH]; [reflexivity|].
  cbn [filter]; destruct (p a) eqn:Pa; cbn [filter].
  - rewrite IH; reflexivity.
  - destruct (q a) eqn:Qa; [rewrite (Hqp _ Qa) in Pa; discriminate | exact IH].
Qed.


Lemma sub_special_filter (s : str) : sub special [] s = filter kept s.
Proof.
  unfold sub, special; rewrite sub_chars_filter.
  apply filter_ext; intros c; apply negb_involutive.
Qed.

Lemma sub_not_word_or_space_filter (s : str) :
  sub not_word_or_space [] s = filter (fun c => isword c || isspace c)%bool s.
Proof.
  unfold sub, not_word_or_space; rewrite sub_chars_filter.
  apply filter_ext; intros c; apply negb_involutive.
Qed.

(** X3.  [remove_special_characters] drops the characters outside the
    class it keeps and nothing else: the result is the text filtered by
    the class, in order.  The strict class (word characters and
    whitespace) lies inside the lenient one, so the strict mode applied to
    the result of the lenient mode is the strict mode; each mode applied
    twice is itself. *)
Theorem remove_special_characters_filter (text : str) :
  remove_special_characters text true = filter kept text
  /\ remove_special_characters text false
     = filter (fun c => isword c || isspace c)%bool text
  /\ remove_special_characters (remove_special_characters text true) false
     = remove_special_characters text false
  /\ remove_special_characters (remove_special_characters text true) true
     = remove_special_characters text true
  /\ remove_special_characters (remove_special_characters text false) false
     = remove_special_characters text false.
Proof.
  unfold remove_special_characters.
  rewrite !sub_special_filter, !sub_not_word_or_space_filter.
  repeat split.
  - apply filter_weaker; intros c Hc; unfold kept.
    rewrite <- !orb_assoc; rewrite orb_assoc, Hc; reflexivity.
  - apply filter_weaker; auto.
  - apply filter_weaker; auto.
Qed.

(** Characters *)



Lemma lower_char_idempotent (c : ascii) : lower_char (lower_char c) = lower_char c.
Proof.
  pose proof (forall_chars
    (fun c => Ascii.eqb (lower_char (lower_char c)) (lower_char c))
    ltac:(vm_compute; reflexivity) c) as H.
  apply Ascii.eqb_eq in H; exact H.
Qed.

Lemma lower_idempotent (s : str) : lower (lower s) = lower s.
Proof.
  unfold lower; rewrite map_map; apply map_ext; intros c.
  apply lower_char_idempotent.
Qed.




Lemma split_ws_lowered_lower (text : str) :
  forall w, In w (split_ws (lowered text)) -> lower w = w.
Proof.
  intros w Hw; unfold lowered, split_ws in Hw.
  change (@nil ascii) with (lower []) in Hw.
  rewrite split_ws_from_lower in Hw.
  apply in_map_iff in Hw; destruct Hw as [w' [<- _]].
  apply lower_idempotent.
Qed.

(** The two results of [preprocess_text] on a text that is not empty:
    the words of the lowered text, all of them or those that are no stop
    words, with one space between two of them. *)
Lemma preprocess_text_words (text : str) :
  text <> [] ->
  preprocess_text (Some text) false = join (lit " ") (split_ws (lowered text))
  /\ preprocess_text (Some text) true
     = join (lit " ") (filter not_stopword (split_ws (lowered text))).
Proof.
  destruct text as [|c0 t0]; [congruence|]; intros _.
  unfold preprocess_text; fold (lowered (c0 :: t0)).
  set (L := lowered (c0 :: t0)).
  fold (normalize_whitespace L).
  fold (normalize_whitespace
          (join (lit " ")
             (filter (fun word => negb (is_stopword (lower word))) (split_ws L)))).
  rewrite !normalize_whitespace_join; split; [reflexivity|].
  assert (E : filter (fun word => negb (is_stopword (lower word))) (split_ws L)
              = filter not_stopword (split_ws L)).
  { apply filter_ext_in; intros w Hw; unfold not_stopword.
    rewrite (split_ws_lowered_lower _ _ Hw); reflexivity. }
  rewrite E, split_ws_join; [reflexivity|].
  apply filter_forallb, split_ws_from_words; reflexivity.
Qed.








(** X5.  With [remove_stopwords=True] the result is the result without
    it, less its stop words: the words of the plain result that are not
    in [STOPWORDS], in order, with one space between two of them.  No word
    of the result is a stop word. *)
Theorem preprocess_text_stopwords (text : option str) :
  preprocess_text text true
  = join (lit " ")
      (filter not_stopword (split_ws (preprocess_text text false)))
  /\ forallb not_stopword (split_ws (preprocess_text text true)) = true.
Proof.
  destruct text as [[|c0 t0]|]; [split; reflexivity | | split; reflexivity].
  destruct (preprocess_text_words (c0 :: t0) ltac:(discriminate)) as [E0 E1].
  pose proof (split_ws_from_words (lowered (c0 :: t0)) [] eq_refl) as Hw.
  fold (split_ws (lowered (c0 :: t0))) in Hw.
  rewrite E0, E1, !split_ws_join;
    [|apply filter_forallb, Hw | exact Hw].
  split; [reflexivity | apply forallb_filter_same].
Qed.


End PreprocessFacts.

(** ** Sentence endings *)

Section Endings.
Import TextSpec HelperSpec.

Lemma endswith_char (s : str) (c : ascii) :
  endswith s [c] = match rev s with
                   | x :: _ => Ascii.eqb x c
                   | [] => false
                   end.
Proof.
  unfold endswith; cbn [rev app].
  destruct (rev s) as [|x r]; [reflexivity|].
  cbn [startswith]; destruct r; apply andb_true_r.
Qed.

Lemma endswith_char_app (t : str) (x c : ascii) :
  endswith (t ++ [x]) [c] = Ascii.eqb x c.
Proof. rewrite endswith_char, rev_app_distr; reflexivity. Qed.

Lemma nonempty_last {A : Type} (s : list A) : s <> [] -> exists t x, s = t ++ [x].
Proof.
  intros H; destruct (rev s) as [|x r] eqn:E.
  - apply (f_equal (@rev A)) in E; rewrite rev_involutive in E; contradiction.
  - exists (rev r), x.
    apply (f_equal (@rev A)) in E; rewrite rev_involutive in E; exact E.
Qed.

(** A trimmed text with a character that is no whitespace put after it
    is trimmed. *)
Lemma strip_stripped_app (s : str) (c : ascii) :
  isspace c = false -> strip (strip s ++ [c]) = strip s ++ [c].
Proof.
  intros Hc; rewrite strip_solid.
  - apply rstrip_solid_end, Hc.
  - pose proof (strip_starts_solid s) as H.
    destruct (strip s); [exact Hc | exact H].
Qed.




(** The last step of [postprocess_summary]. *)
Lemma closing_step (p : str) :
  match p with
  | [] => p
  | _ => if negb (endswith p (lit ".")) then p ++ lit "." else p
  end
  = match rev p with
    | [] => []
    | x :: _ => if Ascii.eqb x "." then p else p ++ lit "."
    end.
Proof.
  change (lit ".") with ["."%char]; rewrite endswith_char.
  destruct p as [|y p']; [reflexivity|].
  destruct (rev (y :: p')) as [|x r] eqn:Er.
  - cbn [rev] in Er; destruct (rev p'); discriminate.
  - destruct (Ascii.eqb x "."); reflexivity.
Qed.

Lemma postprocess_summary_closed (summary : str) (max_sentences : Z) :
  postprocess_summary summary max_sentences = []
  \/ exists t, postprocess_summary summary max_sentences = t ++ lit ".".
Proof.
  unfold postprocess_summary.
  destruct summary as [|c0 t0]; [left; reflexivity|].
  set (p := strip (join (lit " ") _)).
  rewrite (closing_step p).
  destruct (rev p) as [|x r] eqn:Er; [left; reflexivity|].
  right; destruct (Ascii.eqb_spec x "."); [|eauto].
  subst x; exists (rev r).
  apply (f_equal (@rev ascii)) in Er; rewrite rev_involutive in Er; exact Er.
Qed.

(** X8.  What [postprocess_summary] returns is empty or ends with a full
    stop (a summary that ends with [!] or [?] gets a full stop put after
    it), and it neither starts nor ends with whitespace.  With
    [max_sentences = 0], as for an empty summary, the result is empty. *)
Theorem postprocess_summary_ends_with_period (summary : str) (max_sentences : Z) :
  (postprocess_summary summary max_sentences = []
   \/ exists t, postprocess_summary summary max_sentences = t ++ lit ".")
  /\ strip (postprocess_summary summary max_sentences)
     = postprocess_summary summary max_sentences
  /\ postprocess_summary summary 0 = []
  /\ postprocess_summary [] max_sentences = [].
Proof.
  assert (Hshape : forall m,
             exists l, postprocess_summary summary m
                       = match rev (strip (join (lit " ") l)) with
                         | [] => []
                         | x :: _ => if Ascii.eqb x "."
                                     then strip (join (lit " ") l)
                                     else strip (join (lit " ") l) ++ lit "."
                         end
                       /\ (m = 0%Z -> l = [])).
  { intros m; unfold postprocess_summary.
    destruct summary as [|c0 t0]; [exists []; split; reflexivity|].
    set (sentences := split_sentences _).
    exists (if (len sentences >? m)%Z then slice_to sentences m else sentences).
    split; [apply closing_step|].
    intros ->; destruct (Z.gtb_spec (len sentences) 0); [reflexivity|].
    unfold len in *; destruct sentences; [reflexivity | cbn [length] in *; lia]. }
  split; [|split; [|split]].
  - destruct (Hshape max_sentences) as [l [-> _]].
    destruct (rev (strip (join (lit " ") l))) as [|x r] eqn:Er; [left; reflexivity|].
    right; destruct (Ascii.eqb_spec x "."); [|eauto].
    subst x; exists (rev r).
    apply (f_equal (@rev ascii)) in Er; rewrite rev_involutive in Er; exact Er.
  - destruct (Hshape max_sentences) as [l [-> _]].
    destruct (rev (strip (join (lit " ") l))) as [|x r] eqn:Er; [reflexivity|].
    destruct (Ascii.eqb x "."); [apply strip_idempotent|].
    apply strip_stripped_app; reflexivity.
  - destruct (Hshape 0%Z) as [l [-> Hl]]; rewrite (Hl eq_refl); reflexivity.
  - reflexivity.
Qed.

End Endings.

(** ** What a match passes over and what its group holds *)

Section Groups.
Import HelperSpec Passes.

Lemma reached_here (k : cursor) (g : option str) : reached k g (k, g) 0.
Proof. repeat split; [lia | left; reflexivity]. Qed.

Lemma reached_trans (k : cursor) (g : option str) (st1 st : mstate) (n1 n2 : nat) :
  reached k g st1 n1 -> reached (fst st1) (snd st1) st n2 ->
  reached k g st (n1 + n2).
Proof.
  intros [Hn1 [Ha1 Hg1]] [Hn2 [Ha2 Hg2]].
  rewrite Ha1 in Hn2, Ha2, Hg2; rewrite length_skipn in Hn2.
  rewrite skipn_skipn in Ha2.
  split; [lia|]; split; [exact Ha2|].
  destruct Hg2 as [Hg2|[a [b [Hg2 Hab]]]].
  - rewrite Hg2; destruct Hg1 as [Hg1|[a [b [Hg1 Hab]]]]; [left; exact Hg1|].
    right; exists a, b; split; [exact Hg1 | lia].
  - right; exists a, (n1 + b); rewrite skipn_skipn in Hg2.
    split; [exact Hg2 | lia].
Qed.

Lemma greedy_more_reached (step : cursor -> option str -> list mstate) :
  (forall k g st, In st (step k g) -> exists n, reached k g st n) ->
  forall fuel k g st,
    In st (greedy_more step fuel k g) -> exists n, reached k g st n.
Proof.
  intros Hstep; induction fuel as [|fuel IH]; intros k g st; cbn [greedy_more];
    [intros []|].
  intros H; apply in_flat_map in H; destruct H as [st1 [H1 H]].
  destruct (Hstep _ _ _ H1) as [m Hm].
  apply in_app_or in H; destruct H as [H|[<-|[]]]; [|eauto].
  destruct (_ <? _); [|destruct H].
  destruct (IH _ _ _ H) as [n Hn].
  exists (m + n); eapply reached_trans; eauto.
Qed.

Lemma lazy_more_reached (step : cursor -> option str -> list mstate) :
  (forall k g st, In st (step k g) -> exists n, reached k g st n) ->
  forall fuel k g st,
    In st (lazy_more step fuel k g) -> exists n, reached k g st n.
Proof.
  intros Hstep; induction fuel as [|fuel IH]; intros k g st; cbn [lazy_more].
  - intros [<-|[]]; exists 0; apply reached_here.
  - intros [<-|H]; [exists 0; apply reached_here|].
    apply in_flat_map in H; destruct H as [st1 [H1 H]].
    destruct (Hstep _ _ _ H1) as [m Hm].
    destruct (_ <? _); [|destruct H].
    destruct (IH _ _ _ H) as [n Hn].
    exists (m + n); eapply reached_trans; eauto.
Qed.

Lemma run_reached (r : regex) :
  forall k g st, In st (run r k g) -> exists n, reached k g st n.
Proof.
  induction r as [|p|r1 IH1 r2 IH2|r1 IH1 r2 IH2|r1 IH1|r1 IH1|r1 IH1|r1 IH1|
                  |p|p]; intros k g st; cbn [run].
  - intros [<-|[]]; exists 0; apply reached_here.
  - destruct k as [b [|c rest]]; cbn [ahead]; [intros []|].
    destruct (p c); [|intros []].
    intros [<-|[]]; exists 1; repeat split; cbn [ahead length]; [lia | left; reflexivity].
  - intros H; apply in_flat_map in H; destruct H as [st1 [H1 H]].
    destruct (IH1 _ _ _ H1) as [m Hm], (IH2 _ _ _ H) as [n Hn].
    exists (m + n); eapply reached_trans; eauto.
  - intros H; apply in_app_or in H; destruct H as [H|H]; eauto.
  - intros H; apply in_app_or in H; destruct H as [H|[<-|[]]]; [eauto|].
    exists 0; apply reached_here.
  - apply greedy_more_reached, IH1.
  - apply lazy_more_reached, IH1.
  - intros H; apply in_map_iff in H; destruct H as [st1 [<- H1]].
    destruct (IH1 _ _ _ H1) as [m [Hm [Ha _]]].
    exists m; split; [exact Hm|]; split; [exact Ha|].
    right; exists m, 0; cbn [fst snd skipn]; split; [|lia].
    unfold consumed; rewrite Ha, length_skipn.
    replace (length (ahead k) - (length (ahead k) - m)) with m by lia; reflexivity.
  - destruct (behind k) as [|c ?]; [intros [<-|[]]; exists 0; apply reached_here|].
    destruct (Ascii.eqb c "010"); [|intros []].
    intros [<-|[]]; exists 0; apply reached_here.
  - destruct (behind k) as [|c ?]; [intros []|].
    destruct (p c); [|intros []].
    intros [<-|[]]; exists 0; apply reached_here.
  - destruct (ahead k) as [|c ?] eqn:E; [intros []|].
    destruct (p c); [|intros []].
    intros [<-|[]]; exists 0; apply reached_here.
Qed.

(** The match that is reported lies inside the text, and so does its
    group. *)
Lemma match_here_group (r : regex) (k : cursor) (n : nat) (g : option str) :
  match_here r k = Some (n, g) ->
  n <= length (ahead k)
  /\ (g = None
      \/ exists a b, g = Some (firstn a (skipn b (ahead k))) /\ a + b <= n).
Proof.
  unfold match_here; destruct (run r k None) as [|[k' g'] l] eqn:E; [discriminate|].
  intros [= <- <-].
  destruct (run_reached r k None (k', g') ltac:(rewrite E; left; reflexivity))
    as [m [Hm [Ha Hg]]].
  cbn [fst snd] in Ha, Hg; rewrite Ha, length_skipn.
  replace (length (ahead k) - (length (ahead k) - m)) with m by lia.
  split; [exact Hm | exact Hg].
Qed.

Lemma count_app (c : ascii) (s t : str) : count c (s ++ t) = count c s + count c t.
Proof. apply count_occ_app. Qed.

Lemma count_firstn_skipn (c : ascii) (n : nat) (s : str) :
  count c s = count c (firstn n s) + count c (skipn n s).
Proof. rewrite <- count_app, firstn_skipn; reflexivity. Qed.

Lemma count_piece (c : ascii) (a b n : nat) (s : str) :
  a + b <= n -> count c (firstn a (skipn b s)) <= count c (firstn n s).
Proof.
  revert n s; induction b as [|b IH]; intros n s Hn.
  - cbn [skipn]; revert n s Hn; induction a as [|a IHa]; intros n s Hn;
      [cbn; lia|].
    destruct n as [|n]; [lia|]; destruct s as [|x s]; [cbn; lia|].
    cbn [firstn]; unfold count in *; cbn [count_occ].
    specialize (IHa n s ltac:(lia)); destruct (ascii_dec x c); lia.
  - destruct n as [|n]; [lia|]; destruct s as [|x s].
    + cbn [skipn]; rewrite !firstn_nil; lia.
    + cbn [skipn firstn]; specialize (IH n s ltac:(lia)).
      unfold count in *; cbn [count_occ]; destruct (ascii_dec x c); lia.
Qed.

Lemma expand_group1 (g : option str) :
  expand [Group1] g = match g with Some x => x | None => [] end.
Proof. destruct g; cbn [expand flat_map]; [apply app_nil_r | reflexivity]. Qed.

(** A substitution that puts back at most the group does not add an
    occurrence of any character. *)
Lemma sub_from_count (c : ascii) (r : regex) (repl : list piece) (s : str) :
  (forall g, count c (expand repl g) <= count c (expand [Group1] g)) ->
  forall before skip,
    skip <= length s ->
    count c (sub_from r repl before s skip) <= count c (skipn skip s).
Proof.
  intros Hrepl; induction s as [|x rest IH]; intros before skip Hskip.
  - cbn [sub_from]; cbn; lia.
  - cbn [sub_from]; destruct skip as [|n].
    + cbn [skipn].
      destruct (match_here r _) as [[[|n] g]|] eqn:Em.
      * specialize (IH (x :: before) 0 ltac:(lia)); cbn [skipn] in IH.
        unfold count in *; cbn [count_occ]; destruct (ascii_dec x c); lia.
      * destruct (match_here_group _ _ _ _ Em) as [Hn Hg]; cbn [ahead] in Hn, Hg.
        cbn [length] in Hn.
        specialize (IH (x :: before) n ltac:(lia)).
        rewrite count_app, (count_firstn_skipn c (S n) (x :: rest)).
        cbn [skipn].
        specialize (Hrepl g); rewrite expand_group1 in Hrepl.
        destruct Hg as [->|[a [b [-> Hab]]]].
        -- cbn in Hrepl; lia.
        -- pose proof (count_piece c a b (S n) (x :: rest) Hab); lia.
      * specialize (IH (x :: before) 0 ltac:(lia)); cbn [skipn] in IH.
        unfold count in *; cbn [count_occ]; destruct (ascii_dec x c); lia.
    + cbn [skipn]; apply IH; cbn [length] in Hskip; lia.
Qed.

Lemma sub_count (c : ascii) (r : regex) (repl : list piece) (s : str) :
  (forall g, count c (expand repl g) <= count c (expand [Group1] g)) ->
  count c (sub r repl s) <= count c s.
Proof.
  intros H; apply (sub_from_count c r repl s H [] 0); lia.
Qed.

Lemma forallb_firstn {A : Type} (Q : A -> bool) (n : nat) (l : list A) :
  forallb Q l = true -> forallb Q (firstn n l) = true.
Proof.
  revert l; induction n as [|n IH]; intros [|x l]; cbn [firstn forallb]; auto.
  intros H; apply andb_prop in H; destruct H as [-> H]; apply IH, H.
Qed.

Lemma forallb_skipn {A : Type} (Q : A -> bool) (n : nat) (l : list A) :
  forallb Q l = true -> forallb Q (skipn n l) = true.
Proof.
  revert l; induction n as [|n IH]; intros [|x l]; cbn [skipn forallb]; auto.
  intros H; apply andb_prop in H; destruct H as [_ H]; apply IH, H.
Qed.

(** What holds of every character of the subject holds of every
    character of the result when the group is put back. *)
Lemma sub_from_group_forallb (Q : ascii -> bool) (r : regex) (s : str) :
  forall before skip,
    forallb Q s = true ->
    forallb Q (sub_from r [Group1] before s skip) = true.
Proof.
  induction s as [|x rest IH]; intros before skip; [reflexivity|].
  cbn [sub_from]; intros H; pose proof H as Hx.
  cbn [forallb] in Hx; apply andb_prop in Hx; destruct Hx as [Hx Hrest].
  destruct skip as [|n]; [|apply IH, Hrest].
  destruct (match_here r _) as [[[|n] g]|] eqn:Em.
  - cbn [forallb]; rewrite Hx; apply IH, Hrest.
  - rewrite forallb_app, IH by exact Hrest.
    destruct (match_here_group _ _ _ _ Em) as [_ Hg]; cbn [ahead] in Hg.
    rewrite expand_group1, andb_true_r.
    destruct Hg as [->|[a [b [-> _]]]]; [reflexivity|].
    apply forallb_firstn, forallb_skipn, H.
  - cbn [forallb]; rewrite Hx; apply IH, Hrest.
Qed.

End Groups.

(** ** Paired delimiters: the patterns [italic] and [code] *)

Section Delimiters.
Import TextSpec HelperSpec Passes.

(** Every way [p*?] matches: no character first, then one more at a
    time, up to the whole leading run. *)
Lemma lazy_chars (p : ascii -> bool) :
  forall fuel k g,
    length (ahead k) < fuel ->
    lazy_more (run (Chars p)) fuel k g
    = map (fun j => (jump k j, g)) (seq 0 (S (run_length p (ahead k)))).
Proof.
  induction fuel as [|fuel IH]; intros [b a] g Hf; [lia|].
  simpl in Hf; destruct a as [|c rest]; [reflexivity|].
  cbn [lazy_more run ahead run_length].
  destruct (p c) eqn:Pc; [|reflexivity].
  cbn [flat_map fst snd advance ahead behind].
  replace (length rest <? length (c :: rest)) with true
    by (symmetry; apply Nat.ltb_lt; simpl; lia).
  rewrite IH by (simpl in *; lia).
  rewrite app_nil_r.
  change (seq 0 (S (S (run_length p rest))))
    with (0 :: seq 1 (S (run_length p rest))).
  cbn [map jump]; f_equal.
  rewrite <- (seq_shift (S (run_length p rest)) 0), map_map; reflexivity.
Qed.

Lemma flat_map_map {A B C : Type} (f : B -> list C) (g : A -> B) (l : list A) :
  flat_map f (map g l) = flat_map (fun x => f (g x)) l.
Proof.
  induction l as [|a l IH]; [reflexivity|].
  cbn [map flat_map]; rewrite IH; reflexivity.
Qed.

Lemma close_at_some (d : ascii) (s : str) :
  forall j, close_at d s = Some j -> j < length s /\ count d (firstn j s) = 0.
Proof.
  induction s as [|c rest IH]; intros j; cbn [close_at]; [discriminate|].
  destruct (Ascii.eqb_spec c d) as [->|Hc].
  - intros [= <-]; cbn [length firstn]; split; [lia | reflexivity].
  - destruct (dot c); [|discriminate].
    destruct (close_at d rest) as [j'|]; [|discriminate].
    intros [= <-]; destruct (IH j' eq_refl) as [Hj Hcount].
    cbn [length firstn]; split; [lia|].
    unfold count in *; cbn [count_occ].
    destruct (ascii_dec c d); [contradiction | exact Hcount].
Qed.

Lemma close_at_none (d : ascii) (s : str) :
  close_at d s = None -> lacks "010" s = true -> count d s = 0.
Proof.
  unfold lacks; induction s as [|c rest IH]; cbn [close_at forallb]; [reflexivity|].
  intros H Hl; apply andb_prop in Hl; destruct Hl as [Hc Hl].
  destruct (Ascii.eqb_spec c d) as [->|Hcd]; [discriminate|].
  unfold dot in H; rewrite Hc in H.
  destruct (close_at d rest); [discriminate|].
  unfold count in *; cbn [count_occ].
  destruct (ascii_dec c d); [contradiction | apply IH; auto].
Qed.

(** The ways the closing delimiter is found after the ways of [(.*?)],
    from the [j0]-th character after the opening delimiter on. *)
Lemma closing_candidates (d : ascii) (k1 : cursor) :
  forall rest' j0,
    rest' = skipn j0 (ahead k1) ->
    j0 <= length (ahead k1) ->
    match flat_map
            (fun j => run (Chr d) (jump k1 j) (Some (consumed k1 (jump k1 j))))
            (seq j0 (S (run_length dot rest')))
    with
    | [] => close_at d rest' = None
    | (k', g') :: _ =>
        exists j, close_at d rest' = Some j
                  /\ length (ahead k') = length rest' - S j
                  /\ g' = Some (firstn (j0 + j) (ahead k1))
    end.
Proof.
  induction rest' as [|c rest'' IH]; intros j0 Hrest Hj0.
  - cbn [run_length seq flat_map]; unfold Chr; rewrite run_Chars, ahead_jump, <- Hrest.
    reflexivity.
  - assert (Hnext : rest'' = skipn (S j0) (ahead k1)).
    { replace (S j0) with (j0 + 1) by lia.
      rewrite <- skipn_skipn, <- Hrest; reflexivity. }
    assert (Hlen : S j0 <= length (ahead k1)).
    { apply (f_equal (@length ascii)) in Hrest.
      rewrite length_skipn in Hrest; cbn [length] in Hrest; lia. }
    cbn [seq flat_map]; unfold Chr at 1; rewrite run_Chars, ahead_jump, <- Hrest.
    rewrite Ascii.eqb_sym; cbn [close_at].
    destruct (Ascii.eqb c d) eqn:Ecd.
    + cbn [app]; exists 0; split; [reflexivity|].
      cbn [advance ahead length]; split; [lia|].
      unfold consumed; rewrite length_ahead_jump by lia.
      rewrite Nat.add_0_r; reflexivity.
    + cbn [app run_length]; destruct (dot c).
      * specialize (IH (S j0) Hnext Hlen).
        destruct (flat_map _ (seq (S j0) _)) as [|[k' g'] l].
        -- rewrite IH; reflexivity.
        -- destruct IH as [j [-> [Hl Hg]]]; exists (S j).
           split; [reflexivity|]; cbn [length]; split; [lia|].
           rewrite Hg; do 2 f_equal; lia.
      * reflexivity.
Qed.

Lemma run_Group (r : regex) (k : cursor) (g : option str) :
  run (Group r) k g
  = map (fun st : mstate => (fst st, Some (consumed k (fst st)))) (run r k g).
Proof. reflexivity. Qed.

Lemma run_LazyStar (r : regex) (k : cursor) (g : option str) :
  run (LazyStar r) k g = lazy_more (run r) (S (length (ahead k))) k g.
Proof. reflexivity. Qed.

(** What the matcher finds for [d(.*?)d] at a position. *)
Lemma match_here_delimited (d : ascii) (k : cursor) :
  match_here (delimited d) k
  = match ahead k with
    | c :: rest =>
        if Ascii.eqb c d
        then match close_at d rest with
             | Some j => Some (S (S j), Some (firstn j rest))
             | None => None
             end
        else None
    | [] => None
    end.
Proof.
  unfold match_here, delimited.
  rewrite run_Cat.
  change (run (Chr d) k None) with (run (Chars (Ascii.eqb d)) k None).
  rewrite run_Chars.
  destruct k as [b [|c rest]]; cbn [ahead]; [reflexivity|].
  rewrite Ascii.eqb_sym; destruct (Ascii.eqb c d); [|reflexivity].
  cbn [flat_map fst snd]; rewrite app_nil_r.
  set (k1 := advance {| behind := b; ahead := c :: rest |} c rest).
  rewrite run_Cat, run_Group, run_LazyStar, lazy_chars by lia.
  rewrite map_map, flat_map_map; cbn [fst snd].
  pose proof (closing_candidates d k1 rest 0 eq_refl ltac:(lia)) as H.
  change (ahead k1) with rest in *.
  destruct (flat_map _ _) as [|[k' g'] l].
  - rewrite H; reflexivity.
  - destruct H as [j [Hj [Hl Hg]]]; rewrite Hj.
    destruct (close_at_some _ _ _ Hj) as [Hlt _].
    rewrite Hl, Hg; cbn [length Nat.add]; do 2 f_equal; lia.
Qed.

Lemma sub_from_skip (r : regex) (repl : list piece) (n : nat) :
  forall s before,
    n <= length s ->
    sub_from r repl before s n
    = sub_from r repl (rev (firstn n s) ++ before) (skipn n s) 0.
Proof.
  induction n as [|n IH]; intros s before Hn; [reflexivity|].
  destruct s as [|c rest]; [cbn [length] in Hn; lia|].
  cbn [sub_from firstn skipn rev].
  rewrite IH by (cbn [length] in Hn; lia).
  rewrite <- app_assoc; reflexivity.
Qed.

Lemma count_lacks (c : ascii) (s : str) : count c s = 0 <-> lacks c s = true.
Proof.
  unfold count, lacks; induction s as [|x s IH]; cbn [count_occ forallb]; [tauto|].
  destruct (ascii_dec x c) as [->|Hx].
  - rewrite Ascii.eqb_refl; cbn [negb andb]; split; [lia | discriminate].
  - apply Ascii.eqb_neq in Hx; rewrite Hx; cbn [negb andb]; exact IH.
Qed.

(** On one line, after the pairs [d...d] were unwrapped at most one [d]
    is left. *)
Lemma sub_delimited_count (d : ascii) (m : nat) :
  forall s before,
    length s <= m ->
    lacks "010" s = true ->
    count d (sub_from (delimited d) [Group1] before s 0) <= 1.
Proof.
  induction m as [|m IH]; intros s before Hm Hl.
  - destruct s; [cbn; lia | cbn [length] in Hm; lia].
  - destruct s as [|c rest]; [cbn; lia|].
    cbn [length] in Hm; pose proof (lacks_tail _ _ _ Hl) as Hrest.
    cbn [sub_from]; rewrite match_here_delimited; cbn [ahead].
    destruct (Ascii.eqb_spec c d) as [->|Hc].
    + destruct (close_at d rest) as [j|] eqn:Ej.
      * destruct (close_at_some _ _ _ Ej) as [Hj Hcount].
        rewrite expand_group1, count_app, Hcount.
        rewrite sub_from_skip by lia.
        apply IH; [rewrite length_skipn; lia|].
        apply lacks_skipn, Hrest.
      * pose proof (sub_count d (delimited d) [Group1] rest ltac:(intros; lia)) as Hle.
        pose proof (sub_from_count d (delimited d) [Group1] rest
                      ltac:(intros; lia) (d :: before) 0 ltac:(lia)) as Hle'.
        cbn [skipn] in Hle'; rewrite (close_at_none _ _ Ej Hrest) in Hle'.
        unfold count in *; cbn [count_occ].
        destruct (ascii_dec d d); [lia | contradiction].
    + specialize (IH rest (c :: before) ltac:(lia) Hrest).
      unfold count in *; cbn [count_occ].
      destruct (ascii_dec c d); [contradiction | exact IH].
Qed.

Lemma sub_delimited_once (d : ascii) (s : str) :
  lacks "010" s = true -> count d (sub (delimited d) [Group1] s) <= 1.
Proof. intros H; apply (sub_delimited_count d (length s)); [lia | exact H]. Qed.

End Delimiters.

(** ** Markdown emphasis in [postprocess_summary] *)

Section Emphasis.
Import TextSpec HelperSpec Passes.

Lemma count_strip (c : ascii) (s : str) : count c (strip s) <= count c s.
Proof.
  destruct (strip_infix s) as [a [b E]].
  rewrite E at 2; rewrite !count_app; lia.
Qed.

Lemma count_join (c : ascii) (sep : str) (l : list str) :
  count c sep = 0 -> count c (join sep l) = count c (concat l).
Proof.
  intros Hsep; induction l as [|p rest IH]; [reflexivity|].
  destruct rest as [|q rest'].
  - cbn [join concat]; rewrite app_nil_r; reflexivity.
  - rewrite join_cons_nonempty by discriminate.
    cbn [concat] in *; rewrite !count_app, Hsep, IH, count_app; reflexivity.
Qed.

Lemma count_concat_firstn (c : ascii) (n : nat) (l : list str) :
  count c (concat (firstn n l)) <= count c (concat l).
Proof.
  revert l; induction n as [|n IH]; intros [|p l]; cbn [firstn concat];
    try (cbn; lia).
  rewrite !count_app; specialize (IH l); lia.
Qed.

Lemma count_concat_slice_to (c : ascii) (l : list str) (n : Z) :
  count c (concat (slice_to l n)) <= count c (concat l).
Proof. unfold slice_to; destruct (n <? 0)%Z; apply count_concat_firstn. Qed.

Lemma count_concat_long_enough (c : ascii) (l : list str) :
  count c (concat (long_enough l)) <= count c (concat l).
Proof.
  unfold long_enough; induction l as [|p l IH]; [reflexivity|].
  cbn [map filter concat]; rewrite count_app.
  pose proof (count_strip c p).
  destruct (6 <=? len (strip p))%Z; cbn [concat]; rewrite ?count_app; lia.
Qed.

Lemma fragments_count (upper : ascii -> bool) (c : ascii) (s : str) (l : list str) :
  fragments upper s l -> count c (concat l) <= count c s.
Proof.
  induction 1 as [s _|f p ws u rest l _ _ _ _ _ _ IH].
  - cbn [concat]; rewrite app_nil_r; lia.
  - cbn [concat]; rewrite !count_app in *; lia.
Qed.

Lemma count_split_sentences (c : ascii) (s : str) :
  count c (concat (split_sentences s)) <= count c s.
Proof.
  rewrite split_sentences_long_enough.
  pose proof (count_concat_long_enough c (split boundary s)).
  pose proof (fragments_count capital c s _ (split_fragments s)); lia.
Qed.

(** Collapsed whitespace holds no newline. *)
Lemma collapse_no_newline (s : str) :
  forall in_run, lacks "010" (collapse in_run s) = true.
Proof.
  unfold lacks; induction s as [|c rest IH]; intros in_run; [reflexivity|].
  cbn [collapse]; destruct (isspace c) eqn:Sc.
  - destruct in_run; [apply IH|]; cbn [forallb]; rewrite IH; reflexivity.
  - cbn [forallb]; rewrite IH, andb_true_r.
    destruct (Ascii.eqb_spec c "010") as [->|]; [discriminate | reflexivity].
Qed.

(** The text as [postprocess_summary] has it after the markdown steps. *)
Lemma unwrapped_counts (summary : str) :
  let s3 :=
    sub code [Group1]
      (sub italic [Group1]
         (sub bold [Group1]
            (strip (sub Postprocessor.whitespace [Text (lit " ")] summary)))) in
  count "*" s3 <= 1 /\ count "`" s3 <= 1.
Proof.
  set (s0 := strip _).
  assert (H0 : lacks "010" s0 = true).
  { unfold s0; apply strip_forallb.
    change Postprocessor.whitespace with Preprocessor.whitespace.
    rewrite sub_whitespace_is_collapse; apply collapse_no_newline. }
  set (s1 := sub bold [Group1] s0).
  assert (H1 : lacks "010" s1 = true) by (apply sub_from_group_forallb, H0).
  set (s2 := sub italic [Group1] s1).
  assert (H2 : lacks "010" s2 = true) by (apply sub_from_group_forallb, H1).
  cbv zeta; split.
  - pose proof (sub_count "*" code [Group1] s2 ltac:(intros; lia)) as Ha.
    pose proof (sub_delimited_once "*" s1 H1) as Hb.
    change (sub (delimited "*") [Group1] s1) with s2 in Hb; lia.
  - apply (sub_delimited_once "`" s2 H2).
Qed.

(** X9.  Markdown emphasis does not survive [postprocess_summary]: the
    result holds at most one asterisk and at most one backtick (a
    delimiter that has no partner).  Every pair [*...*] and every pair of
    backticks was unwrapped, on the single line that the collapsed
    summary is. *)
Theorem postprocess_summary_emphasis_removed (summary : str) (max_sentences : Z) :
  count "*" (postprocess_summary summary max_sentences) <= 1
  /\ count "`" (postprocess_summary summary max_sentences) <= 1.
Proof.
  assert (H : forall c, c <> " "%char -> c <> "."%char ->
              count c
                (sub code [Group1]
                   (sub italic [Group1]
                      (sub bold [Group1]
                         (strip (sub Postprocessor.whitespace [Text (lit " ")]
                                   summary))))) <= 1 ->
              count c (postprocess_summary summary max_sentences) <= 1).
  { intros c Hsp Hdot H3; unfold postprocess_summary.
    destruct summary as [|c0 t0]; [cbn; lia|].
    set (s3 := sub code _ _) in *.
    set (s5 := sub numbered [] (sub bullet [] s3)).
    assert (H5 : count c s5 <= 1).
    { pose proof (sub_count c numbered [] (sub bullet [] s3) ltac:(intros; cbn; lia))
        as Ha.
      pose proof (sub_count c bullet [] s3 ltac:(intros; cbn; lia)) as Hb.
      change (sub numbered [] (sub bullet [] s3)) with s5 in Ha; lia. }
    set (l := if (len (split_sentences s5) >? max_sentences)%Z
              then slice_to (split_sentences s5) max_sentences
              else split_sentences s5).
    assert (Hl : count c (concat l) <= 1).
    { pose proof (count_split_sentences c s5).
      pose proof (count_concat_slice_to c (split_sentences s5) max_sentences).
      unfold l; destruct (_ >? _)%Z; lia. }
    assert (Hp : count c (strip (join (lit " ") l)) <= 1).
    { pose proof (count_strip c (join (lit " ") l)).
      rewrite (count_join c (lit " ") l) in *; [lia|].
      unfold count; cbn [lit String.list_ascii_of_string count_occ].
      destruct (ascii_dec " " c); [congruence | reflexivity]. }
    destruct (strip (join (lit " ") l)) as [|y p'] eqn:Ep; [cbn; lia|].
    destruct (negb _); [|exact Hp].
    rewrite count_app.
    replace (count c (lit ".")) with 0; [lia|].
    unfold count; cbn [lit String.list_ascii_of_string count_occ].
    destruct (ascii_dec "." c); [congruence | reflexivity]. }
  destruct (unwrapped_counts summary) as [Hstar Htick].
  split; apply H; try discriminate; assumption.
Qed.

End Emphasis.

(** ** Repeated punctuation in [clean_formatting] *)

Section Repeated.
Import TextSpec HelperSpec Passes.

Lemma match_here_repeated (c : ascii) (k : cursor) :
  match_here (repeated c) k
  = match ahead k with
    | x :: rest =>
        if Ascii.eqb x c
        then match run_length (Ascii.eqb c) rest with
             | O => None
             | S n => Some (S (S n), None)
             end
        else None
    | [] => None
    end.
Proof.
  unfold match_here, repeated.
  rewrite run_Cat.
  change (run (Chr c) k None) with (run (Chars (Ascii.eqb c)) k None).
  rewrite run_Chars.
  destruct k as [b [|x rest]]; cbn [ahead]; [reflexivity|].
  rewrite Ascii.eqb_sym; destruct (Ascii.eqb x c); [|reflexivity].
  cbn [flat_map fst snd]; rewrite app_nil_r.
  unfold Chr; rewrite run_plus_chars; cbn [advance ahead].
  pose proof (run_length_le (Ascii.eqb c) rest) as Hle.
  destruct (run_length (Ascii.eqb c) rest) as [|n]; [reflexivity|].
  rewrite seq_S, rev_app_distr; cbn [rev app map Nat.add].
  rewrite ahead_jump, length_skipn; cbn [advance ahead length].
  do 2 f_equal; lia.
Qed.

Lemma undoubled_cons (c x : ascii) (s : str) :
  undoubled c s = true ->
  (Ascii.eqb x c = false \/ not_first c s) ->
  undoubled c (x :: s) = true.
Proof.
  intros Hs Hx; destruct s as [|y rest]; [reflexivity|].
  change (undoubled c (x :: y :: rest))
    with (negb (Ascii.eqb x c && Ascii.eqb y c) && undoubled c (y :: rest))%bool.
  rewrite Hs, andb_true_r.
  destruct Hx as [->|Hy]; [reflexivity|].
  cbn [not_first] in Hy; rewrite Hy, andb_false_r; reflexivity.
Qed.

Lemma undoubled_tail (c x : ascii) (s : str) :
  undoubled c (x :: s) = true -> undoubled c s = true.
Proof.
  destruct s as [|y rest]; [reflexivity|].
  change (undoubled c (x :: y :: rest))
    with (negb (Ascii.eqb x c && Ascii.eqb y c) && undoubled c (y :: rest))%bool.
  intros H; apply andb_prop in H; tauto.
Qed.

Lemma undoubled_head (c : ascii) (s : str) :
  undoubled c (c :: s) = true -> not_first c s.
Proof.
  destruct s as [|y rest]; [intros _; exact I|].
  change (undoubled c (c :: y :: rest))
    with (negb (Ascii.eqb c c && Ascii.eqb y c) && undoubled c (y :: rest))%bool.
  rewrite Ascii.eqb_refl; cbn [andb not_first].
  destruct (Ascii.eqb y c); [discriminate | reflexivity].
Qed.

(** After runs of [c] were replaced by a single [c], no two [c] stand in
    a row.  While a run is being passed over, [skip] is what is left of
    it. *)
Lemma sub_repeated_undoubled (c : ascii) (s : str) :
  forall before skip,
    (skip <> 0 -> run_length (Ascii.eqb c) s = skip) ->
    undoubled c (sub_from (repeated c) [Text [c]] before s skip) = true
    /\ (run_length (Ascii.eqb c) s = skip ->
        not_first c (sub_from (repeated c) [Text [c]] before s skip)).
Proof.
  induction s as [|x rest IH]; intros before skip Hskip.
  - split; [reflexivity | intros _; exact I].
  - cbn [sub_from]; destruct skip as [|n].
    + rewrite match_here_repeated; cbn [ahead run_length].
      rewrite (Ascii.eqb_sym c x).
      destruct (Ascii.eqb x c) eqn:Exc.
      * apply Ascii.eqb_eq in Exc; subst x.
        destruct (run_length (Ascii.eqb c) rest) as [|n] eqn:En.
        -- destruct (IH (c :: before) 0 ltac:(congruence)) as [Hu Hf].
           split; [|discriminate].
           apply undoubled_cons; [exact Hu | right; apply Hf; reflexivity].
        -- destruct (IH (c :: before) (S n) ltac:(intros _; reflexivity)) as [Hu Hf].
           cbn [expand flat_map app]; split; [|discriminate].
           apply undoubled_cons; [exact Hu | right; apply Hf; reflexivity].
      * destruct (IH (x :: before) 0 ltac:(congruence)) as [Hu _].
        split; [|intros _; exact Exc].
        apply undoubled_cons; [exact Hu | left; exact Exc].
    + specialize (Hskip ltac:(discriminate)); cbn [run_length] in Hskip.
      destruct (Ascii.eqb c x); [|discriminate].
      injection Hskip as Hskip.
      destruct (IH (x :: before) n ltac:(intros _; exact Hskip)) as [Hu Hf].
      split; [exact Hu | intros _; apply Hf, Hskip].
Qed.

(** Replacing the runs of another character [c'] by a single [c'] brings
    no two [c] together. *)
Lemma sub_other_undoubled (c c' : ascii) (r : regex) (s : str) :
  c' <> c ->
  forall before skip,
    undoubled c s = true ->
    undoubled c (sub_from r [Text [c']] before s skip) = true
    /\ (skip = 0 -> not_first c s ->
        not_first c (sub_from r [Text [c']] before s skip)).
Proof.
  intros Hc; apply Ascii.eqb_neq in Hc.
  induction s as [|x rest IH]; intros before skip Hs.
  - split; [reflexivity | intros _ _; exact I].
  - pose proof (undoubled_tail _ _ _ Hs) as Hrest.
    cbn [sub_from]; destruct skip as [|n].
    + assert (Hemit : undoubled c (x :: sub_from r [Text [c']] (x :: before) rest 0) = true
                      /\ (0 = 0 -> not_first c (x :: rest) ->
                          not_first c (x :: sub_from r [Text [c']] (x :: before) rest 0))).
      { destruct (IH (x :: before) 0 Hrest) as [Hu Hf].
        split; [|intros _ Hx; exact Hx].
        apply undoubled_cons; [exact Hu|].
        destruct (Ascii.eqb x c) eqn:Exc; [right | left; reflexivity].
        apply Ascii.eqb_eq in Exc; subst x.
        apply Hf; [reflexivity | apply undoubled_head, Hs]. }
      destruct (match_here r _) as [[[|n] g]|]; [exact Hemit | | exact Hemit].
      destruct (IH (x :: before) n Hrest) as [Hu _].
      cbn [expand flat_map app]; split; [|intros _ _; exact Hc].
      apply undoubled_cons; [exact Hu | left; exact Hc].
    + destruct (IH (x :: before) n Hrest) as [Hu _].
      split; [exact Hu | discriminate].
Qed.

Lemma undoubled_sound (c : ascii) (s : str) : undoubled c s = true -> ~ doubled c s.
Proof.
  intros Hs [a [b ->]]; induction a as [|z a IH].
  - cbn [app undoubled] in Hs; rewrite Ascii.eqb_refl in Hs; discriminate.
  - apply IH; cbn [app] in Hs; eapply undoubled_tail; exact Hs.
Qed.

Lemma doubled_strip (c : ascii) (s : str) : ~ doubled c s -> ~ doubled c (strip s).
Proof.
  destruct (strip_infix s) as [a [b E]].
  intros Hs [a' [b' E']]; apply Hs.
  exists (a ++ a'), (b' ++ b).
  rewrite E at 1; rewrite E', <- !app_assoc; reflexivity.
Qed.

(** X10.  What [clean_formatting] returns holds no full stop, no
    exclamation mark and no question mark twice in a row: every run of
    one of them was replaced by a single one, and replacing the runs of
    the next brings no two of the earlier ones together.  The result
    neither starts nor ends with whitespace. *)
Theorem clean_formatting_no_repeated_punctuation (text : str) :
  ~ doubled "." (clean_formatting text)
  /\ ~ doubled "!" (clean_formatting text)
  /\ ~ doubled "?" (clean_formatting text)
  /\ strip (clean_formatting text) = clean_formatting text.
Proof.
  unfold clean_formatting.
  set (t4 := sub entity [] _).
  set (t5 := sub (repeated ".") [Text (lit ".")] t4).
  set (t6 := sub (repeated "!") [Text (lit "!")] t5).
  set (t7 := sub (repeated "?") [Text (lit "?")] t6).
  assert (H5 : undoubled "." t5 = true)
    by (apply (sub_repeated_undoubled "." t4 [] 0); congruence).
  assert (H6 : undoubled "!" t6 = true)
    by (apply (sub_repeated_undoubled "!" t5 [] 0); congruence).
  assert (H7 : undoubled "?" t7 = true)
    by (apply (sub_repeated_undoubled "?" t6 [] 0); congruence).
  assert (H6' : undoubled "." t6 = true)
    by (apply (sub_other_undoubled "." "!" (repeated "!") t5 ltac:(discriminate) [] 0 H5)).
  assert (H7' : undoubled "." t7 = true)
    by (apply (sub_other_undoubled "." "?" (repeated "?") t6 ltac:(discriminate) [] 0 H6')).
  assert (H7'' : undoubled "!" t7 = true)
    by (apply (sub_other_undoubled "!" "?" (repeated "?") t6 ltac:(discriminate) [] 0 H6)).
  repeat split; try (apply doubled_strip, undoubled_sound; assumption).
  apply strip_idempotent.
Qed.

End Repeated.

(** ** The strategies of the scraper *)

Section Strategies.
Import Soup Scraper.

Variable fetch : str -> py node.





(** The quote strategy *)

Lemma quotes_loop_raises (soup : node) (url : str) (quotes : list path) (q : path) :
  In q quotes ->
  find (tag_with_class (lit "span") (lit "text")) soup q = None
  \/ find (tag_with_class (lit "small") (lit "author")) soup q = None ->
  forall articles, quotes_loop soup url quotes articles = Raise AttributeError.
Proof.
  intros Hin Hbad; induction quotes as [|q0 rest IH]; intros articles;
    [destruct Hin|].
  cbn [quotes_loop].
  destruct (find (tag_with_class (lit "span") (lit "text")) soup q0) as [t|] eqn:Et;
    cbn [get_text_of bind]; [|reflexivity].
  destruct (find (tag_with_class (lit "small") (lit "author")) soup q0) as [a|] eqn:Ea;
    cbn [get_text_of bind]; [|reflexivity].
  destruct Hin as [->|Hin]; [|apply IH, Hin].
  destruct Hbad as [Hbad|Hbad]; congruence.
Qed.

Lemma quotes_loop_returns (soup : node) (url : str) (quotes : list path) :
  (forall q, In q quotes ->
     find (tag_with_class (lit "span") (lit "text")) soup q <> None
     /\ find (tag_with_class (lit "small") (lit "author")) soup q <> None) ->
  forall articles,
    exists l,
      quotes_loop soup url quotes articles = Return (articles ++ l)
      /\ length l = length quotes
      /\ Forall (fun r => title r = lit "Quote by " ++ author r
                          /\ source_url r = url) l.
Proof.
  induction quotes as [|q0 rest IH]; intros Hgood articles.
  - exists []; rewrite app_nil_r; repeat split; constructor.
  - destruct (Hgood q0 (or_introl eq_refl)) as [Ht Ha].
    cbn [quotes_loop].
    destruct (find (tag_with_class (lit "span") (lit "text")) soup q0) as [t|];
      [|congruence].
    destruct (find (tag_with_class (lit "small") (lit "author")) soup q0) as [a|];
      [|congruence].
    cbn [get_text_of bind].
    destruct (IH (fun q Hq => Hgood q (or_intror Hq))
                 (articles ++
                  [{| title := lit "Quote by " ++ get_text (element soup a);
                      author := get_text (element soup a);
                      content := get_text (element soup t) ++ newline ++ newline
                                 ++ lit "Tags: "
                                 ++ join (lit ", ")
                                      (map (fun tag => get_text (element soup tag))
                                         (find_all (tag_with_class (lit "a") (lit "tag"))
                                            soup q0));
                      source_url := url |}]))
      as [l [E [Hlen Hall]]].
    eexists (_ :: l); rewrite E, <- app_assoc; cbn [app length].
    split; [reflexivity|]; split; [rewrite Hlen; reflexivity|].
    constructor; [split; reflexivity | exact Hall].
Qed.

(** X12.  The quote strategy is all or nothing.  When one of the quote
    containers within the limit lacks the quote-text span or the author
    element, [_scrape_quotes_to_scrape] raises and [scrape_articles]
    returns the empty list, whatever the other containers hold.  When
    none of them lacks either, [scrape_articles] returns one record for
    each container within the limit, titled [Quote by ] and the author,
    with the address of the page as its source. *)
Theorem quotes_all_or_nothing (url : str) (limit : Z) (soup : node) :
  contains (lit "quotes.toscrape.com") url = true ->
  fetch url = Return soup ->
  ((exists q,
       In q (slice_to (find_all (tag_with_class (lit "div") (lit "quote")) soup [])
               limit)
       /\ (find (tag_with_class (lit "span") (lit "text")) soup q = None
           \/ find (tag_with_class (lit "small") (lit "author")) soup q = None)) ->
   _scrape_quotes_to_scrape fetch url limit = Raise AttributeError
   /\ scrape_articles fetch url limit = Return [])
  /\ ((forall q,
          In q (slice_to (find_all (tag_with_class (lit "div") (lit "quote")) soup [])
                  limit) ->
          find (tag_with_class (lit "span") (lit "text")) soup q <> None
          /\ find (tag_with_class (lit "small") (lit "author")) soup q <> None) ->
      exists l,
        scrape_articles fetch url limit = Return l
        /\ length l
           = length (slice_to
                       (find_all (tag_with_class (lit "div") (lit "quote")) soup [])
                       limit)
        /\ Forall (fun r => title r = lit "Quote by " ++ author r
                            /\ source_url r = url) l).
Proof.
  intros Hurl Hfetch; unfold scrape_articles, _scrape_quotes_to_scrape.
  rewrite Hurl, Hfetch; cbn [bind]; split.
  - intros [q [Hin Hbad]].
    rewrite (quotes_loop_raises _ _ _ _ Hin Hbad); split; reflexivity.
  - intros Hgood.
    destruct (quotes_loop_returns soup url _ Hgood []) as [l [E H]].
    exists l; rewrite E; cbn [app try_except]; split; [reflexivity | exact H].
Qed.

Lemma quotes_loop_source (soup : node) (url : str) (quotes : list path) :
  forall articles l,
    Forall (fun r => source_url r = url) articles ->
    quotes_loop soup url quotes articles = Return l ->
    Forall (fun r => source_url r = url) l.
Proof.
  induction quotes as [|q0 rest IH]; intros articles l Hacc; cbn [quotes_loop].
  - intros [= <-]; exact Hacc.
  - destruct (get_text_of soup _) as [t|e]; cbn [bind]; [|discriminate].
    destruct (get_text_of soup _) as [a|e]; cbn [bind]; [|discriminate].
    apply IH, Forall_app; split; [exact Hacc|].
    constructor; [reflexivity | constructor].
Qed.

Lemma hacker_news_loop_source (soup : node) (url : str) (rows : list path) :
  forall articles,
    Forall (fun r => source_url r = url) articles ->
    Forall (fun r => source_url r = url) (hacker_news_loop soup url rows articles).
Proof.
  induction rows as [|row rest IH]; intros articles Hacc; cbn [hacker_news_loop];
    [exact Hacc|].
  destruct (find (tag_with_class (lit "span") (lit "titleline")) soup row)
    as [title_element|]; [|apply IH, Hacc].
  destruct (find (named [lit "a"]) soup title_element) as [title_link|];
    [|apply IH, Hacc].
  apply IH, Forall_app; split; [exact Hacc|].
  constructor; [reflexivity | constructor].
Qed.

Lemma generic_loop_source (url : str) (candidates : list path) :
  forall soup i articles,
    Forall (fun r => source_url r = url) articles ->
    Forall (fun r => source_url r = url) (generic_loop soup url i candidates articles).
Proof.
  induction candidates as [|c rest IH]; intros soup i articles Hacc;
    cbn [generic_loop]; [exact Hacc|].
  unfold generic_step; apply IH, Forall_app; split; [exact Hacc|].
  constructor; [reflexivity | constructor].
Qed.

(** X13.  Whatever the strategy, the page and the limit, every record
    that [scrape_articles] returns carries the address it was asked to
    scrape as its [source_url]. *)
Theorem scrape_articles_source_url (url : str) (limit : Z) :
  exists l,
    scrape_articles fetch url limit = Return l
    /\ Forall (fun r => source_url r = url) l.
Proof.
  unfold scrape_articles.
  destruct (contains (lit "quotes.toscrape.com") url);
    [|destruct (contains (lit "news.ycombinator.com") url)].
  - unfold _scrape_quotes_to_scrape.
    destruct (fetch url) as [soup|e]; cbn [bind try_except];
      [|exists []; split; [reflexivity | constructor]].
    destruct (quotes_loop soup url _ []) as [l|e] eqn:E; cbn [try_except];
      [|exists []; split; [reflexivity | constructor]].
    exists l; split; [reflexivity|].
    eapply quotes_loop_source; [constructor | exact E].
  - unfold _scrape_hacker_news.
    destruct (fetch url) as [soup|e]; cbn [bind try_except];
      [|exists []; split; [reflexivity | constructor]].
    eexists; split; [reflexivity|].
    apply hacker_news_loop_source; constructor.
  - unfold _scrape_generic.
    destruct (fetch url) as [soup|e]; cbn [bind try_except];
      [|exists []; split; [reflexivity | constructor]].
    eexists; split; [reflexivity|].
    apply generic_loop_source; constructor.
Qed.

End Strategies.

Section StrategiesExamples.
Import Soup Scraper Fixtures Pages.


(** The row without a title is passed over, the story after it is
    returned. *)
Example hacker_news_page :
  scrape_articles (serving news_page) news_url 5 = Return [story_record].
Proof. reflexivity. Qed.

Lemma quotes_all_or_nothing_witness :
  _scrape_quotes_to_scrape (serving mixed_quotes) quotes_url 5 = Raise AttributeError
  /\ scrape_articles (serving mixed_quotes) quotes_url 5 = Return [].
Proof.
  apply (quotes_all_or_nothing (serving mixed_quotes) quotes_url 5 mixed_quotes);
    [reflexivity | reflexivity |].
  exists [1]; split; [right; left; reflexivity | left; reflexivity].
Defined.

End StrategiesExamples.

(** ** The gateway: one request for each call *)

Section Requests.
Import Gemini GatewaySpec.

Variable clock : list effect -> spec_float.
Variable sleep : list effect -> spec_float -> py unit.
Variable service : list effect -> str -> py (option str).

(** The limiter when [time.sleep] returns: the clock is read, a sleep
    may follow, the clock is read again and that reading is stored. *)
Lemma apply_rate_limit_returns (s : state) :
  (forall l secs, sleep l secs = Return tt) ->
  exists waited,
    (waited = [] \/ exists secs, waited = [TimeSleep secs])
    /\ _apply_rate_limit clock sleep s
       = (Return tt,
          {| self := {| rate_limit_delay := rate_limit_delay (self s);
                        last_request_time := clock (log s ++ TimeTime :: waited) |};
             log := log s ++ TimeTime :: waited ++ [TimeTime] |}).
Proof.
  intros Hsleep.
  destruct (SFltb (SFsub PyFloat.prec PyFloat.emax (clock (log s))
                     (last_request_time (self s)))
                  (rate_limit_delay (self s))) eqn:E.
  - eexists [TimeSleep _]; split; [right; eexists; reflexivity|].
    rewrite (apply_rate_limit_sleeps clock sleep s E (Hsleep _ _)).
    cbn [app]; reflexivity.
  - exists []; split; [left; reflexivity|].
    rewrite (apply_rate_limit_effects clock sleep s E); reflexivity.
Qed.

(** X15.  A call of [summarize_text] or [summarize_article] on a text
    that is not blank makes exactly one request to the service, after the
    limiter: the clock is read, [time.sleep] may be called once, the clock
    is read again, and then the prompt that holds the text is sent.  The
    second reading is stored as [last_request_time] before the request is
    made, so it is stored whether the service answers or raises.  What the
    call returns is the stripped answer, or a fixed sentence when the
    answer is empty, or the message of the exception after a fixed
    prefix. *)
Theorem gateway_one_request
        (title : str) (text : str) (author : option str) (max_sentences : Z)
        (s : state) :
  nothing_to_summarize (Some text) = false ->
  (forall l secs, sleep l secs = Return tt) ->
  exists waited,
    (waited = [] \/ exists secs, waited = [TimeSleep secs])
    /\ (let asked := log s ++ TimeTime :: waited ++ [TimeTime] in
        let prompt := text_prompt text max_sentences in
        summarize_text clock sleep service (Some text) max_sentences s
        = (Return match service asked prompt with
                  | Return (Some (c :: t)) => strip (c :: t)
                  | Return _ => lit "Unable to generate summary."
                  | Raise e => lit "Error generating summary: " ++ str_of_exn e
                  end,
           {| self := {| rate_limit_delay := rate_limit_delay (self s);
                         last_request_time := clock (log s ++ TimeTime :: waited) |};
              log := asked ++ [GenerateContent prompt] |}))
    /\ (let asked := log s ++ TimeTime :: waited ++ [TimeTime] in
        let prompt :=
          article_prompt title text
            match author with
            | Some (c :: a) => lit " by " ++ c :: a
            | _ => []
            end in
        summarize_article clock sleep service title (Some text) author s
        = (Return match service asked prompt with
                  | Return (Some (c :: t)) => strip (c :: t)
                  | Return _ => lit "Unable to generate article summary."
                  | Raise e => lit "Error generating article summary: " ++ str_of_exn e
                  end,
           {| self := {| rate_limit_delay := rate_limit_delay (self s);
                         last_request_time := clock (log s ++ TimeTime :: waited) |};
              log := asked ++ [GenerateContent prompt] |})).
Proof.
  intros Hnb Hsleep.
  destruct (apply_rate_limit_returns s Hsleep) as [waited [Hw E]].
  exists waited; split; [exact Hw|]; cbv zeta.
  unfold summarize_text, summarize_article; rewrite Hnb.
  unfold mtry, mbind; rewrite E.
  unfold generate_content, ret; cbn [self log].
  split.
  - destruct (service _ (text_prompt text max_sentences)) as [[[|c t]|]|e];
      reflexivity.
  - destruct (service _ (article_prompt _ _ _)) as [[[|c t]|]|e]; reflexivity.
Qed.

End Requests.

Section RequestsExamples.
Import Gemini GatewaySpec Fixtures.

Lemma gateway_one_request_witness :
  exists waited,
    (waited = [] \/ exists secs, waited = [TimeSleep secs])
    /\ summarize_text frozen_clock sleep_ok service_down (Some (lit "abc")) 3 fresh
       = (Return (lit "Error generating summary: unreachable"),
          {| self := new_client;
             log := [TimeTime] ++ waited
                    ++ [TimeTime; GenerateContent (text_prompt (lit "abc") 3)] |}).
Proof.
  destruct (gateway_one_request frozen_clock sleep_ok service_down
              (lit "t") (lit "abc") None 3 fresh eq_refl (fun _ _ => eq_refl))
    as [waited [Hw [E _]]].
  exists waited; split; [exact Hw|].
  cbv zeta in E; rewrite E; cbn [fresh log self app].
  rewrite <- app_assoc; reflexivity.
Defined.

End RequestsExamples.

(** ** The module function and its client *)

Section ModuleFunction.
Import Gemini GeminiModule.

Variable getenv : str -> option str.
Variable clock : list effect -> spec_float.
Variable sleep : list effect -> spec_float -> py unit.
Variable service : list effect -> str -> py (option str).

(** X16.  The module function [summarize_text] makes the client before
    it looks at the text.  Without a key in the environment (missing or
    empty) and with no client made yet it raises [ValueError] for every
    text, a blank one too, for which the method itself would return its
    fixed sentence; the global stays unset.  With a key, or with a client
    already there, it returns a string and does not raise, and the global
    holds the client afterwards, with the delay of one second that it was
    made with or had. *)
Theorem module_summarize_text_needs_key (text : option str) (g : module_state) :
  (_gemini_client g = None ->
   getenv (lit "GEMINI_API_KEY") = None \/ getenv (lit "GEMINI_API_KEY") = Some [] ->
   summarize_text getenv clock sleep service text g = (Raise ValueError, g))
  /\ (forall c k,
         _gemini_client g = None ->
         getenv (lit "GEMINI_API_KEY") = Some (c :: k) ->
         exists r client' log',
           summarize_text getenv clock sleep service text g
           = (Return r, {| _gemini_client := Some client'; effects := log' |})
           /\ rate_limit_delay client' = f1_0)
  /\ (forall client,
         _gemini_client g = Some client ->
         exists r client' log',
           summarize_text getenv clock sleep service text g
           = (Return r, {| _gemini_client := Some client'; effects := log' |})
           /\ rate_limit_delay client' = rate_limit_delay client).
Proof.
  assert (Hon : forall client g',
             exists r client' log',
               on_client client (Gemini.summarize_text clock sleep service text 3) g'
               = (Return r, {| _gemini_client := Some client'; effects := log' |})
               /\ rate_limit_delay client' = rate_limit_delay client).
  { intros client g'; unfold on_client, Gemini.summarize_text.
    destruct (nothing_to_summarize text).
    - unfold ret; eexists _, _, _; split; reflexivity.
    - unfold mtry, mbind.
      set (s0 := {| self := client; log := effects g' |}).
      assert (Hlimit : rate_limit_delay (self (snd (_apply_rate_limit clock sleep s0)))
                       = rate_limit_delay client).
      { unfold _apply_rate_limit, mbind, time_time, time_sleep, get_self,
          set_last_request_time, ret; cbn [self log s0].
        destruct (SFltb _ _); [destruct (sleep _ _)|]; reflexivity. }
      destruct (_apply_rate_limit clock sleep s0) as [[[]|e] s1]; cbn [snd] in Hlimit.
      + unfold generate_content, ret.
        destruct (service _ _) as [[[|c t]|]|e]; cbn [self log];
          eexists _, _, _; split; try reflexivity; exact Hlimit.
      + unfold ret; eexists _, _, _; split; [reflexivity | exact Hlimit]. }
  unfold summarize_text, get_gemini_client, __init__.
  split; [|split].
  - intros -> [->| ->]; reflexivity.
  - intros c k -> ->; apply (Hon new_client).
  - intros client ->; apply Hon.
Qed.

End ModuleFunction.

Section ModuleFunctionExamples.
Import Gemini GeminiModule GatewaySpec Fixtures.

Lemma module_summarize_text_needs_key_witness :
  summarize_text (fun _ => None) frozen_clock sleep_ok service_down
                 (Some (lit "   ")) {| _gemini_client := None; effects := [] |}
  = (Raise ValueError, {| _gemini_client := None; effects := [] |}).
Proof.
  apply (module_summarize_text_needs_key (fun _ => None) frozen_clock sleep_ok
           service_down (Some (lit "   ")) {| _gemini_client := None; effects := [] |});
    [reflexivity | left; reflexivity].
Defined.

End ModuleFunctionExamples.

(** ** The handler [scrape_and_summarize] *)

Section Handler.
Import Soup Gemini GeminiModule Routes ScraperSpec.

Variable fetch : str -> py node.
Variable getenv : str -> option str.
Variable clock : list effect -> spec_float.
Variable sleep : list effect -> spec_float -> py unit.
Variable service : list effect -> str -> py (option str).
Variable add_commit_refresh : list db_effect -> Article -> py Z.

Lemma slice_to_zero {A : Type} (l : list A) : slice_to l 0 = [].
Proof. reflexivity. Qed.

(** When the scraper has nothing to return. *)
Lemma scrape_articles_nothing (url : str) (limit : Z) :
  (exists e, fetch url = Raise e)
  \/ limit = 0%Z
  \/ (exists soup, fetch url = Return soup /\ matching_elements url soup = []) ->
  Scraper.scrape_articles fetch url limit = Return [].
Proof.
  unfold Scraper.scrape_articles, matching_elements,
    Scraper._scrape_quotes_to_scrape, Scraper._scrape_hacker_news,
    Scraper._scrape_generic.
  intros [[e He]|[->|[soup [Hs Hnone]]]].
  - rewrite He; destruct (contains _ url); [|destruct (contains _ url)]; reflexivity.
  - destruct (contains _ url); [|destruct (contains _ url)];
      destruct (fetch url); reflexivity.
  - rewrite Hs; destruct (contains _ url); [|destruct (contains _ url)];
      cbn [bind try_except]; rewrite Hnone, slice_to_nil; reflexivity.
Qed.

(** X17.  When the scraper returns nothing, [scrape_and_summarize]
    answers with the HTTP error 404 and touches nothing: no client is
    made, no request is sent, nothing is stored.  That is so when the
    request for the page fails (the failure is not reported as a server
    error), when the limit is 0, and when the page holds no element of
    the kind that the strategy looks for. *)
Theorem scrape_and_summarize_not_found (url : str) (limit : Z) (w : app_state) :
  (exists e, fetch url = Raise e)
  \/ limit = 0%Z
  \/ (exists soup, fetch url = Return soup /\ matching_elements url soup = []) ->
  scrape_and_summarize fetch getenv clock sleep service add_commit_refresh
                       url limit w
  = (HTTPException 404 (lit "No articles found at the provided URL"), w).
Proof.
  intros H; unfold scrape_and_summarize.
  rewrite (scrape_articles_nothing url limit H); reflexivity.
Qed.

(** One turn of the loop always reaches the session: the summarizer
    returns a string whatever the service does. *)
Lemma process_stores (article_data : Scraper.article) (st : loop_state) :
  exists row api,
    process clock sleep service add_commit_refresh article_data st
    = (add_commit_refresh (snd st) row, (api, snd st ++ [AddCommitRefresh row]))
    /\ scraped_from row = article_data
    /\ (summary row = [] \/ exists t, summary row = t ++ lit ".").
Proof.
  unfold process.
  destruct (summarize_article_returns clock sleep service
              (Scraper.title article_data)
              (Some (Preprocessor.preprocess_text
                       (Some (Scraper.content article_data)) false))
              (Some (Scraper.author article_data)) (fst st)) as [r [api ->]].
  eexists _, api; split; [reflexivity|]; split.
  - destruct article_data; reflexivity.
  - apply postprocess_summary_closed.
Qed.

Lemma process_all_stores (scraped : list Scraper.article) :
  forall ids st,
    exists rows st',
      process_all clock sleep service add_commit_refresh scraped ids st
      = (ids ++ stored_ids add_commit_refresh (snd st) rows, st')
      /\ snd st' = snd st ++ map AddCommitRefresh rows
      /\ map scraped_from rows = scraped
      /\ Forall (fun row => summary row = [] \/ exists t, summary row = t ++ lit ".")
                rows.
Proof.
  induction scraped as [|a rest IH]; intros ids st.
  - exists [], st; cbn [process_all stored_ids map]; rewrite !app_nil_r.
    repeat split; constructor.
  - destruct (process_stores a st) as [row [api [E [Hrow Hsum]]]].
    cbn [process_all]; rewrite E.
    destruct (add_commit_refresh (snd st) row) as [id|e] eqn:Es.
    + destruct (IH (ids ++ [id]) (api, snd st ++ [AddCommitRefresh row]))
        as [rows [st' [E' [Hdb [Hmap Hall]]]]].
      exists (row :: rows), st'; cbn [stored_ids map snd] in *.
      rewrite E', Es, Hdb, Hrow, Hmap, <- !app_assoc.
      repeat split; constructor; assumption.
    + destruct (IH ids (api, snd st ++ [AddCommitRefresh row]))
        as [rows [st' [E' [Hdb [Hmap Hall]]]]].
      exists (row :: rows), st'; cbn [stored_ids map snd] in *.
      rewrite E', Es, Hdb, Hrow, Hmap, <- !app_assoc.
      repeat split; constructor; assumption.
Qed.

Lemma stored_ids_length (rows : list Article) :
  forall session, length (stored_ids add_commit_refresh session rows) <= length rows.
Proof.
  induction rows as [|row rest IH]; intros session; cbn [stored_ids length]; [lia|].
  rewrite length_app; specialize (IH (session ++ [AddCommitRefresh row])).
  destruct (add_commit_refresh session row); cbn [length]; lia.
Qed.

(** X18.  When the scraper returns records and a client can be had,
    [scrape_and_summarize] hands every scraped record to the session,
    once and in order, whatever the summarizer and the session do: the
    article that is stored has the title, the author, the content (as it
    was scraped, not as it was preprocessed) and the source of the record,
    and a summary that is empty or ends with a full stop.  An article
    that the session fails to store is passed over and the others are
    still stored.  The response counts and lists the ids of the articles
    that were stored, never more than were scraped. *)
Theorem scrape_and_summarize_stores_all
        (url : str) (limit : Z) (w : app_state) (scraped : list Scraper.article) :
  Scraper.scrape_articles fetch url limit = Return scraped ->
  scraped <> [] ->
  (_gemini_client (gemini w) <> None
   \/ exists c k, getenv (lit "GEMINI_API_KEY") = Some (c :: k)) ->
  exists rows w',
    scrape_and_summarize fetch getenv clock sleep service add_commit_refresh
                         url limit w
    = (Ok {| message :=
               lit "Successfully processed "
               ++ str_of_int (len (stored_ids add_commit_refresh (db w) rows))
               ++ lit " articles";
             articles_processed := len (stored_ids add_commit_refresh (db w) rows);
             article_ids := stored_ids add_commit_refresh (db w) rows |},
       w')
    /\ db w' = db w ++ map AddCommitRefresh rows
    /\ map scraped_from rows = scraped
    /\ Forall (fun row => summary row = [] \/ exists t, summary row = t ++ lit ".")
              rows
    /\ (len (stored_ids add_commit_refresh (db w) rows) <= len scraped)%Z
    /\ _gemini_client (gemini w') <> None.
Proof.
  intros Hs Hne Hclient; unfold scrape_and_summarize; rewrite Hs.
  destruct scraped as [|a rest]; [congruence|].
  assert (Hget : exists client g,
             get_gemini_client getenv (gemini w) = (Return client, g)).
  { unfold get_gemini_client, __init__.
    destruct (_gemini_client (gemini w)) as [client|]; [eauto|].
    destruct Hclient as [Hc|[c [k ->]]]; [congruence | eauto]. }
  destruct Hget as [client [g ->]].
  destruct (process_all_stores (a :: rest) []
              ({| self := client; log := effects g |}, db w))
    as [rows [st' [E [Hdb [Hmap Hall]]]]].
  rewrite E; cbn [app snd] in *.
  exists rows; eexists; split; [reflexivity|]; cbn [db gemini _gemini_client].
  split; [exact Hdb|]; split; [exact Hmap|]; split; [exact Hall|].
  split; [|discriminate].
  pose proof (stored_ids_length rows (db w)) as Hlen.
  rewrite <- Hmap; unfold len; rewrite length_map; lia.
Qed.

(** X19.  Without a key in the environment and with no client made yet,
    [scrape_and_summarize] answers a page that did give records with the
    HTTP error 500, the message of the [ValueError] after a fixed prefix:
    the page was fetched, nothing is summarized and nothing is stored. *)
Theorem scrape_and_summarize_needs_key
        (url : str) (limit : Z) (w : app_state)
        (first : Scraper.article) (others : list Scraper.article) :
  Scraper.scrape_articles fetch url limit = Return (first :: others) ->
  _gemini_client (gemini w) = None ->
  getenv (lit "GEMINI_API_KEY") = None \/ getenv (lit "GEMINI_API_KEY") = Some [] ->
  scrape_and_summarize fetch getenv clock sleep service add_commit_refresh
                       url limit w
  = (HTTPException 500
       (lit "Internal server error: GEMINI_API_KEY environment variable is required"),
     w).
Proof.
  intros Hs Hnone Hkey; unfold scrape_and_summarize; rewrite Hs.
  unfold get_gemini_client, __init__; rewrite Hnone.
  destruct w as [g d]; destruct Hkey as [->| ->]; reflexivity.
Qed.

(** X20.  An article whose content is nothing once it is preprocessed
    (only tags, an address, characters that are not kept) is stored all
    the same, with the fixed sentence of the summarizer as its summary;
    the service is not asked and the limiter does not run. *)
Theorem process_blank_content (article_data : Scraper.article) (st : loop_state) :
  Preprocessor.preprocess_text (Some (Scraper.content article_data)) false = [] ->
  process clock sleep service add_commit_refresh article_data st
  = (add_commit_refresh (snd st)
       {| title := Scraper.title article_data;
          author := Scraper.author article_data;
          content := Scraper.content article_data;
          summary := lit "No content to summarize.";
          source_url := Scraper.source_url article_data |},
     (fst st,
      snd st ++ [AddCommitRefresh
                   {| title := Scraper.title article_data;
                      author := Scraper.author article_data;
                      content := Scraper.content article_data;
                      summary := lit "No content to summarize.";
                      source_url := Scraper.source_url article_data |}])).
Proof.
  intros Hblank; unfold process; rewrite Hblank; reflexivity.
Qed.

End Handler.

Section HandlerExamples.
Import Soup Gemini GeminiModule Routes ScraperSpec Fixtures Pages.

(** In the examples the session stores every article and numbers them
    from 1. *)
Lemma scrape_and_summarize_not_found_witness :
  scrape_and_summarize (fun _ => Raise (Exception (lit "ConnectionError") (lit "down")))
                       (fun _ => None) frozen_clock sleep_ok service_down
                       (fun session _ => Return (len session + 1)%Z)
                       blog_url 5
                       {| gemini := {| _gemini_client := None; effects := [] |};
                          db := [] |}
  = (HTTPException 404 (lit "No articles found at the provided URL"),
     {| gemini := {| _gemini_client := None; effects := [] |}; db := [] |}).
Proof.
  apply scrape_and_summarize_not_found.
  left; eexists; reflexivity.
Defined.

Lemma scrape_and_summarize_stores_all_witness :
  exists rows w',
    scrape_and_summarize (serving blog_page) (fun _ => Some (lit "key"))
                         frozen_clock sleep_ok service_down
                         (fun session _ => Return (len session + 1)%Z)
                         blog_url 2
                         {| gemini := {| _gemini_client := None; effects := [] |};
                            db := [] |}
    = (Ok {| message :=
               lit "Successfully processed "
               ++ str_of_int
                    (len (stored_ids (fun session _ => Return (len session + 1)%Z)
                            [] rows))
               ++ lit " articles";
             articles_processed :=
               len (stored_ids (fun session _ => Return (len session + 1)%Z) [] rows);
             article_ids :=
               stored_ids (fun session _ => Return (len session + 1)%Z) [] rows |},
       w')
    /\ map scraped_from rows = [double_match_record; double_match_record].
Proof.
  destruct (scrape_and_summarize_stores_all
              (serving blog_page) (fun _ => Some (lit "key"))
              frozen_clock sleep_ok service_down
              (fun session _ => Return (len session + 1)%Z)
              blog_url 2
              {| gemini := {| _gemini_client := None; effects := [] |}; db := [] |}
              [double_match_record; double_match_record]
              eq_refl ltac:(discriminate)
              (or_intror (ex_intro _ "k"%char (ex_intro _ (lit "ey") eq_refl))))
    as [rows [w' [E [_ [Hmap _]]]]].
  exists rows, w'; split; [exact E | exact Hmap].
Defined.

Lemma scrape_and_summarize_needs_key_witness :
  scrape_and_summarize (serving blog_page) (fun _ => None)
                       frozen_clock sleep_ok service_down
                       (fun session _ => Return (len session + 1)%Z)
                       blog_url 2
                       {| gemini := {| _gemini_client := None; effects := [] |};
                          db := [] |}
  = (HTTPException 500
       (lit "Internal server error: GEMINI_API_KEY environment variable is required"),
     {| gemini := {| _gemini_client := None; effects := [] |}; db := [] |}).
Proof.
  apply (scrape_and_summarize_needs_key
           (serving blog_page) (fun _ => None) frozen_clock sleep_ok service_down
           (fun session _ => Return (len session + 1)%Z) blog_url 2
           {| gemini := {| _gemini_client := None; effects := [] |}; db := [] |}
           double_match_record [double_match_record]);
    [reflexivity | reflexivity | left; reflexivity].
Defined.

Lemma process_blank_content_witness :
  process frozen_clock sleep_ok service_down
          (fun session _ => Return (len session + 1)%Z)
          {| Scraper.title := lit "T"; Scraper.author := lit "A";
             Scraper.content := lit "<br> #"; Scraper.source_url := blog_url |}
          (fresh, [])
  = (Return 1%Z,
     (fresh,
      [AddCommitRefresh
         {| title := lit "T"; author := lit "A"; content := lit "<br> #";
            summary := lit "No content to summarize."; source_url := blog_url |}])).
Proof.
  apply (process_blank_content frozen_clock sleep_ok service_down
           (fun session _ => Return (len session + 1)%Z)
           {| Scraper.title := lit "T"; Scraper.author := lit "A";
              Scraper.content := lit "<br> #"; Scraper.source_url := blog_url |}
           (fresh, [])).
  reflexivity.
Defined.

(** The whole handler on a page with two candidates, with a service
    that is down: both articles are stored, with the error message as
    their summary. *)
Example scrape_and_summarize_service_down :
  fst (scrape_and_summarize (serving blog_page) (fun _ => Some (lit "key"))
         frozen_clock sleep_ok service_down
         (fun session _ => Return (len session + 1)%Z)
         blog_url 2
         {| gemini := {| _gemini_client := None; effects := [] |}; db := [] |})
  = Ok {| message := lit "Successfully processed 2 articles";
          articles_processed := 2;
          article_ids := [1; 2]%Z |}.
Proof. reflexivity. Qed.

End HandlerExamples.

(** ** [extract] and what is left to see of the tree *)

Section Extraction.
Import Soup Scraper GenericSpec TreeSpec.





















Lemma in_firstn {A : Type} (n : nat) :
  forall (l : list A) x, In x (firstn n l) -> In x l.
Proof.
  induction n as [|n IH]; intros l x; [intros []|].
  destruct l as [|y l]; cbn [firstn]; [intros []|].
  intros [->|Hx]; [left; reflexivity | right; apply IH, Hx].
Qed.


End Extraction.

Section ExtractionExamples.
Import Soup Scraper GenericSpec TreeSpec Fixtures Pages.


(** The script holds a style element; both are gone, and so is the
    style element after the paragraph. *)
Example scripted_page_record :
  _scrape_generic (serving scripted_page) blog_url 5
  = Return [{| title := lit "Article 1"; author := lit "Unknown";
               content := lit "Intro Body"; source_url := blog_url |}].
Proof. reflexivity. Qed.

End ExtractionExamples.

(** ** The number of sentences that [postprocess_summary] keeps *)

Section SentenceBound.
Import TextSpec HelperSpec Passes.

Lemma has_boundary_tail (c : ascii) (s : str) :
  ~ has_boundary capital (c :: s) -> ~ has_boundary capital s.
Proof.
  intros H [a [p [ws [u [b [-> Hb]]]]]]; apply H.
  exists (c :: a), p, ws, u, b; split; [reflexivity | exact Hb].
Qed.

Lemma has_boundary_infix (a s b : str) :
  ~ has_boundary capital (a ++ s ++ b) -> ~ has_boundary capital s.
Proof.
  intros H [a' [p [ws [u [b' [-> Hb]]]]]]; apply H.
  exists (a ++ a'), p, ws, u, (b' ++ b); split; [|exact Hb].
  repeat (rewrite <- app_assoc; cbn [app]); reflexivity.
Qed.

Lemma space_not_sentence_end : sentence_end " " = false.
Proof. reflexivity. Qed.

Lemma space_not_capital : capital " " = false.
Proof. reflexivity. Qed.

(** Two texts without a boundary, put together with a space that is no
    boundary either, have no boundary. *)
Lemma no_straddle (x : str) :
  forall y,
    x <> [] -> starts_solid (rev x) -> ~ has_boundary capital x ->
    starts_solid y -> ~ has_boundary capital y ->
    joint x y = false ->
    ~ has_boundary capital (x ++ " "%char :: y).
Proof.
  induction x as [|c x' IH]; intros y Hne Hend Hx Hy Hny Hj; [congruence|].
  intros [a [p [ws [u [b [E [Ep [Hwne [Hws Cu]]]]]]]]].
  destruct a as [|c0 a']; cbn [app] in E; injection E as Ec E.
  - subst p.
    destruct (app_eq_app _ _ _ _ E) as [l [[Ex El]|[Ews El]]].
    + (* the gap ends inside [x] *)
      destruct l as [|z l']; cbn [app] in El; injection El as Eu El.
      * subst u; rewrite space_not_capital in Cu; discriminate.
      * subst z; apply Hx; exists [], c, ws, u, l'; rewrite Ex; repeat split; auto.
    + (* the gap covers what is left of [x] *)
      destruct l as [|z l']; cbn [app] in El; injection El as Ez El.
      * subst u; rewrite space_not_capital in Cu; discriminate.
      * subst z; rewrite Ews, forallb_app in Hws.
        apply andb_prop in Hws; destruct Hws as [Hx' Hl].
        cbn [forallb] in Hl; apply andb_prop in Hl; destruct Hl as [_ Hl].
        destruct x' as [|d x''].
        -- destruct l' as [|z l''].
           ++ cbn [app] in El; subst y.
              unfold joint in Hj; cbn [rev app] in Hj.
              rewrite Ep, Cu in Hj; discriminate.
           ++ rewrite El in Hy; cbn [app starts_solid] in Hy.
              cbn [forallb] in Hl; apply andb_prop in Hl; destruct Hl as [Hz _].
              congruence.
        -- destruct (nonempty_last (d :: x'') ltac:(discriminate)) as [t [e Et]].
           rewrite Et in Hend, Hx'.
           change (c :: t ++ [e]) with ((c :: t) ++ [e]) in Hend.
           rewrite rev_app_distr in Hend; cbn [rev app starts_solid] in Hend.
           rewrite forallb_app in Hx'; apply andb_prop in Hx'; destruct Hx' as [_ He].
           cbn [forallb] in He; apply andb_prop in He; destruct He as [He _].
           congruence.
  - subst c0; destruct x' as [|d x''].
    + cbn [app] in E; destruct a' as [|z a'']; cbn [app] in E; injection E as Ez E.
      * subst p; rewrite space_not_sentence_end in Ep; discriminate.
      * apply Hny; exists a'', p, ws, u, b; repeat split; auto.
    + apply (IH y); try assumption; try discriminate.
      * change (c :: d :: x'') with ([c] ++ d :: x'') in Hend.
        rewrite rev_app_distr in Hend.
        destruct (rev (d :: x'')) as [|e r] eqn:Er;
          [cbn [rev] in Er; destruct (rev x''); discriminate | exact Hend].
      * apply (has_boundary_tail c), Hx.
      * unfold joint in Hj |- *.
        change (c :: d :: x'') with ([c] ++ d :: x'') in Hj.
        rewrite rev_app_distr in Hj.
        destruct (rev (d :: x'')) as [|e r] eqn:Er;
          [cbn [rev] in Er; destruct (rev x''); discriminate | exact Hj].
      * exists a', p, ws, u, b; repeat split; auto.
Qed.

(** A text put before the fragments of another, with a space that is no
    boundary: the first fragment grows, their number does not. *)
Lemma fragments_prepend (x J : str) (L : list str) :
  fragments capital J L ->
  x <> [] -> starts_solid (rev x) -> ~ has_boundary capital x ->
  J <> [] -> starts_solid J -> joint x J = false ->
  exists L', fragments capital (x ++ " "%char :: J) L' /\ length L' = length L.
Proof.
  intros HJ Hne Hend Hx HJne HJs Hj.
  inversion HJ as [s Hno|f p ws u rest l Hno Ep Hwne Hws Cu Hrest]; subst.
  - exists [x ++ " "%char :: J]; split; [|reflexivity].
    apply fragments_last, no_straddle; assumption.
  - exists ((x ++ " "%char :: f ++ [p]) :: l); split; [|reflexivity].
    replace (x ++ " "%char :: (f ++ [p]) ++ ws ++ u :: rest)
      with (((x ++ " "%char :: f) ++ [p]) ++ ws ++ u :: rest)
      by (repeat (rewrite <- app_assoc; cbn [app]); reflexivity).
    replace (x ++ " "%char :: f ++ [p]) with ((x ++ " "%char :: f) ++ [p])
      by (repeat (rewrite <- app_assoc; cbn [app]); reflexivity).
    apply fragments_cut; try assumption.
    replace ((x ++ " "%char :: f) ++ [p]) with (x ++ " "%char :: (f ++ [p]))
      by (repeat (rewrite <- app_assoc; cbn [app]); reflexivity).
    apply no_straddle; try assumption.
    + destruct f; cbn [app starts_solid] in *; exact HJs.
    + unfold joint in *; destruct (rev x); [reflexivity|].
      destruct f; cbn [app] in *; exact Hj.
Qed.

Lemma kept_sentence_joint_cut (x J : str) (L : list str) :
  fragments capital J L -> kept_sentence x -> joint x J = true ->
  fragments capital (x ++ " "%char :: J) (x :: L).
Proof.
  intros HJ [Hne [_ [_ Hx]]] Hj; unfold joint in Hj.
  destruct (nonempty_last x Hne) as [f [p ->]].
  rewrite rev_app_distr in Hj; cbn [rev app] in Hj.
  destruct J as [|u rest]; [discriminate|].
  apply andb_prop in Hj; destruct Hj as [Ep Cu].
  change ((f ++ [p]) ++ " "%char :: u :: rest)
    with ((f ++ [p]) ++ [" "%char] ++ u :: rest).
  apply fragments_cut; auto; discriminate.
Qed.

Lemma join_starts (x : str) (rest : list str) :
  x <> [] -> starts_solid x -> join (lit " ") (x :: rest) <> []
  /\ starts_solid (join (lit " ") (x :: rest)).
Proof.
  intros Hne Hs; destruct x as [|c x']; [congruence|].
  destruct rest; cbn [join app starts_solid] in *; split; auto; discriminate.
Qed.

(** Kept sentences joined by single spaces have at most as many
    fragments as there are sentences. *)
Lemma fragments_join (xs : list str) :
  Forall kept_sentence xs -> xs <> [] ->
  exists L, fragments capital (join (lit " ") xs) L /\ length L <= length xs.
Proof.
  induction 1 as [|x rest Hx Hrest IH]; intros Hne; [congruence|].
  destruct rest as [|y rest'].
  - exists [x]; split; [|reflexivity].
    apply fragments_last; destruct Hx as [_ [_ [_ Hx]]]; exact Hx.
  - destruct (IH ltac:(discriminate)) as [L [HL Hlen]].
    rewrite join_cons_nonempty by discriminate.
    change (x ++ lit " " ++ join (lit " ") (y :: rest'))
      with (x ++ " "%char :: join (lit " ") (y :: rest')).
    inversion Hrest as [|y' r' Hy _]; subst.
    destruct Hy as [Hyne [Hys _]].
    destruct (join_starts y rest' Hyne Hys) as [HJne HJs].
    destruct (joint x (join (lit " ") (y :: rest'))) eqn:Hj.
    + exists (x :: L); split; [|cbn [length] in *; lia].
      apply kept_sentence_joint_cut; assumption.
    + destruct Hx as [Hxne [_ [Hxe Hxb]]].
      destruct (fragments_prepend x _ L HL Hxne Hxe Hxb HJne HJs Hj) as [L' [HL' E]].
      exists L'; split; [exact HL' | cbn [length] in *; lia].
Qed.

Lemma no_boundary_dot (s : str) :
  ~ has_boundary capital s -> ~ has_boundary capital (s ++ lit ".").
Proof.
  intros Hs [a [p [ws [u [b [E Hb]]]]]].
  destruct b as [|z b'].
  - replace (a ++ p :: ws ++ [u]) with ((a ++ p :: ws) ++ [u]) in E
      by (repeat (rewrite <- app_assoc; cbn [app]); reflexivity).
    apply app_inj_tail in E; destruct E as [_ <-].
    destruct Hb as [_ [_ [_ Cu]]]; discriminate.
  - destruct (nonempty_last (z :: b') ltac:(discriminate)) as [b0 [e Eb]].
    rewrite Eb in E.
    replace (a ++ p :: ws ++ u :: b0 ++ [e]) with ((a ++ p :: ws ++ u :: b0) ++ [e]) in E
      by (repeat (rewrite <- app_assoc; cbn [app]); reflexivity).
    apply app_inj_tail in E; destruct E as [E _].
    apply Hs; exists a, p, ws, u, b0; split; [exact E | exact Hb].
Qed.

(** A full stop put after the text goes into its last fragment. *)
Lemma fragments_dot (s : str) (L : list str) :
  fragments capital s L ->
  exists L', fragments capital (s ++ lit ".") L' /\ length L' = length L.
Proof.
  induction 1 as [s Hno|f p ws u rest l Hno Ep Hne Hws Cu _ IH].
  - exists [s ++ lit "."]; split; [|reflexivity].
    apply fragments_last, no_boundary_dot, Hno.
  - destruct IH as [l' [Hl' E]].
    exists ((f ++ [p]) :: l'); split; [|cbn [length]; rewrite E; reflexivity].
    replace (((f ++ [p]) ++ ws ++ u :: rest) ++ lit ".")
      with ((f ++ [p]) ++ ws ++ (u :: rest) ++ lit ".")
      by (repeat (rewrite <- app_assoc; cbn [app]); reflexivity).
    apply fragments_cut; assumption.
Qed.

Lemma fragments_no_boundary (s : str) (L : list str) :
  fragments capital s L -> Forall (fun f => ~ has_boundary capital f) L.
Proof. induction 1; constructor; auto. Qed.

Lemma strip_unchanged (s : str) :
  starts_solid s -> starts_solid (rev s) -> strip s = s.
Proof.
  intros Hs He; rewrite strip_solid by exact Hs.
  rewrite <- (rev_involutive s) at 1; rewrite rstrip_rev_solid by exact He.
  apply rev_involutive.
Qed.

(** What [split_sentences] returns are kept sentences. *)
Lemma split_sentences_kept (s : str) : Forall kept_sentence (split_sentences s).
Proof.
  rewrite split_sentences_long_enough; unfold long_enough.
  pose proof (fragments_no_boundary _ _ (split_fragments s)) as Hno.
  induction Hno as [|f l Hf _ IH]; [constructor|].
  cbn [map filter]; destruct (Z.leb_spec 6 (len (strip f))) as [Hlen|]; [|exact IH].
  constructor; [|exact IH].
  assert (Hne : strip f <> [])
    by (intros E; rewrite E in Hlen; unfold len in Hlen; cbn in Hlen; lia).
  split; [exact Hne|]; split; [apply strip_starts_solid|]; split.
  - destruct (nonempty_last _ Hne) as [t [e E]].
    rewrite E, rev_app_distr; cbn [rev app starts_solid].
    eapply strip_ends_solid; exact E.
  - destruct (strip_infix f) as [a [b E]].
    apply (has_boundary_infix a (strip f) b); rewrite <- E; exact Hf.
Qed.

Lemma join_ends (xs : list str) :
  Forall kept_sentence xs -> xs <> [] ->
  starts_solid (rev (join (lit " ") xs)).
Proof.
  induction 1 as [|x rest Hx Hrest IH]; intros Hne; [congruence|].
  destruct rest as [|y rest'].
  - destruct Hx as [_ [_ [He _]]]; exact He.
  - rewrite join_cons_nonempty by discriminate.
    rewrite !rev_app_distr.
    specialize (IH ltac:(discriminate)).
    inversion Hrest as [|y' r' [Hyne [Hys _]] _]; subst.
    destruct (join_starts y rest' Hyne Hys) as [HJne _].
    destruct (rev (join (lit " ") (y :: rest'))) as [|e r] eqn:Er;
      [|exact IH].
    apply (f_equal (@rev ascii)) in Er; rewrite rev_involutive in Er.
    contradiction.
Qed.

Lemma length_split_sentences (s : str) :
  length (split_sentences s) <= length (split boundary s).
Proof.
  rewrite split_sentences_long_enough; unfold long_enough.
  rewrite <- (length_map strip (split boundary s)); apply filter_length_le.
Qed.

(** X21.  For a bound that is not negative, what [postprocess_summary]
    returns holds at most [max_sentences] sentences, as
    [split_sentences] counts them: joining the kept sentences by single
    spaces makes no boundary that was not one, and the full stop that may
    be put after the last one makes none. *)
Theorem postprocess_summary_sentence_bound (summary : str) (max_sentences : Z) :
  (0 <= max_sentences)%Z ->
  (len (split_sentences (postprocess_summary summary max_sentences))
   <= max_sentences)%Z.
Proof.
  intros Hm; unfold postprocess_summary.
  destruct summary as [|c0 t0]; [cbn; exact Hm|].
  cbv zeta.
  remember (sub numbered [] _) as s5 eqn:E5; clear E5.
  remember (if (len (split_sentences s5) >? max_sentences)%Z
            then slice_to (split_sentences s5) max_sentences
            else split_sentences s5) as l eqn:El.
  assert (Hkept : Forall kept_sentence l).
  { rewrite El; destruct (_ >? _)%Z; [|apply split_sentences_kept].
    apply Forall_forall; intros x Hx.
    pose proof (split_sentences_kept s5) as Hall; rewrite Forall_forall in Hall.
    apply Hall; unfold slice_to in Hx.
    destruct (max_sentences <? 0)%Z; eapply in_firstn; exact Hx. }
  assert (Hlen : (len l <= max_sentences)%Z).
  { rewrite El; destruct (Z.gtb_spec (len (split_sentences s5)) max_sentences);
      [|assumption].
    rewrite slice_to_nonneg by exact Hm.
    unfold len; rewrite length_firstn; lia. }
  clear El; destruct l as [|x rest]; [cbn; exact Hm|].
  set (l := x :: rest) in *.
  assert (Hne : l <> []) by discriminate.
  assert (Hp : strip (join (lit " ") l) = join (lit " ") l).
  { apply strip_unchanged; [|apply join_ends; assumption].
    destruct (Forall_inv Hkept) as [Hxne [Hxs _]].
    apply (join_starts x rest Hxne Hxs). }
  rewrite Hp, (closing_step (join (lit " ") l)).
  destruct (fragments_join l Hkept Hne) as [L [HL HLlen]].
  assert (Hbound : forall r L',
             fragments capital r L' -> length L' = length L ->
             (len (split_sentences r) <= max_sentences)%Z).
  { intros r L' Hr E.
    pose proof (fragments_unique _ _ (split_fragments r) _ Hr) as Eu.
    pose proof (length_split_sentences r) as Hle.
    rewrite Eu in Hle; unfold len in *; lia. }
  destruct (rev (join (lit " ") l)) as [|e r]; [cbn; exact Hm|].
  destruct (Ascii.eqb e "."); [apply (Hbound _ L HL eq_refl)|].
  destruct (fragments_dot _ _ HL) as [L' [HL' E]].
  apply (Hbound _ L' HL' E).
Qed.

End SentenceBound.

Section SentenceBoundExamples.

Lemma postprocess_summary_sentence_bound_witness :
  (len (split_sentences
          (postprocess_summary
             (lit "First one here. Second one here! Third one here? Fourth.") 2))
   <= 2)%Z.
Proof.
  apply (postprocess_summary_sentence_bound
           (lit "First one here. Second one here! Third one here? Fourth.") 2).
  lia.
Defined.

Example postprocess_summary_two_sentences :
  postprocess_summary
    (lit "First one here. Second one here! Third one here? Fourth.") 2
  = lit "First one here. Second one here!.".
Proof. reflexivity. Qed.

End SentenceBoundExamples.
